(** * go-ecies: the ECIES pipeline, its KDF, framing and key serialization

    A shallow embedding of [ecies.go] and of the DER/PEM key code, over
    the contracts of the Go packages they call (crypto/elliptic,
    crypto/hmac, crypto/cipher, hash, encoding/asn1, encoding/pem).

    Byte slices are lists of [Z]; Go's [int] is a 64-bit two's
    complement integer whose wrap-around is written out; a Go function
    returning [(value, error)] returns a [result], whose third case is a
    run-time panic. *)

From Stdlib Require Import String ZArith List Lia Bool.
Import ListNotations.
Open Scope Z_scope.

(** ** Bytes, slices and Go's [int] *)

Abbreviation byte := Z (only parsing).
Abbreviation bytes := (list Z) (only parsing).

Definition len {A : Type} (s : list A) : Z := Z.of_nat (length s).

Module GoInt.

Definition min_int : Z := - 2 ^ 63.
Definition max_int : Z := 2 ^ 63 - 1.

(** Two's complement reduction to 64 bits. *)
Definition wrap (z : Z) : Z := (z + 2 ^ 63) mod 2 ^ 64 - 2 ^ 63.

Definition add (a b : Z) : Z := wrap (a + b).
Definition sub (a b : Z) : Z := wrap (a - b).
Definition mul (a b : Z) : Z := wrap (a * b).

(** Integer division truncates toward zero (the divisor is not zero). *)
Definition quot (a b : Z) : Z := wrap (Z.quot a b).

Definition in_range (z : Z) : Prop := min_int <= z <= max_int.

End GoInt.

Infix "+i" := GoInt.add (at level 50, left associativity).
Infix "-i" := GoInt.sub (at level 50, left associativity).
Infix "*i" := GoInt.mul (at level 40, left associativity).

(** ** Errors and results *)

Inductive Error : Type :=
| ErrImport
| ErrInvalidCurve
| ErrInvalidParams
| ErrInvalidPublicKey
| ErrSharedKeyIsPointAtInfinity
| ErrSharedKeyTooBig
| ErrKeyDataTooLong
| ErrSharedTooLong
| ErrInvalidMessage
| ErrInvalidPrivateKey
| ErrUnsupportedECIESParameters
| io_EOF
| io_ErrUnexpectedEOF
| ExternalError (code : Z).

Inductive result (A : Type) : Type :=
| Ok (a : A)
| Err (e : Error)
| Panic.

Arguments Ok {A} a.
Arguments Err {A} e.
Arguments Panic {A}.

Definition bind {A B : Type} (r : result A) (k : A -> result B) : result B :=
  match r with
  | Ok a => k a
  | Err e => Err e
  | Panic => Panic
  end.

Notation "x <- r ;; k" := (bind r (fun x => k))
  (at level 61, r at next level, right associativity).
Notation "' p <- r ;; k" := (bind r (fun x => let p := x in k))
  (at level 61, p pattern, r at next level, right associativity).

(** ** Slice operations

    A slice is modelled by its visible elements; capacity is not
    modelled.  [s[:n]] with [n] beyond [len(s)] is therefore treated as
    out of range: in Go it either panics or, when the capacity happens
    to reach [n], exposes bytes past the end of [s]. *)

(** [make([]byte, n)] *)
Definition make (n : Z) : result bytes :=
  if n <? 0 then Panic else Ok (repeat 0 (Z.to_nat n)).

(** [s[:hi]] *)
Definition slice_to (s : bytes) (hi : Z) : result bytes :=
  if (hi <? 0) || (len s <? hi) then Panic else Ok (firstn (Z.to_nat hi) s).

(** [s[lo:]] *)
Definition slice_from (s : bytes) (lo : Z) : result bytes :=
  if (lo <? 0) || (len s <? lo) then Panic else Ok (skipn (Z.to_nat lo) s).

(** [s[lo:hi]] *)
Definition slice (s : bytes) (lo hi : Z) : result bytes :=
  if (lo <? 0) || (hi <? lo) || (len s <? hi) then Panic
  else Ok (firstn (Z.to_nat (hi - lo)) (skipn (Z.to_nat lo) s)).

(** [copy(dst[off:], src)], as the new contents of [dst]; [off <= len(dst)]. *)
Definition copy_at (dst : bytes) (off : nat) (src : bytes) : bytes :=
  firstn off dst
  ++ firstn (length dst - off) src
  ++ skipn (off + length src) dst.

(** [s] with the byte at index [i] replaced by [b]; [i < len(s)]. *)
Definition set_byte (s : bytes) (i : nat) (b : byte) : bytes :=
  firstn i s ++ b :: skipn (S i) s.

(** ** math/big: the conversions the code uses, a [big.Int] being a [Z] *)

(** [new(big.Int).SetBytes(b)]: big-endian, unsigned. *)
Definition SetBytes (b : bytes) : Z :=
  fold_left (fun acc x => acc * 256 + x) b 0.

(** The [n] low base-256 digits of [x], most significant first. *)
Fixpoint be_digits (n : nat) (x : Z) : bytes :=
  match n with
  | O => []
  | S n' => be_digits n' (x / 256) ++ [x mod 256]
  end.

(** Number of base-256 digits of a non-negative [x]. *)
Definition byte_length (x : Z) : nat :=
  if x =? 0 then O else Z.to_nat (Z.log2 x / 8 + 1).

(** [x.Bytes()]: the absolute value, big-endian, without leading zeros. *)
Definition Bytes (x : Z) : bytes :=
  be_digits (byte_length (Z.abs x)) (Z.abs x).

(** [x.FillBytes(buf)]: the absolute value zero-extended to [len(buf)];
    panics when it does not fit. *)
Definition FillBytes (x : Z) (buf : bytes) : result bytes :=
  if 256 ^ len buf <=? Z.abs x then Panic
  else Ok (be_digits (length buf) (Z.abs x)).

(** ** crypto/subtle *)

(** [subtle.ConstantTimeCompare]: 1 when the slices are equal, else 0;
    every byte pair is folded into one accumulator. *)
Definition ConstantTimeCompare (x y : bytes) : Z :=
  if len x =? len y then
    let v := fold_left (fun v p => Z.lor v (Z.lxor (fst p) (snd p)))
                       (combine x y) 0 in
    if v =? 0 then 1 else 0
  else 0.

(** ** io.Reader

    The randomness source is the finite sequence of bytes it can still
    deliver; reading past its end is the reader's error. *)

Definition Reader := bytes.

(** [io.ReadFull(r, buf)] with [len(buf) = n]. *)
Definition io_ReadFull (r : Reader) (n : nat) : result (bytes * Reader) :=
  if Nat.eqb n 0 then Ok ([], r)
  else if Nat.eqb (length r) 0 then Err io_EOF
  else if Nat.ltb (length r) n then Err io_ErrUnexpectedEOF
  else Ok (firstn n r, skipn n r).

(** ** hash.Hash

    A hash object is its algorithm together with the bytes written
    since the last reset. *)

Record HashAlg : Type := {
  digest : bytes -> bytes;
  Size : Z;
  hash_BlockSize : Z
}.

Record hash_Hash : Type := {
  alg : HashAlg;
  written : bytes
}.

Definition New (a : HashAlg) : hash_Hash := {| alg := a; written := [] |}.

Definition Write (h : hash_Hash) (p : bytes) : hash_Hash :=
  {| alg := alg h; written := written h ++ p |}.

(** [h.Sum(b)] appends the digest to [b] and leaves [h] unchanged. *)
Definition Sum (h : hash_Hash) (b : bytes) : bytes :=
  b ++ digest (alg h) (written h).

Definition Reset (h : hash_Hash) : hash_Hash := New (alg h).

(** ** crypto/cipher *)

Record Block : Type := {
  Block_BlockSize : Z;
  Block_Encrypt : bytes -> bytes
}.

(** ** crypto/elliptic curves *)

Inductive EllipticCurve : Type :=
| P224
| P256
| P384
| P521
| OtherCurve (bitSize : Z).

(** [curve.Params().BitSize] *)
Definition BitSize (c : EllipticCurve) : Z :=
  match c with
  | P224 => 224
  | P256 => 256
  | P384 => 384
  | P521 => 521
  | OtherCurve b => b
  end.

Definition curve_eqb (a b : EllipticCurve) : bool :=
  match a, b with
  | P224, P224 | P256, P256 | P384, P384 | P521, P521 => true
  | OtherCurve x, OtherCurve y => x =? y
  | _, _ => false
  end.

(** ** The packages the code calls

    Operations of the Go standard library that the repository consumes
    through their contracts. *)

Class CryptoLib : Type := {
  (** [curve.ScalarMult(x, y, k)]; [None] is a nil [x]. *)
  ScalarMult : EllipticCurve -> Z -> Z -> bytes -> option (Z * Z);
  (** [curve.ScalarBaseMult(k)] *)
  ScalarBaseMult : EllipticCurve -> bytes -> Z * Z;
  (** [curve.IsOnCurve(x, y)] *)
  IsOnCurve : EllipticCurve -> Z -> Z -> bool;
  (** [curve.Params().N] *)
  Order : EllipticCurve -> Z;
  (** [elliptic.GenerateKey(curve, rand)] *)
  elliptic_GenerateKey :
    EllipticCurve -> Reader -> result (bytes * Z * Z * Reader);
  (** [elliptic.Marshal(curve, x, y)] *)
  elliptic_Marshal : EllipticCurve -> Z -> Z -> result bytes;
  (** [elliptic.Unmarshal(curve, data)]; [None] is a nil [x]. *)
  elliptic_Unmarshal : EllipticCurve -> bytes -> option (Z * Z);
  (** [hmac.New(h, key)], written [data], then [Sum(nil)] *)
  hmac_Sum : HashAlg -> bytes -> bytes -> bytes;
  (** The first [n] bytes of the key stream of [cipher.NewCTR(b, iv)]. *)
  ctr_keystream : Block -> bytes -> nat -> bytes;
  (** Digests of [sha256.New], [sha512.New384], [sha512.New]. *)
  sha256_digest : bytes -> bytes;
  sha384_digest : bytes -> bytes;
  sha512_digest : bytes -> bytes;
  (** [aes.NewCipher(key)] *)
  aes_NewCipher : bytes -> result Block
}.

Definition sha256_New `{CryptoLib} : HashAlg :=
  {| digest := sha256_digest; Size := 32; hash_BlockSize := 64 |}.
Definition sha512_New384 `{CryptoLib} : HashAlg :=
  {| digest := sha384_digest; Size := 48; hash_BlockSize := 128 |}.
Definition sha512_New `{CryptoLib} : HashAlg :=
  {| digest := sha512_digest; Size := 64; hash_BlockSize := 128 |}.

(** A CTR stream at its start. *)
Record Stream : Type := {
  stream_block : Block;
  stream_iv : bytes
}.

(** [cipher.NewCTR(b, iv)] panics unless [len(iv)] is the block size. *)
Definition NewCTR (b : Block) (iv : bytes) : result Stream :=
  if len iv =? Block_BlockSize b
  then Ok {| stream_block := b; stream_iv := iv |}
  else Panic.

Definition xor_bytes (a b : bytes) : bytes :=
  map (fun p => Z.lxor (fst p) (snd p)) (combine a b).

(** [s.XORKeyStream(dst, src)], as the new contents of [dst]. *)
Definition XORKeyStream `{CryptoLib} (s : Stream) (dst src : bytes)
  : result bytes :=
  if len dst <? len src then Panic
  else Ok (copy_at dst 0
             (xor_bytes src
                (ctr_keystream (stream_block s) (stream_iv s) (length src)))).

(** ** ECIES parameters *)

(** Modelled from the spec: the declaration of [ECIESParams] is in a
    file that is not among the sources; section 3 gives its four fields,
    the hash factory, the block-cipher factory taking the encryption
    sub-key, the IV length and the sub-key length.  A factory is a Go
    function value and may be nil, as in [new(ECIESParams)]. *)
Record ECIESParams : Type := {
  Hash : option HashAlg;
  Cipher : option (bytes -> result Block);
  BlockSize : Z;
  KeyLen : Z
}.

(** [params.Hash()]: calling a nil function value panics. *)
Definition call_Hash (f : option HashAlg) : result hash_Hash :=
  match f with
  | Some a => Ok (New a)
  | None => Panic
  end.

(** [params.Cipher(key)] *)
Definition call_Cipher (f : option (bytes -> result Block)) (key : bytes)
  : result Block :=
  match f with
  | Some newCipher => newCipher key
  | None => Panic
  end.

Section Pipeline.

Context {L : CryptoLib}.

(** Modelled from the spec: [ParamsFromCurve] is defined in a file that
    is not among the sources; section 3 binds P-256 to SHA-256 and
    AES-128 (key length 16), P-384 to SHA-384 and AES-192 (24), P-521 to
    SHA-512 and AES-256 (32), each with block size 16, and section 4.1
    returns none for every other curve, P-224 included. *)
Definition ParamsFromCurve (curve : EllipticCurve) : option ECIESParams :=
  match curve with
  | P256 => Some {| Hash := Some sha256_New; Cipher := Some aes_NewCipher;
                    BlockSize := 16; KeyLen := 16 |}
  | P384 => Some {| Hash := Some sha512_New384; Cipher := Some aes_NewCipher;
                    BlockSize := 16; KeyLen := 24 |}
  | P521 => Some {| Hash := Some sha512_New; Cipher := Some aes_NewCipher;
                    BlockSize := 16; KeyLen := 32 |}
  | _ => None
  end.

(** ** Keys *)

Record PublicKey : Type := {
  X : Z;
  Y : Z;
  Curve : EllipticCurve;
  Params : option ECIESParams
}.

Record PrivateKey : Type := {
  PrivateKey_PublicKey : PublicKey;
  D : Z
}.

(** The [KeyProvider] interface. *)
Record KeyProvider : Type := {
  KeyProvider_Public : PublicKey;
  KeyProvider_GenerateShared : PublicKey -> result bytes
}.

Definition GenerateKey (rand : Reader) (curve : EllipticCurve)
    (params : option ECIESParams) : result (PrivateKey * Reader) :=
  '(pb, x, y, rand') <- elliptic_GenerateKey curve rand ;;
  let params :=
    match params with
    | None => ParamsFromCurve curve
    | Some p => Some p
    end in
  Ok ({| PrivateKey_PublicKey :=
           {| X := x; Y := y; Curve := curve; Params := params |};
         D := SetBytes pb |}, rand').

Definition Public (prv : PrivateKey) : PublicKey := PrivateKey_PublicKey prv.

(** SEC 1 section 3.3.1: ECDH key agreement. *)
Definition GenerateShared (prv : PrivateKey) (pub : PublicKey) : result bytes :=
  if negb (curve_eqb (Curve (PrivateKey_PublicKey prv)) (Curve pub))
  then Err ErrInvalidCurve
  else
    match ScalarMult (Curve pub) (X pub) (Y pub) (Bytes (D prv)) with
    | None => Err ErrSharedKeyIsPointAtInfinity
    | Some (x, _) =>
        out <- make (GoInt.quot (BitSize (Curve pub) +i 7) 8) ;;
        FillBytes x out
    end.

(** [*PrivateKey] implements [KeyProvider]. *)
Definition PrivateKey_KeyProvider (prv : PrivateKey) : KeyProvider :=
  {| KeyProvider_Public := Public prv;
     KeyProvider_GenerateShared := GenerateShared prv |}.

(** ** KDF *)

Definition big2To32 : Z := 2 ^ 32.
Definition big2To32M1 : Z := big2To32 - 1.

(** A byte incremented in place wraps at 256. *)
Definition inc_byte (b : byte) : byte := (b + 1) mod 256.

Definition incCounter (ctr : bytes) : result bytes :=
  match ctr with
  | c0 :: c1 :: c2 :: c3 :: rest =>
      let c3 := inc_byte c3 in
      if negb (c3 =? 0) then Ok (c0 :: c1 :: c2 :: c3 :: rest)
      else
        let c2 := inc_byte c2 in
        if negb (c2 =? 0) then Ok (c0 :: c1 :: c2 :: c3 :: rest)
        else
          let c1 := inc_byte c1 in
          if negb (c1 =? 0) then Ok (c0 :: c1 :: c2 :: c3 :: rest)
          else
            let c0 := inc_byte c0 in
            Ok (c0 :: c1 :: c2 :: c3 :: rest)
  | _ => Panic
  end.

(** The body of the loop of [concatKDF], run [n] times. *)
Fixpoint concatKDF_loop (n : nat) (hash : hash_Hash) (counter k z s1 : bytes)
  : result (bytes * hash_Hash) :=
  match n with
  | O => Ok (k, hash)
  | S n' =>
      let hash := Write hash counter in
      let hash := Write hash z in
      let hash := Write hash s1 in
      let k := k ++ Sum hash [] in
      let hash := Reset hash in
      counter <- incCounter counter ;;
      concatKDF_loop n' hash counter k z s1
  end.

(** NIST SP 800-56c Concatenation Key Derivation Function.  The loop
    [for i := 0; i <= reps; i++] runs [reps + 1] times, and not at all
    when [reps] is negative. *)
Definition concatKDF (hash : hash_Hash) (z s1 : bytes) (kdLen : Z)
  : result (bytes * hash_Hash) :=
  let divisor := hash_BlockSize (alg hash) *i 8 in
  if divisor =? 0 then Panic
  else
    let reps := GoInt.quot ((kdLen +i 7) *i 8) divisor in
    if reps >? big2To32M1 then Err ErrKeyDataTooLong
    else
      let counter := [0; 0; 0; 1] in
      '(k, hash) <- concatKDF_loop (Z.to_nat (reps + 1)) hash counter [] z s1 ;;
      k <- slice_to k kdLen ;;
      Ok (k, hash).

(** ** MAC *)

(** messageTag computes the MAC of a message as per SEC 1, 3.5. *)
Definition messageTag (hash : option HashAlg) (km msg shared : bytes)
  : result bytes :=
  match hash with
  | Some a => Ok (hmac_Sum a km (msg ++ shared))
  | None => Panic
  end.

(** ** Symmetric layer *)

Definition generateIV (params : ECIESParams) (rand : Reader)
  : result (bytes * Reader) :=
  iv <- make (BlockSize params) ;;
  io_ReadFull rand (length iv).

Definition symEncrypt (rand : Reader) (params : ECIESParams) (key m : bytes)
  : result bytes :=
  c <- call_Cipher (Cipher params) key ;;
  '(iv, _) <- generateIV params rand ;;
  ctr <- NewCTR c iv ;;
  ct <- make (len m +i BlockSize params) ;;
  let ct := copy_at ct 0 iv in
  dst <- slice_from ct (BlockSize params) ;;
  dst <- XORKeyStream ctr dst m ;;
  Ok (copy_at ct (Z.to_nat (BlockSize params)) dst).

(** [ct[:params.BlockSize]] on a [ct] shorter than the block size is out
    of range here; where the capacity of [ct] lets Go take that slice,
    the next statement, [make] with the negative length
    [len(ct)-params.BlockSize], panics. *)
Definition symDecrypt (params : ECIESParams) (key ct : bytes) : result bytes :=
  c <- call_Cipher (Cipher params) key ;;
  iv <- slice_to ct (BlockSize params) ;;
  ctr <- NewCTR c iv ;;
  m <- make (len ct -i BlockSize params) ;;
  src <- slice_from ct (BlockSize params) ;;
  XORKeyStream ctr m src.

(** ** The pipeline *)

(** [pub.Params], or the default of the curve. *)
Definition resolve_params (pub : PublicKey) : result ECIESParams :=
  match Params pub with
  | Some params => Ok params
  | None =>
      match ParamsFromCurve (Curve pub) with
      | Some params => Ok params
      | None => Err ErrUnsupportedECIESParameters
      end
  end.

(** The statements that [Encrypt] and [Decrypt] both run between the
    key agreement and the symmetric layer: the KDF, the split of its
    output into [Ke] and [Km], and the hashing of [Km]. *)
Definition derive_keys (hash : hash_Hash) (params : ECIESParams)
    (z s1 : bytes) : result (bytes * bytes * hash_Hash) :=
  '(K, hash) <- concatKDF hash z s1 (KeyLen params +i KeyLen params) ;;
  Ke <- slice_to K (KeyLen params) ;;
  Km <- slice_from K (KeyLen params) ;;
  let hash := Write hash Km in
  let Km := Sum hash [] in
  let hash := Reset hash in
  Ok (Ke, Km, hash).

(** Encrypt encrypts a message using ECIES as specified in SEC 1, 5.1. *)
Definition Encrypt (rand : Reader) (pub : PublicKey) (m s1 s2 : bytes)
  : result bytes :=
  params <- resolve_params pub ;;
  '(R, rand) <- GenerateKey rand (Curve pub) (Some params) ;;
  hash <- call_Hash (Hash params) ;;
  z <- GenerateShared R pub ;;
  '(Ke, Km, _) <- derive_keys hash params z s1 ;;
  em <- symEncrypt rand params Ke m ;;
  if len em <=? BlockSize params then Ok []
  else
    d <- messageTag (Hash params) Km em s2 ;;
    Rb <- elliptic_Marshal (Curve pub) (X (Public R)) (Y (Public R)) ;;
    ct <- make (len Rb +i len em +i len d) ;;
    let ct := copy_at ct 0 Rb in
    let ct := copy_at ct (length Rb) em in
    let ct := copy_at ct (length Rb + length em) d in
    Ok ct.

(** Decrypt decrypts an ECIES ciphertext. *)
Definition Decrypt (prv : KeyProvider) (c s1 s2 : bytes) : result bytes :=
  match c with
  | [] => Err ErrInvalidMessage
  | c0 :: _ =>
      let pub := KeyProvider_Public prv in
      params <- resolve_params pub ;;
      hash <- call_Hash (Hash params) ;;
      let hLen := Size (alg hash) in
      let kLen := GoInt.quot (BitSize (Curve pub) +i 7) 8 in
      mStart <-
        (if (c0 =? 2) || (c0 =? 3) then Ok (1 +i kLen)
         else if c0 =? 4 then Ok (1 +i 2 *i kLen)
         else Err ErrInvalidPublicKey) ;;
      if len c <? mStart +i hLen +i 1 then Err ErrInvalidMessage
      else
        let mEnd := len c -i hLen in
        point <- slice_to c mStart ;;
        match elliptic_Unmarshal (Curve pub) point with
        | None => Err ErrInvalidPublicKey
        | Some (Rx, Ry) =>
            let R := {| X := Rx; Y := Ry; Curve := Curve pub;
                        Params := None |} in
            if negb (IsOnCurve (Curve R) (X R) (Y R)) then Err ErrInvalidCurve
            else
              z <- KeyProvider_GenerateShared prv R ;;
              '(Ke, Km, _) <- derive_keys hash params z s1 ;;
              body <- slice c mStart mEnd ;;
              d <- messageTag (Hash params) Km body s2 ;;
              tag <- slice_from c mEnd ;;
              if negb (ConstantTimeCompare tag d =? 1)
              then Err ErrInvalidMessage
              else symDecrypt params Ke body
        end
  end.

(** Deprecated: backward-compatible Decrypt method. *)
Definition PrivateKey_Decrypt (prv : PrivateKey) (rand : Reader)
    (c s1 s2 : bytes) : result bytes :=
  Decrypt (PrivateKey_KeyProvider prv) c s1 s2.

End Pipeline.

(** ** Key serialization (DER and PEM) *)

Definition ObjectIdentifier := list Z.

Definition secgScheme : list Z := [1; 3; 132; 1].
Definition ansiX962Scheme : list Z := [1; 2; 840; 10045].

Definition doScheme (base v : list Z) : ObjectIdentifier := ([] ++ base) ++ v.

(** curve OID code taken from crypto/x509 *)
Definition secgNamedCurve := ObjectIdentifier.

Definition secgNamedCurveP224 : secgNamedCurve := [1; 3; 132; 0; 33].
Definition secgNamedCurveP256 : secgNamedCurve := [1; 2; 840; 10045; 3; 1; 7].
Definition secgNamedCurveP384 : secgNamedCurve := [1; 3; 132; 0; 34].
Definition secgNamedCurveP521 : secgNamedCurve := [1; 3; 132; 0; 35].

(** The loop [for i := range curve] comparing component by component. *)
Fixpoint all_equal (a b : list Z) : bool :=
  match a, b with
  | x :: a', y :: b' => if negb (x =? y) then false else all_equal a' b'
  | _, _ => true
  end.

Definition secgNamedCurve_Equal (curve curve2 : secgNamedCurve) : bool :=
  if negb (len curve =? len curve2) then false else all_equal curve curve2.

(** [asn1.ObjectIdentifier.Equal] *)
Definition ObjectIdentifier_Equal (a b : ObjectIdentifier) : bool :=
  secgNamedCurve_Equal a b.

(** [None] is the nil curve. *)
Definition namedCurveFromOID (curve : secgNamedCurve) : option EllipticCurve :=
  if secgNamedCurve_Equal curve secgNamedCurveP224 then Some P224
  else if secgNamedCurve_Equal curve secgNamedCurveP256 then Some P256
  else if secgNamedCurve_Equal curve secgNamedCurveP384 then Some P384
  else if secgNamedCurve_Equal curve secgNamedCurveP521 then Some P521
  else None.

Definition oidFromNamedCurve (curve : EllipticCurve) : secgNamedCurve * bool :=
  match curve with
  | P224 => (secgNamedCurveP224, true)
  | P256 => (secgNamedCurveP256, true)
  | P384 => (secgNamedCurveP384, true)
  | P521 => (secgNamedCurveP521, true)
  | OtherCurve _ => ([], false)
  end.

(** [asn1.BitString] *)
Record BitString : Type := {
  BitString_Bytes : bytes;
  BitLength : Z
}.

(** asnAlgorithmIdentifier represents the ASN.1 structure of the same
    name; the raw [Parameters] are kept as their bytes. *)
Record asnAlgorithmIdentifier : Type := {
  Algorithm : ObjectIdentifier;
  Parameters : bytes
}.

Definition asnECDHAlgorithm := asnAlgorithmIdentifier.
Definition asnKeyDerivationFunction := asnAlgorithmIdentifier.
Definition asnSymmetricEncryption := asnAlgorithmIdentifier.
Definition asnMessageAuthenticationCode := asnAlgorithmIdentifier.

Definition asnAlgorithmIdentifier_Cmp (a b : asnAlgorithmIdentifier) : bool :=
  if negb (len (Algorithm a) =? len (Algorithm b)) then false
  else all_equal (Algorithm a) (Algorithm b).

Record asnECIESParameters : Type := {
  KDF : asnKeyDerivationFunction;
  Sym : asnSymmetricEncryption;
  MAC : asnMessageAuthenticationCode
}.

Record eccAlgorithmSet : Type := {
  ECDH : asnECDHAlgorithm;
  ECIES : asnECIESParameters
}.

Record ecpksSupplements : Type := {
  ECDomain : secgNamedCurve;
  ECCAlgorithms : eccAlgorithmSet
}.

Record asnSubjectPublicKeyInfo : Type := {
  subj_Algorithm : ObjectIdentifier;
  subj_PublicKey : BitString;
  Supplements : ecpksSupplements
}.

Definition idPublicKeyType : ObjectIdentifier := doScheme ansiX962Scheme [2].
Definition idEcPublicKeySupplemented : ObjectIdentifier :=
  doScheme idPublicKeyType [0].

Definition asnECPrivKeyVer1 : Z := 1.

Record asnPrivateKey : Type := {
  Version : Z;
  Private : bytes;
  asnPrivateKey_Curve : secgNamedCurve;
  asnPrivateKey_Public : BitString
}.

(** [pem.Block], without headers. *)
Record pem_Block : Type := {
  pem_Type : string;
  pem_Bytes : bytes
}.

(** The zero value of every field. *)
Definition zero_AlgorithmIdentifier : asnAlgorithmIdentifier :=
  {| Algorithm := []; Parameters := [] |}.
Definition zero_eccAlgorithmSet : eccAlgorithmSet :=
  {| ECDH := zero_AlgorithmIdentifier;
     ECIES := {| KDF := zero_AlgorithmIdentifier;
                 Sym := zero_AlgorithmIdentifier;
                 MAC := zero_AlgorithmIdentifier |} |}.

(** [new(ECIESParams)] *)
Definition new_ECIESParams : ECIESParams :=
  {| Hash := None; Cipher := None; BlockSize := 0; KeyLen := 0 |}.

(** encoding/asn1 and encoding/pem at the two structures the code
    encodes, and the four conversions between [ECIESParams] and their
    ASN.1 form, which the serialization code calls and whose definitions
    are in a file that is not among the sources. *)
Class Codec : Type := {
  asn1_Marshal_public : asnSubjectPublicKeyInfo -> result bytes;
  asn1_Unmarshal_public : bytes -> result asnSubjectPublicKeyInfo;
  asn1_Marshal_private : asnPrivateKey -> result bytes;
  asn1_Unmarshal_private : bytes -> result asnPrivateKey;
  pem_Encode : pem_Block -> result bytes;
  pem_Decode : bytes -> option pem_Block;
  paramsToASNECDH : ECIESParams -> asnECDHAlgorithm;
  paramsToASNECIES : ECIESParams -> asnECIESParameters;
  asnECIEStoParams : asnECIESParameters -> ECIESParams -> ECIESParams;
  asnECDHtoParams : asnECDHAlgorithm -> ECIESParams -> ECIESParams
}.

Section Serialization.

Context {L : CryptoLib} {C : Codec}.

Definition marshalSubjectPublicKeyInfo (pub : PublicKey)
  : result asnSubjectPublicKeyInfo :=
  let '(curve, ok) := oidFromNamedCurve (Curve pub) in
  if negb ok then Err ErrInvalidPublicKey
  else
    let algs :=
      match Params pub with
      | Some params =>
          {| ECDH := paramsToASNECDH params;
             ECIES := paramsToASNECIES params |}
      | None => zero_eccAlgorithmSet
      end in
    pubkey <- elliptic_Marshal (Curve pub) (X pub) (Y pub) ;;
    Ok {| subj_Algorithm := idEcPublicKeySupplemented;
          subj_PublicKey := {| BitLength := len pubkey *i 8;
                               BitString_Bytes := pubkey |};
          Supplements := {| ECDomain := curve; ECCAlgorithms := algs |} |}.

(** Encode a public key to DER format. *)
Definition MarshalPublic (pub : PublicKey) : result bytes :=
  subj <- marshalSubjectPublicKeyInfo pub ;;
  asn1_Marshal_public subj.

(** Decode a DER-encoded public key.  [elliptic.Unmarshal] on the nil
    curve of an unknown OID is a nil dereference. *)
Definition UnmarshalPublic (in_ : bytes) : result PublicKey :=
  subj <- asn1_Unmarshal_public in_ ;;
  if negb (ObjectIdentifier_Equal (subj_Algorithm subj)
             idEcPublicKeySupplemented)
  then Err ErrInvalidPublicKey
  else
    match namedCurveFromOID (ECDomain (Supplements subj)) with
    | None => Panic
    | Some curve =>
        match elliptic_Unmarshal curve
                (BitString_Bytes (subj_PublicKey subj)) with
        | None => Err ErrInvalidPublicKey
        | Some (x, y) =>
            let params := new_ECIESParams in
            let params :=
              asnECIEStoParams (ECIES (ECCAlgorithms (Supplements subj)))
                params in
            let params :=
              asnECDHtoParams (ECDH (ECCAlgorithms (Supplements subj)))
                params in
            match Some params with
            | Some params =>
                Ok {| X := x; Y := y; Curve := curve; Params := Some params |}
            | None =>
                match ParamsFromCurve curve with
                | Some params =>
                    Ok {| X := x; Y := y; Curve := curve;
                          Params := Some params |}
                | None => Err ErrInvalidPublicKey
                end
            end
        end
    end.

Definition marshalPrivateKey (prv : PrivateKey) : result asnPrivateKey :=
  let '(curve, ok) := oidFromNamedCurve (Curve (PrivateKey_PublicKey prv)) in
  if negb ok then Err ErrInvalidPrivateKey
  else
    pub <- MarshalPublic (PrivateKey_PublicKey prv) ;;
    Ok {| Version := asnECPrivKeyVer1;
          Private := Bytes (D prv);
          asnPrivateKey_Curve := curve;
          asnPrivateKey_Public := {| BitLength := len pub *i 8;
                                     BitString_Bytes := pub |} |}.

(** Encode a private key to DER format. *)
Definition MarshalPrivate (prv : PrivateKey) : result bytes :=
  ecprv <- marshalPrivateKey prv ;;
  asn1_Marshal_private ecprv.

(** Decode a private key from a DER-encoded format. *)
Definition UnmarshalPrivate (in_ : bytes) : result PrivateKey :=
  ecprv <- asn1_Unmarshal_private in_ ;;
  if negb (Version ecprv =? asnECPrivKeyVer1) then Err ErrInvalidPrivateKey
  else
    match namedCurveFromOID (asnPrivateKey_Curve ecprv) with
    | None => Err ErrInvalidPrivateKey
    | Some _ =>
        let d := SetBytes (Private ecprv) in
        pub <- UnmarshalPublic (BitString_Bytes (asnPrivateKey_Public ecprv)) ;;
        Ok {| PrivateKey_PublicKey := pub; D := d |}
    end.

(** Export a public key to PEM format. *)
Definition ExportPublicPEM (pub : PublicKey) : result bytes :=
  der <- MarshalPublic pub ;;
  pem_Encode {| pem_Type := "ELLIPTIC CURVE PUBLIC KEY"; pem_Bytes := der |}.

(** Export a private key to PEM format. *)
Definition ExportPrivatePEM (prv : PrivateKey) : result bytes :=
  der <- MarshalPrivate prv ;;
  pem_Encode {| pem_Type := "ELLIPTIC CURVE PRIVATE KEY"; pem_Bytes := der |}.

(** Import a PEM-encoded public key. *)
Definition ImportPublicPEM (in_ : bytes) : result PublicKey :=
  match pem_Decode in_ with
  | None => Err ErrInvalidPublicKey
  | Some p =>
      if negb (String.eqb (pem_Type p) "ELLIPTIC CURVE PUBLIC KEY")
      then Err ErrInvalidPublicKey
      else UnmarshalPublic (pem_Bytes p)
  end.

(** Import a PEM-encoded private key. *)
Definition ImportPrivatePEM (in_ : bytes) : result PrivateKey :=
  match pem_Decode in_ with
  | None => Err ErrInvalidPrivateKey
  | Some p =>
      if negb (String.eqb (pem_Type p) "ELLIPTIC CURVE PRIVATE KEY")
      then Err ErrInvalidPrivateKey
      else UnmarshalPrivate (pem_Bytes p)
  end.

End Serialization.

(** ** The steps of [Decrypt] behind the parse *)

Section AfterParse.

Context {L : CryptoLib}.

(** What [Decrypt] does after parsing a frame made of the uncompressed
    encoding of a point of the curve, a non-empty body and a tag of the
    size of the hash: key agreement, key derivation, tag comparison and
    symmetric decryption of the body. *)
Definition after_parse (kp : KeyProvider) (params : ECIESParams)
    (a : HashAlg) (Rx Ry : Z) (body tag s1 s2 : bytes) : result bytes :=
  z <- KeyProvider_GenerateShared kp
         {| X := Rx; Y := Ry; Curve := Curve (KeyProvider_Public kp);
            Params := None |} ;;
  '(Ke, Km, _) <- derive_keys (New a) params z s1 ;;
  if negb (ConstantTimeCompare tag (hmac_Sum a Km (body ++ s2)) =? 1)
  then Err ErrInvalidMessage
  else symDecrypt params Ke body.


End AfterParse.

(** ** A small instance of the consumed packages

    A cyclic group of prime order 251 stands for each curve: the point
    of scalar [k] has abscissa [k mod 251], and the neutral element is
    reported as a nil abscissa.  Hash, MAC and key stream are arithmetic
    checksums.  The instance serves to run the pipeline on concrete
    inputs. *)

Module Toy.

Definition q : Z := 251.

Definition usable (c : EllipticCurve) : bool :=
  (8 <=? BitSize c) && (BitSize c <? 2 ^ 31).

Definition ordinate (x : Z) : Z := (x * x + 1) mod q.

Definition onCurve (c : EllipticCurve) (x y : Z) : bool :=
  usable c && (0 <? x) && (x <? q) && (y =? ordinate x).

Definition scalarMult (c : EllipticCurve) (x y : Z) (k : bytes)
  : option (Z * Z) :=
  let r := (x * SetBytes k) mod q in
  if r =? 0 then None else Some (r, ordinate r).

Definition scalarBaseMult (c : EllipticCurve) (k : bytes) : Z * Z :=
  let r := SetBytes k mod q in (r, ordinate r).

Definition order (c : EllipticCurve) : Z := if usable c then q else 1.

Definition generateKey (c : EllipticCurve) (rand : Reader)
  : result (bytes * Z * Z * Reader) :=
  if negb (usable c) then Err (ExternalError 0)
  else
    match rand with
    | [] => Err io_EOF
    | b :: rand' =>
        let d := b mod (q - 1) + 1 in
        Ok ([d], d, ordinate d, rand')
    end.

Definition byteLen (c : EllipticCurve) : nat :=
  Z.to_nat ((BitSize c + 7) / 8).

Definition marshal (c : EllipticCurve) (x y : Z) : result bytes :=
  if onCurve c x y
  then Ok (4 :: be_digits (byteLen c) x ++ be_digits (byteLen c) y)
  else Panic.

Definition unmarshal (c : EllipticCurve) (data : bytes) : option (Z * Z) :=
  match data with
  | 4 :: rest =>
      if negb (Nat.eqb (List.length rest) (2 * byteLen c)) then None
      else
        let x := SetBytes (firstn (byteLen c) rest) in
        let y := SetBytes (skipn (byteLen c) rest) in
        if onCurve c x y then Some (x, y) else None
  | _ => None
  end.

Definition checksum (salt : Z) (data : bytes) : Z :=
  fold_left (fun acc b => (acc * 31 + b + 7) mod 256) data salt.

Definition digest_n (n : nat) (data : bytes) : bytes :=
  map (fun i => checksum (Z.of_nat i) data) (seq 0 n).

Definition hmac (a : HashAlg) (key data : bytes) : bytes :=
  digest a (digest a key ++ data).

Definition keystream (b : Block) (iv : bytes) (n : nat) : bytes :=
  map (fun i => hd 0 (Block_Encrypt b (Z.of_nat i :: iv))) (seq 0 n).

Definition newCipher (key : bytes) : result Block :=
  if (len key =? 16) || (len key =? 24) || (len key =? 32)
  then Ok {| Block_BlockSize := 16;
             Block_Encrypt := fun b => [checksum 1 (key ++ b)] |}
  else Err (ExternalError (len key)).

(** No product of two non-zero residues is zero: 251 is prime. *)
Definition residues : list Z := map Z.of_nat (seq 1 250).
Definition no_zero_product : bool :=
  forallb (fun i => forallb (fun j => negb ((i * j) mod q =? 0)) residues)
    residues.

#[export] Instance lib : CryptoLib := {|
  ScalarMult := scalarMult;
  ScalarBaseMult := scalarBaseMult;
  IsOnCurve := onCurve;
  Order := order;
  elliptic_GenerateKey := generateKey;
  elliptic_Marshal := marshal;
  elliptic_Unmarshal := unmarshal;
  hmac_Sum := hmac;
  ctr_keystream := keystream;
  sha256_digest := digest_n 32;
  sha384_digest := digest_n 48;
  sha512_digest := digest_n 64;
  aes_NewCipher := newCipher
|}.

(** A P-256 key pair of the instance, with the default parameters. *)
Definition prv : PrivateKey :=
  {| PrivateKey_PublicKey :=
       {| X := 5; Y := ordinate 5; Curve := P256; Params := None |};
     D := 5 |}.

(** A P-224 key pair: the curve has no default parameters. *)
Definition prv224 : PrivateKey :=
  {| PrivateKey_PublicKey :=
       {| X := 5; Y := ordinate 5; Curve := P224; Params := None |};
     D := 5 |}.

(** Randomness: one byte for the ephemeral scalar, sixteen for the IV. *)
Definition rand : Reader :=
  [9; 1; 2; 3; 4; 5; 6; 7; 8; 9; 10; 11; 12; 13; 14; 15; 16].

Definition hello : bytes := [104; 101; 108; 108; 111].

(** The frame [Encrypt] returns for [hello]. *)
Definition ciphertext : bytes :=
  match Encrypt rand (Public prv) hello [] [] with
  | Ok ct => ct
  | _ => []
  end.


(** The ephemeral key pair of scalar 10. *)
Definition ephemeral : PrivateKey :=
  {| PrivateKey_PublicKey :=
       {| X := 10; Y := ordinate 10; Curve := P256; Params := None |};
     D := 10 |}.

(** The default parameters of P-256. *)
Definition default256 : ECIESParams :=
  {| Hash := Some sha256_New; Cipher := Some aes_NewCipher;
     BlockSize := 16; KeyLen := 16 |}.

(** A frame built from the public key of [prv] alone: the ephemeral
    point, a body of the single byte 0, and the tag of that body under
    the key derived from the shared secret. *)
Definition short_point : bytes :=
  match elliptic_Marshal P256 10 (ordinate 10) with
  | Ok b => b
  | _ => []
  end.

Definition short_secret : bytes :=
  match GenerateShared ephemeral (Public prv) with
  | Ok z => z
  | _ => []
  end.

Definition short_keys : list Z * list Z * hash_Hash :=
  match derive_keys (New sha256_New) default256 short_secret [] with
  | Ok k => k
  | _ => ([], [], New sha256_New)
  end.

Definition short_block : Block :=
  match aes_NewCipher (fst (fst short_keys)) with
  | Ok b => b
  | _ => {| Block_BlockSize := 0; Block_Encrypt := fun b => b |}
  end.

Definition short_frame : bytes :=
  short_point ++ [0]
  ++ hmac_Sum sha256_New (snd (fst short_keys)) ([0] ++ []).

End Toy.

(** ** Contracts of the consumed packages *)

Section Contracts.

Context {L : CryptoLib}.

(** The scalars [elliptic.GenerateKey] draws: [1 <= d < N]. *)
Definition valid_scalar (c : EllipticCurve) (d : Z) : Prop :=
  1 <= d < Order c.

(** The invariant of a key pair: [D] is a valid scalar and the public
    point is [D] times the base point. *)
Definition valid_key (prv : PrivateKey) : Prop :=
  valid_scalar (Curve (Public prv)) (D prv)
  /\ ScalarBaseMult (Curve (Public prv)) (Bytes (D prv))
     = (X (Public prv), Y (Public prv)).

(** [Sum] returns [Size()] bytes. *)
Definition hash_ok (a : HashAlg) : Prop :=
  forall data, len (digest a data) = Size a.

(** A slice held in memory: far below the range of [int]. *)
Definition fits_memory (s : bytes) : Prop := len s < 2 ^ 48.

(** Parameters whose hash keeps the [hash.Hash] contract, with sizes
    far below the range of [int]. *)
Definition params_ok (p : ECIESParams) : Prop :=
  (exists a, Hash p = Some a /\ hash_ok a /\ 0 <= Size a < 2 ^ 31)
  /\ BlockSize p < 2 ^ 31.

Class CryptoLibOK : Prop := {
  (** ECDH: both parties reach the same point, which is on the curve. *)
  ecdh_agree : forall c d1 d2 x1 y1 x2 y2,
    valid_scalar c d1 -> valid_scalar c d2 ->
    ScalarBaseMult c (Bytes d1) = (x1, y1) ->
    ScalarBaseMult c (Bytes d2) = (x2, y2) ->
    exists x y,
      ScalarMult c x1 y1 (Bytes d2) = Some (x, y)
      /\ ScalarMult c x2 y2 (Bytes d1) = Some (x, y)
      /\ IsOnCurve c x y = true;
  base_on_curve : forall c d x y,
    valid_scalar c d -> ScalarBaseMult c (Bytes d) = (x, y) ->
    IsOnCurve c x y = true;
  (** Coordinates are field elements of [BitSize] bits. *)
  on_curve_range : forall c x y,
    IsOnCurve c x y = true ->
    0 <= x < 2 ^ BitSize c /\ 0 <= y < 2 ^ BitSize c
    /\ 0 < BitSize c < 2 ^ 31;
  generate_key_ok : forall c rand pb x y rand',
    elliptic_GenerateKey c rand = Ok (pb, x, y, rand') ->
    valid_scalar c (SetBytes pb)
    /\ ScalarBaseMult c (Bytes (SetBytes pb)) = (x, y);
  (** The uncompressed SEC 1 form, and its inverse. *)
  marshal_ok : forall c x y,
    IsOnCurve c x y = true ->
    exists b,
      elliptic_Marshal c x y = Ok b
      /\ len b = 1 + 2 * ((BitSize c + 7) / 8)
      /\ hd 0 b = 4
      /\ elliptic_Unmarshal c b = Some (x, y);
  hmac_size : forall a key data,
    hash_ok a -> len (hmac_Sum a key data) = Size a;
  keystream_length : forall b iv n, length (ctr_keystream b iv n) = n;
  sha256_size : hash_ok sha256_New;
  sha384_size : hash_ok sha512_New384;
  sha512_size : hash_ok sha512_New;
  aes_key_sizes : forall key,
    len key = 16 \/ len key = 24 \/ len key = 32 ->
    exists b, aes_NewCipher key = Ok b /\ Block_BlockSize b = 16
}.

End Contracts.

Arguments CryptoLibOK L : clear implicits.

Section CodecContracts.

Context {L : CryptoLib} {C : Codec}.

Class CodecOK : Prop := {
  (** DER decoding inverts DER encoding on the fields the code reads. *)
  asn1_public_roundtrip : forall subj der,
    asn1_Marshal_public subj = Ok der ->
    exists subj',
      asn1_Unmarshal_public der = Ok subj'
      /\ subj_Algorithm subj' = subj_Algorithm subj
      /\ BitString_Bytes (subj_PublicKey subj')
         = BitString_Bytes (subj_PublicKey subj)
      /\ ECDomain (Supplements subj') = ECDomain (Supplements subj);
  asn1_private_roundtrip : forall ecprv der,
    asn1_Marshal_private ecprv = Ok der ->
    asn1_Unmarshal_private der = Ok ecprv;
  (** Every structure the marshalling code builds has a DER encoding. *)
  asn1_public_total : forall pub subj,
    marshalSubjectPublicKeyInfo pub = Ok subj ->
    exists der, asn1_Marshal_public subj = Ok der;
  asn1_private_total : forall prv ecprv,
    marshalPrivateKey prv = Ok ecprv ->
    exists der, asn1_Marshal_private ecprv = Ok der;
  (** PEM decoding inverts PEM encoding for the two block types used. *)
  pem_roundtrip : forall ty der,
    ty = "ELLIPTIC CURVE PUBLIC KEY"%string
    \/ ty = "ELLIPTIC CURVE PRIVATE KEY"%string ->
    exists out,
      pem_Encode {| pem_Type := ty; pem_Bytes := der |} = Ok out
      /\ pem_Decode out = Some {| pem_Type := ty; pem_Bytes := der |}
}.

End CodecContracts.

Arguments CodecOK L C : clear implicits.

(** ** A small instance of the codecs

    A framing that knows only the structures the code builds: a curve
    index, a unary length for the private scalar, a block-type index. *)

Module ToyCodec.

Definition curve_index (oid : secgNamedCurve) : option Z :=
  match namedCurveFromOID oid with
  | Some P224 => Some 0
  | Some P256 => Some 1
  | Some P384 => Some 2
  | Some P521 => Some 3
  | _ => None
  end.

Definition curve_of_index (i : Z) : option secgNamedCurve :=
  if i =? 0 then Some secgNamedCurveP224
  else if i =? 1 then Some secgNamedCurveP256
  else if i =? 2 then Some secgNamedCurveP384
  else if i =? 3 then Some secgNamedCurveP521
  else None.

Definition oid_eq_dec : forall a b : list Z, {a = b} + {a <> b} :=
  list_eq_dec Z.eq_dec.

Definition marshal_public (subj : asnSubjectPublicKeyInfo) : result bytes :=
  if oid_eq_dec (subj_Algorithm subj) idEcPublicKeySupplemented then
    match curve_index (ECDomain (Supplements subj)) with
    | Some i =>
        match curve_of_index i with
        | Some oid =>
            if oid_eq_dec oid (ECDomain (Supplements subj))
            then Ok (i :: BitString_Bytes (subj_PublicKey subj))
            else Err (ExternalError 1)
        | None => Err (ExternalError 1)
        end
    | None => Err (ExternalError 1)
    end
  else Err (ExternalError 1).

Definition unmarshal_public (der : bytes) : result asnSubjectPublicKeyInfo :=
  match der with
  | i :: rest =>
      match curve_of_index i with
      | Some oid =>
          Ok {| subj_Algorithm := idEcPublicKeySupplemented;
                subj_PublicKey := {| BitString_Bytes := rest;
                                     BitLength := len rest * 8 |};
                Supplements := {| ECDomain := oid;
                                  ECCAlgorithms := zero_eccAlgorithmSet |} |}
      | None => Err (ExternalError 2)
      end
  | [] => Err (ExternalError 2)
  end.

(** Splits [repeat 1 n ++ 0 :: rest] into [n] and [rest]. *)
Fixpoint read_unary (s : bytes) : option (nat * bytes) :=
  match s with
  | [] => None
  | b :: s' =>
      if b =? 0 then Some (O, s')
      else match read_unary s' with
           | Some (n, rest) => Some (S n, rest)
           | None => None
           end
  end.

Definition marshal_private (k : asnPrivateKey) : result bytes :=
  Ok (Version k :: BitLength (asnPrivateKey_Public k)
      :: len (asnPrivateKey_Curve k)
      :: asnPrivateKey_Curve k
      ++ repeat 1 (List.length (Private k))
      ++ 0 :: Private k
      ++ BitString_Bytes (asnPrivateKey_Public k)).

Definition unmarshal_private (der : bytes) : result asnPrivateKey :=
  match der with
  | v :: bl :: n :: rest =>
      let oid := firstn (Z.to_nat n) rest in
      match read_unary (skipn (Z.to_nat n) rest) with
      | Some (k, rest') =>
          Ok {| Version := v;
                Private := firstn k rest';
                asnPrivateKey_Curve := oid;
                asnPrivateKey_Public :=
                  {| BitString_Bytes := skipn k rest'; BitLength := bl |} |}
      | None => Err (ExternalError 3)
      end
  | _ => Err (ExternalError 3)
  end.

Definition encode_pem (blk : pem_Block) : result bytes :=
  if String.eqb (pem_Type blk) "ELLIPTIC CURVE PUBLIC KEY"
  then Ok (0 :: pem_Bytes blk)
  else if String.eqb (pem_Type blk) "ELLIPTIC CURVE PRIVATE KEY"
  then Ok (1 :: pem_Bytes blk)
  else Err (ExternalError 4).

Definition decode_pem (data : bytes) : option pem_Block :=
  match data with
  | t :: rest =>
      if t =? 0
      then Some {| pem_Type := "ELLIPTIC CURVE PUBLIC KEY";
                   pem_Bytes := rest |}
      else if t =? 1
      then Some {| pem_Type := "ELLIPTIC CURVE PRIVATE KEY";
                   pem_Bytes := rest |}
      else None
  | [] => None
  end.

#[export] Instance codec : Codec := {|
  asn1_Marshal_public := marshal_public;
  asn1_Unmarshal_public := unmarshal_public;
  asn1_Marshal_private := marshal_private;
  asn1_Unmarshal_private := unmarshal_private;
  pem_Encode := encode_pem;
  pem_Decode := decode_pem;
  paramsToASNECDH := fun _ => zero_AlgorithmIdentifier;
  paramsToASNECIES := fun _ => ECIES zero_eccAlgorithmSet;
  asnECIEStoParams := fun _ p => p;
  asnECDHtoParams := fun _ p => p
|}.

End ToyCodec.

(** ** crypto/ecdsa keys and the converters *)

(** [ecdsa.PublicKey] *)
Record ecdsa_PublicKey : Type := {
  ecdsa_Curve : EllipticCurve;
  ecdsa_X : Z;
  ecdsa_Y : Z
}.

(** [ecdsa.PrivateKey] *)
Record ecdsa_PrivateKey : Type := {
  ecdsa_PrivateKey_PublicKey : ecdsa_PublicKey;
  ecdsa_D : Z
}.

Section Converters.

Context {L : CryptoLib}.

(** Export an ECIES public key as an ECDSA public key. *)
Definition PublicKey_ExportECDSA (pub : PublicKey) : ecdsa_PublicKey :=
  {| ecdsa_Curve := Curve pub; ecdsa_X := X pub; ecdsa_Y := Y pub |}.

(** Import an ECDSA public key as an ECIES public key. *)
Definition ImportECDSAPublic (pub : ecdsa_PublicKey) : PublicKey :=
  {| X := ecdsa_X pub;
     Y := ecdsa_Y pub;
     Curve := ecdsa_Curve pub;
     Params := ParamsFromCurve (ecdsa_Curve pub) |}.

(** Export an ECIES private key as an ECDSA private key. *)
Definition PrivateKey_ExportECDSA (prv : PrivateKey) : ecdsa_PrivateKey :=
  let pub := PrivateKey_PublicKey prv in
  let pubECDSA := PublicKey_ExportECDSA pub in
  {| ecdsa_PrivateKey_PublicKey := pubECDSA; ecdsa_D := D prv |}.

(** Import an ECDSA private key as an ECIES private key. *)
Definition ImportECDSA (prv : ecdsa_PrivateKey) : PrivateKey :=
  let pub := ImportECDSAPublic (ecdsa_PrivateKey_PublicKey prv) in
  {| PrivateKey_PublicKey := pub; D := ecdsa_D prv |}.

End Converters.

(** ** The digests the KDF concatenates *)

(** The digests of [counter || z || s1] for the [n] counter values from
    [c] on, each counter on four bytes, big-endian. *)
Definition kdf_blocks (a : HashAlg) (z s1 : bytes) (c : Z) (n : nat) : bytes :=
  concat (map (fun i => digest a (be_digits 4 (c + Z.of_nat i) ++ z ++ s1))
              (seq 0 n)).

(** The first point byte decides where the body starts. *)
Definition body_start (c0 : byte) (curve : EllipticCurve) : Z :=
  if (c0 =? 2) || (c0 =? 3)
  then 1 + (BitSize curve + 7) / 8
  else 1 + 2 * ((BitSize curve + 7) / 8).

(** ** More data of the small instance *)

Module ToyData.

(** A key provider whose key agreement fails, as a device may. *)
Definition failing_provider : KeyProvider :=
  {| KeyProvider_Public := Public Toy.prv;
     KeyProvider_GenerateShared := fun _ => Err ErrSharedKeyTooBig |}.

(** A key pair on a curve without a registered OID. *)
Definition unnamed : PrivateKey :=
  {| PrivateKey_PublicKey :=
       {| X := 5; Y := Toy.ordinate 5; Curve := OtherCurve 64;
          Params := None |};
     D := 5 |}.

(** A P-384 public key. *)
Definition pub384 : PublicKey :=
  {| X := 7; Y := Toy.ordinate 7; Curve := P384; Params := None |}.

(** The ECDSA form of the P-256 key pair. *)
Definition ecdsa_prv : ecdsa_PrivateKey :=
  {| ecdsa_PrivateKey_PublicKey :=
       {| ecdsa_Curve := P256; ecdsa_X := 5; ecdsa_Y := Toy.ordinate 5 |};
     ecdsa_D := 5 |}.

(** A subject public key info under another algorithm identifier. *)
Definition foreign_subj : asnSubjectPublicKeyInfo :=
  {| subj_Algorithm := [1; 2; 840; 10045; 2; 1];
     subj_PublicKey := {| BitString_Bytes := []; BitLength := 0 |};
     Supplements := {| ECDomain := secgNamedCurveP256;
                       ECCAlgorithms := zero_eccAlgorithmSet |} |}.

(** A codec whose DER decoder returns [foreign_subj]. *)
Definition foreign_codec : Codec :=
  {| asn1_Marshal_public := ToyCodec.marshal_public;
     asn1_Unmarshal_public := fun _ => Ok foreign_subj;
     asn1_Marshal_private := ToyCodec.marshal_private;
     asn1_Unmarshal_private := ToyCodec.unmarshal_private;
     pem_Encode := ToyCodec.encode_pem;
     pem_Decode := ToyCodec.decode_pem;
     paramsToASNECDH := fun _ => zero_AlgorithmIdentifier;
     paramsToASNECIES := fun _ => ECIES zero_eccAlgorithmSet;
     asnECIEStoParams := fun _ p => p;
     asnECDHtoParams := fun _ p => p |}.

(** A ciphertext of the symmetric layer alone. *)
Definition sym_key : bytes := repeat 1 16.
Definition sym_rand : Reader := tl Toy.rand.
Definition sym_frame : bytes :=
  match symEncrypt (L := Toy.lib) sym_rand Toy.default256 sym_key Toy.hello with
  | Ok em => em
  | _ => []
  end.

(** The ephemeral key pair [GenerateKey] draws from [Toy.rand]. *)
Definition generated : PrivateKey :=
  {| PrivateKey_PublicKey :=
       {| X := 10; Y := Toy.ordinate 10; Curve := P256;
          Params := Some Toy.default256 |};
     D := 10 |}.

(** The frame for [hello] behind its leading byte, and the same with a
    byte of the abscissa altered. *)
Definition frame_rest : bytes := tl Toy.ciphertext.
Definition bad_point_rest : bytes := tl (set_byte Toy.ciphertext 32 99).

(** DER and PEM forms of the P-256 key pair under the small codec. *)
Definition der_pub : bytes :=
  match MarshalPublic (L := Toy.lib) (C := ToyCodec.codec) (Public Toy.prv) with
  | Ok d => d
  | _ => []
  end.
Definition pub_back : PublicKey :=
  match UnmarshalPublic (L := Toy.lib) (C := ToyCodec.codec) der_pub with
  | Ok p => p
  | _ => Public Toy.prv
  end.
Definition pem_pub : bytes :=
  match ExportPublicPEM (L := Toy.lib) (C := ToyCodec.codec) (Public Toy.prv) with
  | Ok d => d
  | _ => []
  end.
Definition pem_prv : bytes :=
  match ExportPrivatePEM (L := Toy.lib) (C := ToyCodec.codec) Toy.prv with
  | Ok d => d
  | _ => []
  end.

(** A private-key structure of version 2. *)
Definition version2 : asnPrivateKey :=
  {| Version := 2; Private := []; asnPrivateKey_Curve := [];
     asnPrivateKey_Public := {| BitString_Bytes := []; BitLength := 0 |} |}.

End ToyData.

(** * Properties *)

(** ** Integers and results *)

Lemma wrap_small (z : Z) : GoInt.in_range z -> GoInt.wrap z = z.
Proof.
  unfold GoInt.in_range, GoInt.min_int, GoInt.max_int, GoInt.wrap.
  intros Hz. rewrite Z.mod_small; lia.
Qed.

Lemma add_small (a b : Z) : GoInt.in_range (a + b) -> a +i b = a + b.
Proof. apply wrap_small. Qed.

Lemma sub_small (a b : Z) : GoInt.in_range (a - b) -> a -i b = a - b.
Proof. apply wrap_small. Qed.

Lemma mul_small (a b : Z) : GoInt.in_range (a * b) -> a *i b = a * b.
Proof. apply wrap_small. Qed.

Lemma quot_small (a b : Z) :
  0 <= a -> 0 < b -> a <= GoInt.max_int -> GoInt.quot a b = a / b.
Proof.
  intros Ha Hb Hmax. unfold GoInt.quot.
  rewrite Z.quot_div_nonneg by lia.
  apply wrap_small. unfold GoInt.in_range, GoInt.min_int, GoInt.max_int in *.
  assert (0 <= a / b) by (apply Z.div_pos; lia).
  assert (a / b <= a) by (apply Z.div_le_upper_bound; nia).
  lia.
Qed.

Lemma in_range_intro (z : Z) : - 2 ^ 63 <= z < 2 ^ 63 -> GoInt.in_range z.
Proof. unfold GoInt.in_range, GoInt.min_int, GoInt.max_int. lia. Qed.

Lemma bind_Ok {A B : Type} (r : result A) (k : A -> result B) (b : B) :
  bind r k = Ok b -> exists a, r = Ok a /\ k a = Ok b.
Proof. destruct r as [a | e | ]; simpl; intros H; try discriminate; eauto. Qed.

Lemma len_app {A : Type} (a b : list A) : len (a ++ b) = len a + len b.
Proof. unfold len. rewrite length_app. lia. Qed.

Lemma len_nonneg {A : Type} (a : list A) : 0 <= len a.
Proof. unfold len. lia. Qed.

Lemma len_cons {A : Type} (x : A) (a : list A) : len (x :: a) = 1 + len a.
Proof. unfold len. simpl length. lia. Qed.

Lemma len_nil_iff {A : Type} (a : list A) : len a = 0 <-> a = [].
Proof.
  unfold len. destruct a; simpl; split; intros H; try reflexivity;
    try discriminate; lia.
Qed.

(** ** Slices *)

Lemma make_Ok (n : Z) :
  0 <= n -> make n = Ok (repeat 0 (Z.to_nat n)).
Proof.
  intros Hn. unfold make. destruct (Z.ltb_spec n 0); [lia | reflexivity].
Qed.

Lemma make_inv (n : Z) (s : bytes) :
  make n = Ok s -> 0 <= n /\ s = repeat 0 (Z.to_nat n) /\ len s = n.
Proof.
  unfold make. destruct (Z.ltb_spec n 0) as [Hlt | Hge]; intros Hm;
    inversion Hm; subst.
  repeat split; try lia. unfold len. rewrite repeat_length. lia.
Qed.

Lemma slice_to_app (a b : bytes) : slice_to (a ++ b) (len a) = Ok a.
Proof.
  unfold slice_to. pose proof (len_nonneg a). rewrite len_app.
  pose proof (len_nonneg b).
  destruct (Z.ltb_spec (len a) 0); [lia |].
  destruct (Z.ltb_spec (len a + len b) (len a)); [lia |]. simpl.
  unfold len. rewrite Nat2Z.id, firstn_app, firstn_all, Nat.sub_diag.
  simpl. now rewrite app_nil_r.
Qed.

Lemma slice_from_app (a b : bytes) : slice_from (a ++ b) (len a) = Ok b.
Proof.
  unfold slice_from. pose proof (len_nonneg a). rewrite len_app.
  pose proof (len_nonneg b).
  destruct (Z.ltb_spec (len a) 0); [lia |].
  destruct (Z.ltb_spec (len a + len b) (len a)); [lia |]. simpl.
  unfold len. rewrite Nat2Z.id, skipn_app, skipn_all, Nat.sub_diag.
  reflexivity.
Qed.

Lemma slice_app3 (a b c : bytes) :
  slice (a ++ b ++ c) (len a) (len a + len b) = Ok b.
Proof.
  unfold slice. pose proof (len_nonneg a). pose proof (len_nonneg b).
  pose proof (len_nonneg c). rewrite !len_app.
  destruct (Z.ltb_spec (len a) 0); [lia |].
  destruct (Z.ltb_spec (len a + len b) (len a)); [lia |].
  destruct (Z.ltb_spec (len a + (len b + len c)) (len a + len b)); [lia |].
  simpl. replace (len a + len b - len a) with (len b) by lia.
  unfold len. rewrite !Nat2Z.id, skipn_app, skipn_all, Nat.sub_diag. simpl.
  rewrite firstn_app, firstn_all, Nat.sub_diag. simpl. now rewrite app_nil_r.
Qed.

Lemma slice_to_short (s : bytes) (hi : Z) : len s < hi -> slice_to s hi = Panic.
Proof.
  intros H. unfold slice_to.
  destruct (Z.ltb_spec (len s) hi); [| lia]. now rewrite orb_true_r.
Qed.

(** Writing [src] behind a prefix of length [off] replaces what was there. *)
Lemma copy_at_app (pre old src : bytes) :
  (length src <= length old)%nat ->
  copy_at (pre ++ old) (length pre) src
  = pre ++ src ++ skipn (length src) old.
Proof.
  intros Hle. unfold copy_at.
  rewrite firstn_app, firstn_all, Nat.sub_diag. simpl. rewrite app_nil_r.
  rewrite length_app.
  replace (length pre + length old - length pre)%nat with (length old) by lia.
  rewrite firstn_all2 by exact Hle.
  rewrite skipn_app.
  rewrite skipn_all2 by lia.
  replace (length pre + length src - length pre)%nat with (length src) by lia.
  reflexivity.
Qed.

Lemma copy_at_0 (old src : bytes) :
  (length src <= length old)%nat ->
  copy_at old 0 src = src ++ skipn (length src) old.
Proof. intros Hle. apply (copy_at_app [] old src Hle). Qed.

Lemma skipn_repeat (n k : nat) (x : Z) :
  skipn k (repeat x n) = repeat x (n - k).
Proof.
  revert k. induction n as [| n IH]; intros [| k]; simpl; try reflexivity.
  apply IH.
Qed.

(** The three copies that assemble a frame. *)
Lemma copy_frame (a b c : bytes) :
  copy_at
    (copy_at (copy_at (repeat 0 (length a + length b + length c)) 0 a)
       (length a) b)
    (length a + length b) c
  = a ++ b ++ c.
Proof.
  rewrite copy_at_0 by (rewrite repeat_length; lia).
  rewrite skipn_repeat.
  rewrite copy_at_app by (rewrite repeat_length; lia).
  rewrite skipn_repeat.
  rewrite app_assoc. rewrite <- (length_app a b).
  rewrite copy_at_app by (rewrite repeat_length, length_app; lia).
  rewrite skipn_repeat, length_app.
  replace (length a + length b + length c - length a - length b - length c)%nat
    with O by lia.
  simpl. now rewrite app_nil_r, <- app_assoc.
Qed.

(** ** Big-endian conversions *)

Lemma SetBytes_snoc (b : bytes) (x : Z) :
  SetBytes (b ++ [x]) = SetBytes b * 256 + x.
Proof. unfold SetBytes. now rewrite fold_left_app. Qed.

Lemma be_digits_length (n : nat) (x : Z) : length (be_digits n x) = n.
Proof.
  revert x. induction n as [| n IH]; intros x; simpl; [reflexivity |].
  rewrite length_app, IH. simpl. lia.
Qed.

Lemma SetBytes_be_digits (n : nat) (x : Z) :
  0 <= x < 256 ^ Z.of_nat n -> SetBytes (be_digits n x) = x.
Proof.
  revert x. induction n as [| n IH]; intros x Hx.
  - simpl in *. unfold SetBytes. simpl. lia.
  - simpl be_digits. rewrite SetBytes_snoc, IH.
    + pose proof (Z.div_mod x 256). lia.
    + rewrite Nat2Z.inj_succ, Z.pow_succ_r in Hx by lia.
      split; [apply Z.div_pos; lia |].
      apply Z.div_lt_upper_bound; lia.
Qed.

Lemma byte_length_bound (x : Z) :
  0 <= x -> x < 256 ^ Z.of_nat (byte_length x).
Proof.
  intros Hx. unfold byte_length. destruct (Z.eqb_spec x 0) as [-> | Hne].
  - simpl. lia.
  - assert (Hpos : 0 < x) by lia.
    pose proof (Z.log2_spec x Hpos) as [_ Hup].
    pose proof (Z.log2_nonneg x) as Hlog.
    assert (Hq : 0 <= Z.log2 x / 8) by (apply Z.div_pos; lia).
    rewrite Z2Nat.id by lia.
    replace 256 with (2 ^ 8) by reflexivity.
    rewrite <- Z.pow_mul_r by lia.
    eapply Z.lt_le_trans; [exact Hup |].
    apply Z.pow_le_mono_r; [lia |].
    pose proof (Z.div_mod (Z.log2 x) 8).
    pose proof (Z.mod_pos_bound (Z.log2 x) 8). lia.
Qed.

(** [SetBytes] inverts [Bytes] on non-negative integers. *)
Lemma SetBytes_Bytes (x : Z) : 0 <= x -> SetBytes (Bytes x) = x.
Proof.
  intros Hx. unfold Bytes. rewrite Z.abs_eq by exact Hx.
  apply SetBytes_be_digits. split; [exact Hx | now apply byte_length_bound].
Qed.

Lemma FillBytes_Ok (x : Z) (buf : bytes) :
  0 <= x < 256 ^ len buf ->
  FillBytes x buf = Ok (be_digits (length buf) x).
Proof.
  intros Hx. unfold FillBytes. rewrite Z.abs_eq by lia.
  destruct (Z.leb_spec (256 ^ len buf) x); [lia | reflexivity].
Qed.

(** ** XOR and comparison *)

Lemma xor_bytes_length (a b : bytes) :
  length a = length b -> length (xor_bytes a b) = length a.
Proof.
  intros H. unfold xor_bytes. rewrite length_map, length_combine. lia.
Qed.

Lemma xor_bytes_involutive (a k : bytes) :
  length a = length k -> xor_bytes (xor_bytes a k) k = a.
Proof.
  unfold xor_bytes.
  revert k. induction a as [| x a IH]; intros [| y k] H; simpl in *;
    try reflexivity; try discriminate.
  injection H as H. f_equal.
  - rewrite Z.lxor_assoc, Z.lxor_nilpotent. apply Z.lxor_0_r.
  - apply IH, H.
Qed.

Lemma fold_lor_zero (ps : list (Z * Z)) (v : Z) :
  fold_left (fun v p => Z.lor v (Z.lxor (fst p) (snd p))) ps v = 0 ->
  v = 0 /\ Forall (fun p => fst p = snd p) ps.
Proof.
  revert v. induction ps as [| p ps IH]; intros v H; simpl in *.
  - split; [exact H | constructor].
  - apply IH in H. destruct H as [H0 HF].
    apply Z.lor_eq_0_iff in H0. destruct H0 as [Hv Hx].
    split; [exact Hv |]. constructor; [| exact HF].
    now apply Z.lxor_eq.
Qed.

Lemma fold_lor_refl (x : bytes) :
  fold_left (fun v p => Z.lor v (Z.lxor (fst p) (snd p))) (combine x x) 0 = 0.
Proof.
  induction x as [| b x IH]; simpl; [reflexivity |].
  now rewrite Z.lxor_nilpotent.
Qed.

Lemma combine_diag (x y : bytes) :
  length x = length y ->
  Forall (fun p : Z * Z => fst p = snd p) (combine x y) -> x = y.
Proof.
  revert y. induction x as [| a x IH]; intros [| b y] Hl HF; simpl in *;
    try reflexivity; try discriminate.
  inversion HF; subst. simpl in *. f_equal; auto.
Qed.

(** The comparison returns 1 exactly on equal slices. *)
Lemma ConstantTimeCompare_1 (x y : bytes) :
  ConstantTimeCompare x y = 1 <-> x = y.
Proof.
  unfold ConstantTimeCompare. split.
  - destruct (Z.eqb_spec (len x) (len y)) as [Hl | Hl]; [| discriminate].
    match goal with |- context [?v =? 0] => destruct (Z.eqb_spec v 0) as [Hv | Hv] end;
      [| discriminate].
    intros _. apply fold_lor_zero in Hv. destruct Hv as [_ HF].
    apply combine_diag; [unfold len in Hl; lia | exact HF].
  - intros ->. rewrite Z.eqb_refl, fold_lor_refl. reflexivity.
Qed.

Lemma ConstantTimeCompare_refl (x : bytes) :
  (ConstantTimeCompare x x =? 1) = true.
Proof. apply Z.eqb_eq. now apply ConstantTimeCompare_1. Qed.


(** ** The KDF *)

Section KDF.

Context {L : CryptoLib}.

Lemma incCounter_Ok (c0 c1 c2 c3 : byte) :
  exists d0 d1 d2 d3, incCounter [c0; c1; c2; c3] = Ok [d0; d1; d2; d3].
Proof.
  unfold incCounter.
  destruct (negb (inc_byte c3 =? 0)); [eauto |].
  destruct (negb (inc_byte c2 =? 0)); [eauto |].
  destruct (negb (inc_byte c1 =? 0)); eauto.
Qed.

(** Each turn of the loop appends one digest and leaves the hash reset. *)
Lemma concatKDF_loop_Ok (n : nat) (z s1 : bytes) :
  forall (hash : hash_Hash) (c0 c1 c2 c3 : byte) (k : bytes),
    hash_ok (alg hash) ->
    exists k' hash',
      concatKDF_loop n hash [c0; c1; c2; c3] k z s1 = Ok (k', hash')
      /\ len k' = len k + Z.of_nat n * Size (alg hash)
      /\ alg hash' = alg hash
      /\ (n <> O -> hash' = New (alg hash)).
Proof.
  induction n as [| n IH]; intros hash c0 c1 c2 c3 k Hok.
  - exists k, hash. simpl. repeat split; lia.
  - cbn [concatKDF_loop].
    destruct (incCounter_Ok c0 c1 c2 c3) as (d0 & d1 & d2 & d3 & ->).
    simpl bind.
    set (hash1 := Reset _). set (k1 := k ++ _).
    destruct (IH hash1 d0 d1 d2 d3 k1 Hok)
      as (k' & hash' & E & Hlen & Halg & Hw).
    rewrite E. exists k', hash'. repeat split.
    + rewrite Hlen. subst k1. rewrite len_app. unfold Sum. simpl app.
      simpl alg. rewrite (Hok _). subst hash1. simpl alg. lia.
    + exact Halg.
    + intros _. destruct n as [| n'].
      * simpl in E. inversion E. reflexivity.
      * apply Hw. discriminate.
Qed.

(** The number of repetitions for sizes far below the range of [int]. *)
Lemma reps_small (bs kdLen : Z) :
  0 < bs < 2 ^ 31 -> 0 <= kdLen < 2 ^ 31 ->
  GoInt.quot ((kdLen +i 7) *i 8) (bs *i 8) = (kdLen + 7) / bs
  /\ (bs *i 8 =? 0) = false.
Proof.
  intros Hbs Hk.
  rewrite (add_small kdLen 7) by (apply in_range_intro; lia).
  rewrite (mul_small (kdLen + 7) 8) by (apply in_range_intro; lia).
  rewrite (mul_small bs 8) by (apply in_range_intro; lia).
  split.
  - rewrite quot_small by (unfold GoInt.max_int; lia).
    apply Z.div_mul_cancel_r; lia.
  - apply Z.eqb_neq. lia.
Qed.

(** When the digests cover [kdLen], the KDF returns [kdLen] bytes. *)
Lemma concatKDF_Ok (hash : hash_Hash) (z s1 : bytes) (kdLen : Z) :
  hash_ok (alg hash) ->
  0 < hash_BlockSize (alg hash) < 2 ^ 31 ->
  0 <= kdLen < 2 ^ 31 ->
  0 <= Size (alg hash) ->
  kdLen <= ((kdLen + 7) / hash_BlockSize (alg hash) + 1) * Size (alg hash) ->
  exists k hash',
    concatKDF hash z s1 kdLen = Ok (k, hash') /\ len k = kdLen
    /\ hash' = New (alg hash).
Proof.
  intros Hok Hbs Hk Hsz Hcover. unfold concatKDF.
  destruct (reps_small _ _ Hbs Hk) as [-> ->].
  set (reps := (kdLen + 7) / hash_BlockSize (alg hash)) in *.
  assert (Hreps : 0 <= reps < 2 ^ 32).
  { subst reps. split; [apply Z.div_pos; lia |].
    apply Z.div_lt_upper_bound; lia. }
  destruct (Z.gtb_spec reps big2To32M1) as [Hgt | _].
  { unfold big2To32M1, big2To32 in Hgt. lia. }
  destruct (concatKDF_loop_Ok (Z.to_nat (reps + 1)) z s1 hash 0 0 0 1 [] Hok)
    as (k & hash' & E & Hlen & Halg & Hw).
  exists (firstn (Z.to_nat kdLen) k), hash'. rewrite E.
  simpl bind. rewrite Z2Nat.id in Hlen by lia. change (len []) with 0 in Hlen.
  unfold slice_to.
  destruct (Z.ltb_spec kdLen 0); [lia |].
  destruct (Z.ltb_spec (len k) kdLen); [lia |]. simpl.
  split; [reflexivity |]. split.
  - unfold len. rewrite length_firstn. unfold len in *. lia.
  - apply Hw. lia.
Qed.

(** When the digests fall short of [kdLen], the final slice is out of
    range. *)
Lemma concatKDF_short (hash : hash_Hash) (z s1 : bytes) (kdLen : Z) :
  hash_ok (alg hash) ->
  0 < hash_BlockSize (alg hash) < 2 ^ 31 ->
  0 <= kdLen < 2 ^ 31 ->
  0 <= Size (alg hash) ->
  ((kdLen + 7) / hash_BlockSize (alg hash) + 1) * Size (alg hash) < kdLen ->
  concatKDF hash z s1 kdLen = Panic.
Proof.
  intros Hok Hbs Hk Hsz Hshort. unfold concatKDF.
  destruct (reps_small _ _ Hbs Hk) as [-> ->].
  set (reps := (kdLen + 7) / hash_BlockSize (alg hash)) in *.
  assert (Hreps : 0 <= reps < 2 ^ 32).
  { subst reps. split; [apply Z.div_pos; lia |].
    apply Z.div_lt_upper_bound; lia. }
  destruct (Z.gtb_spec reps big2To32M1) as [Hgt | _].
  { unfold big2To32M1, big2To32 in Hgt. lia. }
  destruct (concatKDF_loop_Ok (Z.to_nat (reps + 1)) z s1 hash 0 0 0 1 [] Hok)
    as (k & hash' & -> & Hlen & _).
  simpl bind. rewrite Z2Nat.id in Hlen by lia. change (len []) with 0 in Hlen.
  rewrite slice_to_short by lia. reflexivity.
Qed.

End KDF.

(** ** The symmetric layer *)

Section Symmetric.

Context {L : CryptoLib} {OK : CryptoLibOK L}.

Lemma io_ReadFull_length (r : Reader) (n : nat) (buf : bytes) (r' : Reader) :
  io_ReadFull r n = Ok (buf, r') -> length buf = n.
Proof.
  unfold io_ReadFull.
  destruct (Nat.eqb_spec n 0) as [-> | Hn].
  { intros H. inversion H. reflexivity. }
  destruct (Nat.eqb (length r) 0); [discriminate |].
  destruct (Nat.ltb_spec (length r) n) as [Hlt | Hge]; [discriminate |].
  intros H. inversion H. rewrite length_firstn. lia.
Qed.

Lemma generateIV_length (params : ECIESParams) (rand : Reader)
    (iv : bytes) (rand' : Reader) :
  generateIV params rand = Ok (iv, rand') -> len iv = BlockSize params.
Proof.
  unfold generateIV. intros H. apply bind_Ok in H.
  destruct H as (iv0 & Hmake & Hread).
  apply make_inv in Hmake. destruct Hmake as (Hbs & -> & Hlen).
  apply io_ReadFull_length in Hread.
  rewrite repeat_length in Hread. unfold len. lia.
Qed.

(** What [XORKeyStream] writes over a destination as long as the source. *)
Lemma XORKeyStream_same_length (s : Stream) (dst src : bytes) :
  length dst = length src ->
  XORKeyStream s dst src
  = Ok (xor_bytes src
          (ctr_keystream (stream_block s) (stream_iv s) (length src))).
Proof.
  intros Hl. unfold XORKeyStream.
  destruct (Z.ltb_spec (len dst) (len src)) as [Hlt | _].
  { unfold len in Hlt. lia. }
  f_equal. rewrite copy_at_0.
  - rewrite skipn_all2, app_nil_r; [reflexivity |].
    rewrite xor_bytes_length by (now rewrite keystream_length). lia.
  - rewrite xor_bytes_length by (now rewrite keystream_length). lia.
Qed.

(** The output of [symEncrypt] is the IV followed by the message XORed
    with the key stream of that IV. *)
Lemma symEncrypt_inv (rand : Reader) (params : ECIESParams)
    (key m em : bytes) :
  BlockSize params < 2 ^ 31 -> fits_memory m ->
  symEncrypt rand params key m = Ok em ->
  exists blk iv,
    call_Cipher (Cipher params) key = Ok blk
    /\ len iv = BlockSize params
    /\ Block_BlockSize blk = BlockSize params
    /\ em = iv ++ xor_bytes m (ctr_keystream blk iv (length m)).
Proof.
  intros Hbs Hm H. unfold symEncrypt in H.
  apply bind_Ok in H. destruct H as (blk & Hc & H).
  apply bind_Ok in H. destruct H as ([iv rand'] & Hiv & H).
  apply bind_Ok in H. destruct H as (ctr & Hctr & H).
  apply bind_Ok in H. destruct H as (ct & Hmake & H).
  apply bind_Ok in H. destruct H as (dst & Hdst & H).
  apply bind_Ok in H. destruct H as (dst' & Hxor & H).
  apply generateIV_length in Hiv.
  pose proof (len_nonneg iv) as Hiv0. pose proof (len_nonneg m) as Hm0.
  unfold fits_memory in Hm.
  unfold NewCTR in Hctr.
  destruct (Z.eqb_spec (len iv) (Block_BlockSize blk)) as [Hblk | ];
    [| discriminate].
  inversion Hctr; subst ctr; clear Hctr.
  rewrite add_small in Hmake by (apply in_range_intro; lia).
  apply make_inv in Hmake. destruct Hmake as (_ & -> & _).
  replace (Z.to_nat (len m + BlockSize params))
    with (length iv + length m)%nat in * by (unfold len in *; lia).
  rewrite copy_at_0 in * by (rewrite repeat_length; lia).
  rewrite skipn_repeat in *.
  replace (length iv + length m - length iv)%nat with (length m) in * by lia.
  rewrite <- Hiv in Hdst. rewrite slice_from_app in Hdst.
  inversion Hdst; subst dst; clear Hdst.
  rewrite XORKeyStream_same_length in Hxor by apply repeat_length.
  simpl in Hxor. inversion Hxor; subst dst'; clear Hxor.
  replace (Z.to_nat (BlockSize params)) with (length iv) in H
    by (unfold len in *; lia).
  rewrite copy_at_app in H
    by (rewrite repeat_length, xor_bytes_length;
        rewrite ?keystream_length; lia).
  rewrite skipn_all2, app_nil_r in H
    by (rewrite repeat_length, xor_bytes_length;
        rewrite ?keystream_length; lia).
  inversion H. exists blk, iv. repeat split; try congruence.
Qed.

(** [symDecrypt] on an IV followed by a body XORs the body with the key
    stream of that IV. *)
Lemma symDecrypt_app (params : ECIESParams) (key iv body : bytes)
    (blk : Block) :
  call_Cipher (Cipher params) key = Ok blk ->
  len iv = BlockSize params ->
  Block_BlockSize blk = BlockSize params ->
  BlockSize params < 2 ^ 31 -> len body < 2 ^ 62 ->
  symDecrypt params key (iv ++ body)
  = Ok (xor_bytes body (ctr_keystream blk iv (length body))).
Proof.
  intros Hc Hiv Hblk Hbs Hm. unfold symDecrypt. rewrite Hc. simpl bind.
  rewrite <- Hiv. rewrite slice_to_app. simpl bind.
  unfold NewCTR. rewrite Hblk, Hiv, Z.eqb_refl. simpl bind.
  pose proof (len_nonneg iv). pose proof (len_nonneg body).
  rewrite len_app, <- Hiv.
  rewrite sub_small by (apply in_range_intro; lia).
  rewrite make_Ok by lia. simpl bind.
  rewrite slice_from_app. simpl bind.
  rewrite XORKeyStream_same_length; [reflexivity |].
  rewrite repeat_length. unfold len. lia.
Qed.

(** Decryption inverts encryption under the same key. *)
Lemma symDecrypt_symEncrypt (rand : Reader) (params : ECIESParams)
    (key m em : bytes) :
  BlockSize params < 2 ^ 31 -> fits_memory m ->
  symEncrypt rand params key m = Ok em ->
  symDecrypt params key em = Ok m.
Proof.
  intros Hbs Hm H.
  destruct (symEncrypt_inv _ _ _ _ _ Hbs Hm H)
    as (blk & iv & Hc & Hiv & Hblk & ->).
  assert (Hl : length (xor_bytes m (ctr_keystream blk iv (length m)))
               = length m)
    by (apply xor_bytes_length; now rewrite keystream_length).
  rewrite (symDecrypt_app params key iv _ blk Hc Hiv Hblk Hbs).
  - rewrite Hl. f_equal. apply xor_bytes_involutive.
    now rewrite keystream_length.
  - unfold fits_memory, len in *. lia.
Qed.

(** A body shorter than the block size cannot be split. *)
Lemma symDecrypt_short (params : ECIESParams) (key ct : bytes) (blk : Block) :
  call_Cipher (Cipher params) key = Ok blk ->
  len ct < BlockSize params ->
  symDecrypt params key ct = Panic.
Proof.
  intros Hc Hshort. unfold symDecrypt. rewrite Hc. simpl bind.
  now rewrite slice_to_short.
Qed.

End Symmetric.

(** ** Key agreement *)

Section Agreement.

Context {L : CryptoLib} {OK : CryptoLibOK L}.

Lemma curve_eqb_refl (c : EllipticCurve) : curve_eqb c c = true.
Proof. destruct c; simpl; try reflexivity. apply Z.eqb_refl. Qed.

Lemma curve_eqb_eq (a b : EllipticCurve) : curve_eqb a b = true -> a = b.
Proof.
  destruct a, b; simpl; intros H; try reflexivity; try discriminate.
  apply Z.eqb_eq in H. now subst.
Qed.

(** [kLen], the byte length of a coordinate. *)
Lemma kLen_small (c : EllipticCurve) :
  0 < BitSize c < 2 ^ 31 ->
  GoInt.quot (BitSize c +i 7) 8 = (BitSize c + 7) / 8
  /\ 1 <= (BitSize c + 7) / 8 < 2 ^ 29.
Proof.
  intros Hb. rewrite add_small by (apply in_range_intro; lia).
  rewrite quot_small by (unfold GoInt.max_int; lia).
  split; [reflexivity |]. split.
  - apply Z.div_le_lower_bound; lia.
  - apply Z.div_lt_upper_bound; lia.
Qed.

Lemma pow2_bits_le_bytes (b : Z) :
  0 < b -> 2 ^ b <= 256 ^ ((b + 7) / 8).
Proof.
  intros Hb. replace 256 with (2 ^ 8) by reflexivity.
  assert (0 <= (b + 7) / 8) by (apply Z.div_pos; lia).
  rewrite <- Z.pow_mul_r by lia.
  apply Z.pow_le_mono_r; [lia |].
  pose proof (Z.div_mod (b + 7) 8). pose proof (Z.mod_pos_bound (b + 7) 8).
  lia.
Qed.

(** The shared secret of a scalar and a point whose product is a point
    of the curve: the abscissa on [ceil(BitSize/8)] bytes. *)
Lemma GenerateShared_Ok (prv : PrivateKey) (pub : PublicKey) (x y : Z) :
  Curve (Public prv) = Curve pub ->
  ScalarMult (Curve pub) (X pub) (Y pub) (Bytes (D prv)) = Some (x, y) ->
  IsOnCurve (Curve pub) x y = true ->
  GenerateShared prv pub
  = Ok (be_digits (Z.to_nat ((BitSize (Curve pub) + 7) / 8)) x).
Proof.
  intros Hc Hmul Hon. unfold GenerateShared.
  unfold Public in Hc. rewrite Hc, curve_eqb_refl. simpl negb. cbv iota.
  rewrite Hmul.
  destruct (on_curve_range _ _ _ Hon) as (Hx & _ & Hbits).
  destruct (kLen_small _ Hbits) as [-> Hk].
  rewrite make_Ok by lia. simpl bind.
  rewrite FillBytes_Ok.
  - now rewrite repeat_length.
  - unfold len. rewrite repeat_length, Z2Nat.id by lia.
    pose proof (pow2_bits_le_bytes (BitSize (Curve pub))). lia.
Qed.

(** Two valid key pairs of one curve derive the same secret. *)
Lemma ecdh_shared (a b : PrivateKey) :
  valid_key a -> valid_key b -> Curve (Public a) = Curve (Public b) ->
  exists x y,
    ScalarMult (Curve (Public b)) (X (Public b)) (Y (Public b)) (Bytes (D a))
    = Some (x, y)
    /\ 0 <= x < 2 ^ BitSize (Curve (Public a))
    /\ GenerateShared a (Public b)
       = Ok (be_digits (Z.to_nat ((BitSize (Curve (Public a)) + 7) / 8)) x)
    /\ GenerateShared b (Public a)
       = Ok (be_digits (Z.to_nat ((BitSize (Curve (Public a)) + 7) / 8)) x).
Proof.
  intros [Hda Hpa] [Hdb Hpb] Hc. rewrite Hc in Hda, Hpa.
  destruct (ecdh_agree _ _ _ _ _ _ _ Hdb Hda Hpb Hpa)
    as (x & y & Hba & Hab & Hon).
  exists x, y. split; [exact Hba |]. split.
  - rewrite Hc. now destruct (on_curve_range _ _ _ Hon).
  - split.
    + rewrite Hc. now apply (GenerateShared_Ok a (Public b) x y).
    + rewrite <- Hc in Hab, Hon.
      now apply (GenerateShared_Ok b (Public a) x y).
Qed.

(** [GenerateShared] reads only the point and the curve of its argument. *)
Lemma GenerateShared_ext (prv : PrivateKey) (p p' : PublicKey) :
  X p = X p' -> Y p = Y p' -> Curve p = Curve p' ->
  GenerateShared prv p = GenerateShared prv p'.
Proof. intros Hx Hy Hc. unfold GenerateShared. now rewrite Hx, Hy, Hc. Qed.

End Agreement.

(** ** Frames *)

Section Frames.

Context {L : CryptoLib} {OK : CryptoLibOK L}.

Lemma Decrypt_frame (kp : KeyProvider) (params : ECIESParams) (a : HashAlg)
    (Rx Ry : Z) (Rb body tag s1 s2 : bytes) :
  resolve_params (KeyProvider_Public kp) = Ok params ->
  Hash params = Some a -> 0 <= Size a < 2 ^ 31 ->
  IsOnCurve (Curve (KeyProvider_Public kp)) Rx Ry = true ->
  elliptic_Marshal (Curve (KeyProvider_Public kp)) Rx Ry = Ok Rb ->
  1 <= len body < 2 ^ 62 -> len tag = Size a ->
  Decrypt kp (Rb ++ body ++ tag) s1 s2
  = after_parse kp params a Rx Ry body tag s1 s2.
Proof.
  intros Hres Ha Hsz Hon Hmar Hbody Htag.
  destruct (marshal_ok _ _ _ Hon) as (Rb' & Hmar' & HlenR & Hhd & Hun).
  rewrite Hmar in Hmar'. inversion Hmar'; subst Rb'; clear Hmar'.
  destruct (on_curve_range _ _ _ Hon) as (_ & _ & Hbits).
  destruct (kLen_small _ Hbits) as [HkLen Hk].
  destruct Rb as [| r0 Rb0]; [change (len (@nil Z)) with 0 in HlenR; lia |].
  simpl in Hhd. subst r0.
  unfold Decrypt, after_parse. cbn [app].
  rewrite Hres. cbn [bind]. rewrite Ha. cbn [bind call_Hash alg New].
  change (4 =? 2) with false. change (4 =? 3) with false.
  change (4 =? 4) with true. cbn [orb]. cbv iota. cbn [bind].
  rewrite HkLen.
  set (kLen := (BitSize (Curve (KeyProvider_Public kp)) + 7) / 8) in *.
  rewrite (mul_small 2 kLen) by (apply in_range_intro; lia).
  rewrite (add_small 1 (2 * kLen)) by (apply in_range_intro; lia).
  rewrite <- HlenR.
  change (4 :: Rb0 ++ body ++ tag) with ((4 :: Rb0) ++ body ++ tag).
  set (Rb := 4 :: Rb0) in *.
  pose proof (len_nonneg Rb) as HR0.
  rewrite !len_app.
  rewrite (add_small (len Rb) (Size a)) by (apply in_range_intro; lia).
  rewrite (add_small (len Rb + Size a) 1) by (apply in_range_intro; lia).
  destruct (Z.ltb_spec (len Rb + (len body + len tag)) (len Rb + Size a + 1))
    as [Hlt | _]; [lia |].
  rewrite sub_small by (apply in_range_intro; lia).
  rewrite slice_to_app. cbn [bind]. rewrite Hun. cbn [X Y Curve].
  rewrite Hon. cbn [negb]. cbv iota.
  destruct (KeyProvider_GenerateShared kp _) as [z | e | ]; cbn [bind];
    try reflexivity.
  destruct (derive_keys (New a) params z s1) as [[[Ke Km] h] | e | ];
    cbn [bind]; try reflexivity.
  replace (len Rb + (len body + len tag) - Size a) with (len Rb + len body)
    by lia.
  rewrite slice_app3. cbn [bind].
  unfold messageTag. cbn [bind].
  rewrite app_assoc. rewrite <- len_app. rewrite slice_from_app. cbn [bind].
  reflexivity.
Qed.

(** The run of a successful [Encrypt] on a non-empty message. *)
Lemma Encrypt_inv (rand : Reader) (pub : PublicKey) (m s1 s2 ct : bytes)
    (params : ECIESParams) :
  resolve_params pub = Ok params -> params_ok params ->
  fits_memory m -> m <> [] ->
  Encrypt rand pub m s1 s2 = Ok ct ->
  exists (R : PrivateKey) (rand' : Reader) (a : HashAlg)
         (z Ke Km : bytes) (h : hash_Hash) (em Rb : bytes),
    GenerateKey rand (Curve pub) (Some params) = Ok (R, rand')
    /\ Hash params = Some a
    /\ GenerateShared R pub = Ok z
    /\ derive_keys (New a) params z s1 = Ok (Ke, Km, h)
    /\ symEncrypt rand' params Ke m = Ok em
    /\ len em = BlockSize params + len m
    /\ 0 <= BlockSize params
    /\ elliptic_Marshal (Curve pub) (X (Public R)) (Y (Public R)) = Ok Rb
    /\ ct = Rb ++ em ++ hmac_Sum a Km (em ++ s2).
Proof.
  intros Hres [(a & Ha & Hok & Hsz) Hbs] Hfit Hne H.
  unfold Encrypt in H. rewrite Hres in H. cbn [bind] in H.
  apply bind_Ok in H. destruct H as ([R rand'] & Hgen & H).
  rewrite Ha in H. cbn [bind call_Hash] in H.
  apply bind_Ok in H. destruct H as (z & Hz & H).
  apply bind_Ok in H. destruct H as ([[Ke Km] h] & Hkeys & H).
  apply bind_Ok in H. destruct H as (em & Hem & H).
  destruct (symEncrypt_inv _ _ _ _ _ Hbs Hfit Hem)
    as (blk & iv & Hc & Hiv & Hblk & Eem).
  assert (Hlen : len em = BlockSize params + len m).
  { rewrite Eem, len_app, Hiv. f_equal. unfold len.
    rewrite xor_bytes_length; [reflexivity | now rewrite keystream_length]. }
  assert (Hmpos : 0 < len m).
  { pose proof (len_nonneg m). destruct (Z.eq_dec (len m) 0) as [E | E];
      [apply len_nil_iff in E; contradiction | lia]. }
  destruct (Z.leb_spec (len em) (BlockSize params)) as [Hle | _]; [lia |].
  unfold messageTag in H. cbn [bind] in H.
  apply bind_Ok in H. destruct H as (Rb & HRb & H).
  apply bind_Ok in H. destruct H as (buf & Hbuf & H).
  (* the ephemeral point is on the curve, so its encoding has the SEC 1 length *)
  unfold GenerateKey in Hgen.
  apply bind_Ok in Hgen. destruct Hgen as ([[[pb x] y] rand1] & Hlib & Hgen).
  inversion Hgen; subst R rand'; clear Hgen.
  destruct (generate_key_ok _ _ _ _ _ _ Hlib) as [Hvalid Hbase].
  pose proof (base_on_curve _ _ _ _ Hvalid Hbase) as Hon.
  cbn [Public PrivateKey_PublicKey X Y] in HRb.
  destruct (marshal_ok _ _ _ Hon) as (Rb' & HRb' & HlenR & _ & _).
  rewrite HRb in HRb'. inversion HRb'; subst Rb'; clear HRb'.
  destruct (on_curve_range _ _ _ Hon) as (_ & _ & Hbits).
  destruct (kLen_small _ Hbits) as [_ Hk].
  pose proof (hmac_size a Km (em ++ s2) Hok) as Hd.
  unfold fits_memory in Hfit. pose proof (len_nonneg iv) as Hiv0.
  rewrite (add_small (len Rb) (len em)) in Hbuf
    by (apply in_range_intro; lia).
  rewrite add_small in Hbuf by (apply in_range_intro; lia).
  apply make_inv in Hbuf. destruct Hbuf as (_ & -> & _).
  replace (Z.to_nat (len Rb + len em + len (hmac_Sum a Km (em ++ s2))))
    with (length Rb + length em + length (hmac_Sum a Km (em ++ s2)))%nat in H
    by (unfold len; lia).
  rewrite copy_frame in H. inversion H; subst ct; clear H.
  exists {| PrivateKey_PublicKey :=
              {| X := x; Y := y; Curve := Curve pub; Params := Some params |};
            D := SetBytes pb |}, rand1, a, z, Ke, Km, h, em, Rb.
  unfold GenerateKey. rewrite Hlib. cbn [bind].
  repeat split; auto. lia.
Qed.

End Frames.

(** ** The small instance keeps the contracts *)

Module ToyFacts.

Import Toy.

Lemma in_residues (d : Z) : 1 <= d < q -> In d residues.
Proof.
  intros Hd. unfold residues. apply in_map_iff.
  exists (Z.to_nat d). split; [lia |]. apply in_seq. unfold q in Hd. lia.
Qed.

Lemma product_nonzero (d1 d2 : Z) :
  1 <= d1 < q -> 1 <= d2 < q -> ((d1 * d2) mod q =? 0) = false.
Proof.
  intros H1 H2.
  assert (Hc : no_zero_product = true) by (vm_compute; reflexivity).
  unfold no_zero_product in Hc.
  rewrite forallb_forall in Hc. specialize (Hc d1 (in_residues d1 H1)).
  rewrite forallb_forall in Hc. specialize (Hc d2 (in_residues d2 H2)).
  now apply negb_true_iff in Hc.
Qed.

Lemma usable_bits (c : EllipticCurve) :
  usable c = true -> 8 <= BitSize c < 2 ^ 31.
Proof.
  unfold usable. intros H. apply andb_true_iff in H. destruct H as [H1 H2].
  apply Z.leb_le in H1. apply Z.ltb_lt in H2. lia.
Qed.

Lemma valid_scalar_inv (c : EllipticCurve) (d : Z) :
  valid_scalar c d -> usable c = true /\ 1 <= d < q.
Proof.
  unfold valid_scalar. simpl. unfold order.
  destruct (usable c); intros H; [split; [reflexivity | exact H] | lia].
Qed.

Lemma ordinate_range (x : Z) : 0 <= ordinate x < q.
Proof. unfold ordinate. apply Z.mod_pos_bound. reflexivity. Qed.

Lemma onCurve_intro (c : EllipticCurve) (x : Z) :
  usable c = true -> 0 < x < q -> onCurve c x (ordinate x) = true.
Proof.
  intros Hu Hx. unfold onCurve. rewrite Hu, Z.eqb_refl.
  destruct (Z.ltb_spec 0 x); [| lia]. destruct (Z.ltb_spec x q); [| lia].
  reflexivity.
Qed.

Lemma onCurve_inv (c : EllipticCurve) (x y : Z) :
  onCurve c x y = true -> usable c = true /\ 0 < x < q /\ y = ordinate x.
Proof.
  unfold onCurve. destruct (usable c); [| discriminate]. intros H.
  cbn [andb] in H.
  repeat (apply andb_true_iff in H; destruct H as [H ?]).
  repeat match goal with
         | E : (_ <? _) = true |- _ => apply Z.ltb_lt in E
         | E : (_ =? _) = true |- _ => apply Z.eqb_eq in E
         end.
  repeat split; try assumption; lia.
Qed.

Lemma base_point (c : EllipticCurve) (d x y : Z) :
  1 <= d < q -> scalarBaseMult c (Bytes d) = (x, y) ->
  x = d /\ y = ordinate d.
Proof.
  intros Hd H. unfold scalarBaseMult in H.
  rewrite SetBytes_Bytes in H by lia.
  rewrite Z.mod_small in H by lia. inversion H. auto.
Qed.

Lemma byteLen_pos (c : EllipticCurve) :
  usable c = true -> 256 <= 256 ^ Z.of_nat (byteLen c).
Proof.
  intros Hu. apply usable_bits in Hu. unfold byteLen.
  assert (1 <= (BitSize c + 7) / 8) by (apply Z.div_le_lower_bound; lia).
  rewrite Z2Nat.id by lia.
  change 256 with (256 ^ 1) at 1. apply Z.pow_le_mono_r; lia.
Qed.

Lemma lib_ok : CryptoLibOK lib.
Proof.
  constructor.
  - (* ecdh_agree *)
    intros c d1 d2 x1 y1 x2 y2 H1 H2 Hb1 Hb2.
    apply valid_scalar_inv in H1. destruct H1 as [Hu H1].
    apply valid_scalar_inv in H2. destruct H2 as [_ H2].
    simpl in Hb1, Hb2.
    apply base_point in Hb1; [| exact H1]. destruct Hb1 as [-> ->].
    apply base_point in Hb2; [| exact H2]. destruct Hb2 as [-> ->].
    exists ((d1 * d2) mod q), (ordinate ((d1 * d2) mod q)).
    simpl. unfold scalarMult.
    rewrite !SetBytes_Bytes by lia.
    rewrite (Z.mul_comm d2 d1), product_nonzero by assumption.
    repeat split; try reflexivity.
    apply onCurve_intro; [exact Hu |].
    pose proof (product_nonzero d1 d2 H1 H2) as Hnz.
    apply Z.eqb_neq in Hnz.
    pose proof (Z.mod_pos_bound (d1 * d2) q eq_refl). lia.
  - (* base_on_curve *)
    intros c d x y Hd Hb. apply valid_scalar_inv in Hd.
    destruct Hd as [Hu Hd]. simpl in Hb.
    apply base_point in Hb; [| exact Hd]. destruct Hb as [-> ->].
    simpl. apply onCurve_intro; [exact Hu | lia].
  - (* on_curve_range *)
    intros c x y Hon. simpl in Hon. apply onCurve_inv in Hon.
    destruct Hon as (Hu & Hx & ->). apply usable_bits in Hu.
    pose proof (ordinate_range x) as Hy.
    assert (Hq : q < 2 ^ BitSize c).
    { change q with 251. assert (2 ^ 8 <= 2 ^ BitSize c)
        by (apply Z.pow_le_mono_r; lia). lia. }
    lia.
  - (* generate_key_ok *)
    intros c rand pb x y rand' H.
    change (generateKey c rand = Ok (pb, x, y, rand')) in H.
    unfold generateKey in H.
    destruct (usable c) eqn:Hu; cbn [negb] in H; [| discriminate].
    destruct rand as [| b rand0]; [discriminate |].
    inversion H; subst; clear H.
    assert (Hd : 1 <= b mod 250 + 1 < q).
    { pose proof (Z.mod_pos_bound b 250 eq_refl). unfold q. lia. }
    assert (Hs : SetBytes [b mod 250 + 1] = b mod 250 + 1)
      by (unfold SetBytes; simpl; lia).
    rewrite Hs. split.
    + unfold valid_scalar. simpl. unfold order. rewrite Hu. exact Hd.
    + simpl. unfold scalarBaseMult. rewrite SetBytes_Bytes by lia.
      now rewrite Z.mod_small by lia.
  - (* marshal_ok *)
    intros c x y Hon. simpl in Hon. pose proof Hon as Hon'.
    apply onCurve_inv in Hon'. destruct Hon' as (Hu & Hx & Hy).
    pose proof (byteLen_pos c Hu) as Hpow.
    pose proof (ordinate_range x) as Hyr. rewrite <- Hy in Hyr.
    exists (4 :: be_digits (byteLen c) x ++ be_digits (byteLen c) y).
    cbn [elliptic_Marshal elliptic_Unmarshal lib hd].
    unfold marshal, unmarshal. rewrite Hon.
    repeat split.
    + rewrite len_cons, len_app. unfold len.
      rewrite !be_digits_length. unfold byteLen.
      apply usable_bits in Hu.
      assert (0 <= (BitSize c + 7) / 8) by (apply Z.div_pos; lia).
      rewrite Z2Nat.id by lia. lia.
    + rewrite length_app, !be_digits_length.
      replace (byteLen c + byteLen c)%nat with (2 * byteLen c)%nat by lia.
      rewrite Nat.eqb_refl. simpl negb. cbv iota.
      rewrite firstn_app, be_digits_length, Nat.sub_diag, firstn_all2
        by (rewrite be_digits_length; lia).
      simpl firstn. rewrite app_nil_r.
      rewrite skipn_app, be_digits_length, Nat.sub_diag, skipn_all2
        by (rewrite be_digits_length; lia).
      simpl skipn. simpl app.
      rewrite !SetBytes_be_digits by (unfold q in *; lia).
      now rewrite Hon.
  - (* hmac_size *)
    intros a key data Hok. simpl. unfold hmac. apply Hok.
  - (* keystream_length *)
    intros b iv n. simpl. unfold keystream.
    now rewrite length_map, length_seq.
  - intros data. simpl. unfold len, digest_n.
    now rewrite length_map, length_seq.
  - intros data. simpl. unfold len, digest_n.
    now rewrite length_map, length_seq.
  - intros data. simpl. unfold len, digest_n.
    now rewrite length_map, length_seq.
  - (* aes_key_sizes *)
    intros key Hk. simpl. unfold newCipher.
    assert (E : (len key =? 16) || (len key =? 24) || (len key =? 32) = true).
    { destruct Hk as [-> | [-> | ->]]; reflexivity. }
    rewrite E. eexists. split; reflexivity.
Qed.

End ToyFacts.

(** ** Default parameters and generated keys *)

Section Defaults.

Context {L : CryptoLib} {OK : CryptoLibOK L}.

(** The three default profiles keep the hash contract. *)
Lemma default_params_ok (c : EllipticCurve) (p : ECIESParams) :
  ParamsFromCurve c = Some p -> params_ok p.
Proof.
  destruct c; simpl; intros H; inversion H; subst; clear H;
    (split; [eexists; split; [reflexivity |] | simpl; lia]).
  - split; [apply sha256_size | simpl; lia].
  - split; [apply sha384_size | simpl; lia].
  - split; [apply sha512_size | simpl; lia].
Qed.

(** A generated key pair is valid and its point is on the curve. *)
Lemma GenerateKey_valid (rand rand' : Reader) (c : EllipticCurve)
    (ps : option ECIESParams) (R : PrivateKey) :
  GenerateKey rand c ps = Ok (R, rand') ->
  valid_key R /\ Curve (Public R) = c
  /\ IsOnCurve c (X (Public R)) (Y (Public R)) = true.
Proof.
  unfold GenerateKey. intros H. apply bind_Ok in H.
  destruct H as ([[[pb x] y] rand1] & Hlib & H).
  inversion H; subst R rand'; clear H.
  destruct (generate_key_ok _ _ _ _ _ _ Hlib) as [Hvalid Hbase].
  unfold valid_key. cbn [Public PrivateKey_PublicKey Curve D X Y].
  split; [split; assumption |].
  split; [reflexivity | eapply base_on_curve; eauto].
Qed.

End Defaults.

(** ** [Encrypt] succeeds under the default parameters *)

Section Success.

Context {L : CryptoLib} {OK : CryptoLibOK L}.

Lemma slice_to_Ok (s : list Z) (n : Z) :
  0 <= n <= len s ->
  exists t, slice_to s n = Ok t /\ len t = n.
Proof.
  intros Hn. unfold slice_to.
  destruct (Z.ltb_spec n 0); [lia |]. destruct (Z.ltb_spec (len s) n); [lia |].
  simpl. eexists. split; [reflexivity |].
  unfold len in *. rewrite length_firstn. lia.
Qed.

Lemma slice_from_Ok (s : list Z) (n : Z) :
  0 <= n <= len s ->
  exists t, slice_from s n = Ok t /\ len t = len s - n.
Proof.
  intros Hn. unfold slice_from.
  destruct (Z.ltb_spec n 0); [lia |]. destruct (Z.ltb_spec (len s) n); [lia |].
  simpl. eexists. split; [reflexivity |].
  unfold len in *. rewrite length_skipn. lia.
Qed.

(** The default profiles: AES with block size 16, and a hash whose
    digests cover both sub-keys within the repetitions of the KDF. *)
Lemma default_profile (c : EllipticCurve) (p : ECIESParams) :
  ParamsFromCurve c = Some p ->
  exists a,
    Hash p = Some a /\ hash_ok a /\ Cipher p = Some aes_NewCipher
    /\ BlockSize p = 16
    /\ (KeyLen p = 16 \/ KeyLen p = 24 \/ KeyLen p = 32)
    /\ 0 < hash_BlockSize a < 2 ^ 31 /\ 0 <= Size a < 2 ^ 31
    /\ 2 * KeyLen p
       <= ((2 * KeyLen p + 7) / hash_BlockSize a + 1) * Size a.
Proof.
  destruct c; simpl; intros H; inversion H; subst; clear H;
    eexists; (split; [reflexivity |]); simpl.
  - split; [apply sha256_size |]. repeat split; auto; lia.
  - split; [apply sha384_size |]. repeat split; auto; lia.
  - split; [apply sha512_size |]. repeat split; auto; lia.
Qed.

(** Under a default profile the KDF delivers both sub-keys. *)
Lemma derive_keys_default (c : EllipticCurve) (p : ECIESParams)
    (a : HashAlg) (z s1 : list Z) :
  ParamsFromCurve c = Some p -> Hash p = Some a ->
  exists Ke Km h,
    derive_keys (New a) p z s1 = Ok (Ke, Km, h) /\ len Ke = KeyLen p.
Proof.
  intros Hp Ha.
  destruct (default_profile c p Hp)
    as (a' & Ha' & Hok & _ & _ & Hk & Hbs & Hsz & Hcover).
  rewrite Ha in Ha'. inversion Ha'; subst a'; clear Ha'.
  unfold derive_keys.
  rewrite (add_small (KeyLen p) (KeyLen p)) by (apply in_range_intro; lia).
  replace (KeyLen p + KeyLen p) with (2 * KeyLen p) by lia.
  destruct (concatKDF_Ok (New a) z s1 (2 * KeyLen p)) as (K & h & -> & HK & _);
    cbn [alg New]; try assumption; try lia.
  cbn [bind].
  destruct (slice_to_Ok K (KeyLen p)) as (Ke & -> & HKe); [lia |].
  destruct (slice_from_Ok K (KeyLen p)) as (Km & -> & _); [lia |].
  cbn [bind]. eauto.
Qed.

(** [symEncrypt] succeeds when the cipher accepts the key and the reader
    holds an IV. *)
Lemma symEncrypt_Ok (rand : Reader) (params : ECIESParams) (key m : list Z)
    (blk : Block) :
  call_Cipher (Cipher params) key = Ok blk ->
  Block_BlockSize blk = BlockSize params ->
  0 < BlockSize params < 2 ^ 31 -> BlockSize params <= len rand ->
  fits_memory m ->
  exists em, symEncrypt rand params key m = Ok em.
Proof.
  intros Hc Hblk Hbs Hrand Hfit. unfold symEncrypt. rewrite Hc. cbn [bind].
  unfold generateIV. rewrite make_Ok by lia. cbn [bind].
  rewrite repeat_length. unfold io_ReadFull.
  destruct (Nat.eqb_spec (Z.to_nat (BlockSize params)) 0) as [E | _]; [lia |].
  destruct (Nat.eqb_spec (length rand) 0) as [E | _];
    [unfold len in Hrand; lia |].
  destruct (Nat.ltb_spec (length rand) (Z.to_nat (BlockSize params)))
    as [E | _]; [unfold len in Hrand; lia |].
  cbn [bind].
  set (iv := firstn (Z.to_nat (BlockSize params)) rand).
  assert (Hiv : len iv = BlockSize params).
  { subst iv. unfold len in *. rewrite length_firstn. lia. }
  unfold NewCTR. rewrite Hiv, Hblk, Z.eqb_refl. cbn [bind].
  unfold fits_memory in Hfit. pose proof (len_nonneg m).
  rewrite add_small by (apply in_range_intro; lia).
  rewrite make_Ok by lia. cbn [bind].
  destruct (slice_from_Ok
              (copy_at (repeat 0 (Z.to_nat (len m + BlockSize params))) 0 iv)
              (BlockSize params)) as (dst & -> & Hdst).
  { rewrite copy_at_0 by (rewrite repeat_length; unfold len in *; lia).
    rewrite len_app, Hiv. pose proof (len_nonneg (skipn (length iv)
      (repeat 0 (Z.to_nat (len m + BlockSize params))))). lia. }
  cbn [bind]. unfold XORKeyStream.
  destruct (Z.ltb_spec (len dst) (len m)) as [Hlt | _]; [| cbn [bind]; eauto].
  exfalso. rewrite Hdst in Hlt.
  rewrite copy_at_0 in Hlt by (rewrite repeat_length; unfold len in *; lia).
  rewrite len_app, Hiv in Hlt. unfold len in Hlt at 1.
  rewrite length_skipn, repeat_length in Hlt. unfold len in *. lia.
Qed.

(** With a default profile, a valid recipient key, an ephemeral key from
    the library and sixteen more bytes of randomness, [Encrypt] returns
    a ciphertext for every non-empty message. *)
Lemma Encrypt_default_succeeds (prv : PrivateKey) (rand rand' : Reader)
    (m s1 s2 pb : list Z) (x y : Z) (params : ECIESParams) :
  valid_key prv ->
  ParamsFromCurve (Curve (Public prv)) = Some params ->
  resolve_params (Public prv) = Ok params ->
  elliptic_GenerateKey (Curve (Public prv)) rand = Ok (pb, x, y, rand') ->
  16 <= len rand' -> fits_memory m -> m <> [] ->
  exists ct, Encrypt rand (Public prv) m s1 s2 = Ok ct.
Proof.
  intros Hprv Hp Hres Hlib Hrand Hfit Hne.
  destruct (default_profile _ _ Hp)
    as (a & Ha & Hok & Hcipher & Hbs & Hk & _ & Hsz & _).
  unfold Encrypt. rewrite Hres. cbn [bind].
  destruct (GenerateKey rand (Curve (Public prv)) (Some params))
    as [[R r] | |] eqn:Hgen;
    try (unfold GenerateKey in Hgen; rewrite Hlib in Hgen; discriminate).
  assert (r = rand').
  { unfold GenerateKey in Hgen. rewrite Hlib in Hgen. cbn [bind] in Hgen.
    now inversion Hgen. }
  subst r. cbn [bind].
  destruct (GenerateKey_valid _ _ _ _ _ Hgen) as (HR & HcR & Hon).
  rewrite Ha. cbn [bind call_Hash].
  destruct (ecdh_shared R prv HR Hprv HcR) as (sx & sy & _ & _ & -> & _).
  cbn [bind].
  destruct (derive_keys_default _ params a
              (be_digits (Z.to_nat ((BitSize (Curve (Public R)) + 7) / 8)) sx)
              s1 Hp Ha) as (Ke & Km & h & -> & HKe).
  cbn [bind].
  destruct (aes_key_sizes Ke) as (blk & Hblk & Hsize); [lia |].
  destruct (symEncrypt_Ok rand' params Ke m blk) as (em & Hem);
    try (rewrite Hbs; lia); try assumption.
  { unfold call_Cipher. now rewrite Hcipher. }
  rewrite Hem. cbn [bind].
  assert (Hbs31 : BlockSize params < 2 ^ 31) by (rewrite Hbs; lia).
  destruct (symEncrypt_inv _ _ _ _ _ Hbs31 Hfit Hem)
    as (blk' & iv & _ & Hiv & _ & Eem).
  assert (Hlen : len em = BlockSize params + len m).
  { rewrite Eem, len_app, Hiv. f_equal. unfold len.
    rewrite xor_bytes_length; [reflexivity | now rewrite keystream_length]. }
  assert (Hmpos : 0 < len m).
  { pose proof (len_nonneg m). destruct (Z.eq_dec (len m) 0) as [E | E];
      [apply len_nil_iff in E; contradiction | lia]. }
  destruct (Z.leb_spec (len em) (BlockSize params)) as [Hle | _]; [lia |].
  unfold messageTag. cbn [bind].
  destruct (marshal_ok _ _ _ Hon) as (Rb & -> & HlenR & _ & _).
  cbn [bind].
  destruct (on_curve_range _ _ _ Hon) as (_ & _ & Hbits).
  destruct (kLen_small _ Hbits) as [_ HkLen].
  pose proof (hmac_size a Km (em ++ s2) Hok) as Hd.
  unfold fits_memory in Hfit.
  rewrite (add_small (len Rb) (len em)) by (apply in_range_intro; lia).
  rewrite add_small by (apply in_range_intro; lia).
  rewrite make_Ok by lia. cbn [bind]. eauto.
Qed.

End Success.

(** ** The claims about the pipeline *)

Section PipelineClaims.

Context {L : CryptoLib} {OK : CryptoLibOK L}.

(** C1 (as amended).  Round trip: for a valid private key whose
    parameters resolve, every non-empty plaintext [m] and all shared
    infos, every ciphertext [Encrypt] returns for the public key is
    decrypted by [Decrypt] to exactly [m]. *)
Theorem Decrypt_Encrypt_nonempty (prv : PrivateKey) (rand : Reader)
    (m s1 s2 ct : bytes) (params : ECIESParams) :
  valid_key prv ->
  resolve_params (Public prv) = Ok params -> params_ok params ->
  fits_memory m -> m <> [] ->
  Encrypt rand (Public prv) m s1 s2 = Ok ct ->
  Decrypt (PrivateKey_KeyProvider prv) ct s1 s2 = Ok m.
Proof.
  intros Hprv Hres Hpok Hfit Hne Henc.
  destruct (Encrypt_inv _ _ _ _ _ _ _ Hres Hpok Hfit Hne Henc)
    as (R & rand' & a & z & Ke & Km & h & em & Rb
        & Hgen & Ha & Hz & Hkeys & Hem & Hlen & Hbs0 & HRb & ->).
  destruct Hpok as [(a' & Ha' & Hok & Hsz) Hbs].
  rewrite Ha in Ha'. inversion Ha'; subst a'; clear Ha'.
  destruct (GenerateKey_valid _ _ _ _ _ Hgen) as (HR & HcR & Hon).
  assert (Hmpos : 0 < len m).
  { pose proof (len_nonneg m). destruct (Z.eq_dec (len m) 0) as [E | E];
      [apply len_nil_iff in E; contradiction | lia]. }
  unfold fits_memory in Hfit.
  rewrite (Decrypt_frame (PrivateKey_KeyProvider prv) params a
             (X (Public R)) (Y (Public R)) Rb em _ s1 s2); auto.
  - unfold after_parse. cbn [KeyProvider_GenerateShared PrivateKey_KeyProvider
                               KeyProvider_Public].
    (* both sides of the key agreement reach the same secret *)
    destruct (ecdh_shared R prv HR Hprv HcR) as (x & y & _ & _ & HzR & Hzp).
    rewrite Hz in HzR.
    rewrite (GenerateShared_ext prv _ (Public R)) by (cbn; auto).
    rewrite Hzp, <- HzR. cbn [bind]. rewrite Hkeys. cbn [bind].
    rewrite ConstantTimeCompare_refl. cbn [negb].
    eapply symDecrypt_symEncrypt; eauto.
  - lia.
  - now apply hmac_size.
Qed.

(** C3 (as amended).  Zero-length plaintext: whatever [Encrypt] returns
    for the empty message is the empty byte string, not a frame, and
    [Decrypt] rejects it as an invalid message. *)
Theorem Encrypt_empty_message (rand : Reader) (pub : PublicKey)
    (kp : KeyProvider) (s1 s2 ct : bytes) (params : ECIESParams) :
  resolve_params pub = Ok params -> BlockSize params < 2 ^ 31 ->
  Encrypt rand pub [] s1 s2 = Ok ct ->
  ct = [] /\ Decrypt kp ct s1 s2 = Err ErrInvalidMessage.
Proof.
  intros Hres Hbs H. unfold Encrypt in H. rewrite Hres in H.
  cbn [bind] in H.
  apply bind_Ok in H. destruct H as ([R rand'] & _ & H).
  apply bind_Ok in H. destruct H as (hash & _ & H).
  apply bind_Ok in H. destruct H as (z & _ & H).
  apply bind_Ok in H. destruct H as ([[Ke Km] h] & _ & H).
  apply bind_Ok in H. destruct H as (em & Hem & H).
  assert (Hfit : fits_memory []) by (unfold fits_memory, len; simpl; lia).
  destruct (symEncrypt_inv _ _ _ _ _ Hbs Hfit Hem)
    as (blk & iv & _ & Hiv & _ & ->).
  unfold xor_bytes in H. simpl combine in H. simpl map in H.
  rewrite app_nil_r, Hiv, Z.leb_refl in H.
  inversion H. split; reflexivity.
Qed.

(** C4 (as amended).  Length of a frame: for a non-empty plaintext, the
    ciphertext [Encrypt] returns is [1 + 2*ceil(BitSize/8)] bytes of
    point, [BlockSize] bytes of IV, [len(m)] bytes of body and
    [hash.Size()] bytes of tag; with the default parameters of P-256 and
    a 5-byte message that is 118 bytes. *)
Theorem Encrypt_length (rand : Reader) (pub : PublicKey)
    (m s1 s2 ct : bytes) (params : ECIESParams) (a : HashAlg) :
  resolve_params pub = Ok params -> params_ok params ->
  Hash params = Some a ->
  fits_memory m -> m <> [] ->
  Encrypt rand pub m s1 s2 = Ok ct ->
  len ct
  = (1 + 2 * ((BitSize (Curve pub) + 7) / 8)) + BlockSize params + len m
    + Size a
  /\ (Curve pub = P256 -> Params pub = None -> len m = 5 -> len ct = 118).
Proof.
  intros Hres Hpok Ha Hfit Hne Henc.
  destruct (Encrypt_inv _ _ _ _ _ _ _ Hres Hpok Hfit Hne Henc)
    as (R & rand' & a' & z & Ke & Km & h & em & Rb
        & Hgen & Ha' & Hz & Hkeys & Hem & Hlen & Hbs0 & HRb & ->).
  rewrite Ha in Ha'. inversion Ha'; subst a'; clear Ha'.
  destruct Hpok as [(a' & Ha' & Hok & Hsz) Hbs].
  rewrite Ha in Ha'. inversion Ha'; subst a'; clear Ha'.
  destruct (GenerateKey_valid _ _ _ _ _ Hgen) as (HR & HcR & Hon).
  destruct (marshal_ok _ _ _ Hon) as (Rb' & HRb' & HlenR & _ & _).
  rewrite HRb in HRb'. inversion HRb'; subst Rb'; clear HRb'.
  assert (Htot : len (Rb ++ em ++ hmac_Sum a Km (em ++ s2))
                 = 1 + 2 * ((BitSize (Curve pub) + 7) / 8)
                   + BlockSize params + len m + Size a).
  { rewrite !len_app, HlenR, Hlen, (hmac_size a Km (em ++ s2) Hok). lia. }
  split; [exact Htot |].
  intros Hc Hp Hm5. rewrite Htot, Hm5.
  unfold resolve_params in Hres. rewrite Hp, Hc in Hres. simpl in Hres.
  inversion Hres; subst params; clear Hres.
  simpl in Ha. inversion Ha; subst a; clear Ha.
  rewrite Hc. reflexivity.
Qed.

End PipelineClaims.

(** ** Altered frames *)





Section Tampering.

Context {L : CryptoLib} {OK : CryptoLibOK L}.


(** The recipient derives the sender's secret from the ephemeral point. *)
Lemma receiver_secret (prv R : PrivateKey) (z : list Z) :
  valid_key prv -> valid_key R -> Curve (Public R) = Curve (Public prv) ->
  GenerateShared R (Public prv) = Ok z ->
  GenerateShared prv
    {| X := X (Public R); Y := Y (Public R); Curve := Curve (Public prv);
       Params := None |} = Ok z.
Proof.
  intros Hprv HR HcR Hz.
  destruct (ecdh_shared R prv HR Hprv HcR) as (x & y & _ & _ & HzR & Hzp).
  rewrite Hz in HzR.
  rewrite (GenerateShared_ext prv _ (Public R)) by (cbn; auto).
  now rewrite Hzp, <- HzR.
Qed.

(** The steps behind the parse, for the point of an ephemeral key pair
    and the keys the sender derived. *)
Lemma after_parse_sender (prv R : PrivateKey) (params : ECIESParams)
    (a : HashAlg) (z Ke Km body tag s1 s2 : bytes) (h : hash_Hash) :
  valid_key prv -> valid_key R -> Curve (Public R) = Curve (Public prv) ->
  GenerateShared R (Public prv) = Ok z ->
  derive_keys (New a) params z s1 = Ok (Ke, Km, h) ->
  after_parse (PrivateKey_KeyProvider prv) params a
    (X (Public R)) (Y (Public R)) body tag s1 s2
  = if negb (ConstantTimeCompare tag (hmac_Sum a Km (body ++ s2)) =? 1)
    then Err ErrInvalidMessage
    else symDecrypt params Ke body.
Proof.
  intros Hprv HR HcR Hz Hkeys. unfold after_parse.
  cbn [KeyProvider_GenerateShared PrivateKey_KeyProvider KeyProvider_Public].
  rewrite (receiver_secret prv R z Hprv HR HcR Hz).
  cbn [bind]. rewrite Hkeys. reflexivity.
Qed.


(** C7 (as amended).  Leading byte: [Decrypt] rejects the empty
    ciphertext as an invalid message whatever the key; and for a key
    whose parameters resolve, with a hash factory, it rejects every
    ciphertext whose first byte is not 2, 3 or 4 as an invalid public
    key, whatever the rest and the shared infos. *)
Theorem Decrypt_leading_byte :
  (forall (kp : KeyProvider) (s1 s2 : bytes),
      Decrypt kp [] s1 s2 = Err ErrInvalidMessage)
  /\ (forall (kp : KeyProvider) (c0 : Z) (rest s1 s2 : bytes)
             (params : ECIESParams) (a : HashAlg),
         resolve_params (KeyProvider_Public kp) = Ok params ->
         Hash params = Some a ->
         c0 <> 2 -> c0 <> 3 -> c0 <> 4 ->
         Decrypt kp (c0 :: rest) s1 s2 = Err ErrInvalidPublicKey).
Proof.
  split.
  - intros kp s1 s2. reflexivity.
  - intros kp c0 rest s1 s2 params a Hres Ha H2 H3 H4.
    unfold Decrypt. rewrite Hres. cbn [bind]. rewrite Ha.
    cbn [bind call_Hash].
    destruct (Z.eqb_spec c0 2); [contradiction |].
    destruct (Z.eqb_spec c0 3); [contradiction |].
    destruct (Z.eqb_spec c0 4); [contradiction |].
    reflexivity.
Qed.

(** C10.  A frame whose body is shorter than the block size and whose
    tag verifies passes the length check and the tag comparison, and
    [Decrypt] then panics in [symDecrypt]. *)
Theorem Decrypt_short_body_panics (kp : KeyProvider) (params : ECIESParams)
    (a : HashAlg) (blk : Block) (Rx Ry : Z)
    (Rb body z Ke Km s1 s2 : bytes) (h : hash_Hash) :
  resolve_params (KeyProvider_Public kp) = Ok params ->
  Hash params = Some a -> hash_ok a -> 0 <= Size a < 2 ^ 31 ->
  IsOnCurve (Curve (KeyProvider_Public kp)) Rx Ry = true ->
  elliptic_Marshal (Curve (KeyProvider_Public kp)) Rx Ry = Ok Rb ->
  KeyProvider_GenerateShared kp
    {| X := Rx; Y := Ry; Curve := Curve (KeyProvider_Public kp);
       Params := None |} = Ok z ->
  derive_keys (New a) params z s1 = Ok (Ke, Km, h) ->
  call_Cipher (Cipher params) Ke = Ok blk ->
  1 <= len body < BlockSize params -> BlockSize params < 2 ^ 31 ->
  Decrypt kp (Rb ++ body ++ hmac_Sum a Km (body ++ s2)) s1 s2 = Panic.
Proof.
  intros Hres Ha Hok Hsz Hon HRb Hz Hkeys Hc Hbody Hbs.
  rewrite (Decrypt_frame kp params a Rx Ry Rb body _ s1 s2); auto.
  - unfold after_parse. rewrite Hz. cbn [bind]. rewrite Hkeys. cbn [bind].
    rewrite ConstantTimeCompare_refl. cbn [negb].
    apply (symDecrypt_short params Ke body blk Hc). lia.
  - lia.
  - now apply hmac_size.
Qed.

End Tampering.

(** ** Fixed-width big-endian output *)

Lemma be_digits_zero (n : nat) : be_digits n 0 = repeat 0 n.
Proof.
  induction n as [| n IH]; [reflexivity |].
  simpl be_digits. rewrite Z.div_0_l, Z.mod_0_l by lia. rewrite IH.
  now rewrite <- repeat_cons.
Qed.

(** Widening the output pads it on the left with zero bytes. *)
Lemma be_digits_pad (k n : nat) (x : Z) :
  0 <= x < 256 ^ Z.of_nat n ->
  be_digits (k + n) x = repeat 0 k ++ be_digits n x.
Proof.
  revert x. induction n as [| n IH]; intros x Hx.
  - simpl in Hx. assert (x = 0) by lia. subst x.
    rewrite Nat.add_0_r, be_digits_zero. simpl. now rewrite app_nil_r.
  - rewrite Nat.add_succ_r. simpl be_digits.
    rewrite IH, <- app_assoc; [reflexivity |].
    rewrite Nat2Z.inj_succ, Z.pow_succ_r in Hx by lia.
    split; [apply Z.div_pos; lia | apply Z.div_lt_upper_bound; lia].
Qed.

Lemma byte_length_le (x : Z) (n : nat) :
  0 <= x < 256 ^ Z.of_nat n -> (byte_length x <= n)%nat.
Proof.
  intros Hx. unfold byte_length.
  destruct (Z.eqb_spec x 0) as [| Hne]; [lia |].
  assert (Hlog : Z.log2 x < 8 * Z.of_nat n).
  { apply Z.log2_lt_pow2; [lia |].
    rewrite Z.pow_mul_r by lia. exact (proj2 Hx). }
  assert (Z.log2 x / 8 < Z.of_nat n)
    by (apply Z.div_lt_upper_bound; lia).
  pose proof (Z.log2_nonneg x).
  assert (0 <= Z.log2 x / 8) by (apply Z.div_pos; lia).
  lia.
Qed.

(** [FillBytes] output: the minimal encoding behind leading zeros. *)
Lemma be_digits_Bytes (n : nat) (x : Z) :
  0 <= x < 256 ^ Z.of_nat n ->
  be_digits n x = repeat 0 (n - length (Bytes x)) ++ Bytes x.
Proof.
  intros Hx. unfold Bytes. rewrite Z.abs_eq by lia.
  rewrite be_digits_length.
  pose proof (byte_length_le x n Hx) as Hle.
  replace n with ((n - byte_length x) + byte_length x)%nat at 1 by lia.
  apply be_digits_pad. split; [lia | apply byte_length_bound; lia].
Qed.

Section AgreementClaims.

Context {L : CryptoLib} {OK : CryptoLibOK L}.

(** C5.  With a hash of 48-byte digests and 128-byte blocks, as
    SHA-384, and 64 bytes requested, the repetition count is 0, the loop
    produces one digest, and the final slice [k[:64]] is out of range:
    no 64 bytes of key material are returned. *)
Theorem concatKDF_falls_short (a : HashAlg) (z s1 : bytes) :
  hash_ok a -> Size a = 48 -> hash_BlockSize a = 128 ->
  concatKDF (New a) z s1 64 = Panic.
Proof.
  intros Hok Hs Hb. apply concatKDF_short; cbn [alg New]; try assumption;
    rewrite ?Hs, ?Hb; try lia.
  change ((64 + 7) / 128) with 0. lia.
Qed.

(** C6.  ECDH symmetry and fixed width: two valid key pairs of one
    curve derive the same secret from each other's public key; it has
    [ceil(BitSize/8)] bytes and is the abscissa of the product point,
    big-endian, behind leading zero bytes. *)
Theorem GenerateShared_symmetric (A B : PrivateKey) :
  valid_key A -> valid_key B -> Curve (Public A) = Curve (Public B) ->
  exists (x y : Z) (z : bytes),
    ScalarMult (Curve (Public B)) (X (Public B)) (Y (Public B)) (Bytes (D A))
    = Some (x, y)
    /\ GenerateShared A (Public B) = Ok z
    /\ GenerateShared B (Public A) = Ok z
    /\ len z = (BitSize (Curve (Public A)) + 7) / 8
    /\ z = repeat 0 (length z - length (Bytes x)) ++ Bytes x.
Proof.
  intros HA HB Hc.
  destruct (ecdh_shared A B HA HB Hc) as (x & y & Hmul & Hx & HzA & HzB).
  exists x, y, (be_digits (Z.to_nat ((BitSize (Curve (Public A)) + 7) / 8)) x).
  assert (Hon : exists y', IsOnCurve (Curve (Public B)) x y' = true).
  { destruct HA as [HdA HpA], HB as [HdB HpB]. rewrite Hc in HdA, HpA.
    destruct (ecdh_agree _ _ _ _ _ _ _ HdB HdA HpB HpA)
      as (x' & y' & E & _ & Hon).
    rewrite Hmul in E. inversion E; subst. eauto. }
  destruct Hon as (y' & Hon).
  destruct (on_curve_range _ _ _ Hon) as (_ & _ & Hbits).
  rewrite <- Hc in Hbits.
  destruct (kLen_small _ Hbits) as [_ Hk].
  repeat split; try assumption.
  - unfold len. rewrite be_digits_length, Z2Nat.id by lia. reflexivity.
  - rewrite be_digits_length. apply be_digits_Bytes.
    rewrite Z2Nat.id by lia.
    pose proof (pow2_bits_le_bytes (BitSize (Curve (Public A)))). lia.
Qed.

End AgreementClaims.

(** ** Key serialization *)

Lemma namedCurve_roundtrip (c : EllipticCurve) (oid : secgNamedCurve) :
  oidFromNamedCurve c = (oid, true) -> namedCurveFromOID oid = Some c.
Proof.
  destruct c; simpl; intros H; inversion H; subst; reflexivity.
Qed.

Section SerializationClaims.

Context {L : CryptoLib} {OK : CryptoLibOK L}.
Context {C : Codec} {COK : CodecOK L C}.



End SerializationClaims.

(** ** The small codec keeps the contracts *)

Module ToyCodecFacts.

Import ToyCodec.

Lemma read_unary_repeat (n : nat) (rest : list Z) :
  read_unary (repeat 1 n ++ 0 :: rest) = Some (n, rest).
Proof.
  induction n as [| n IH]; simpl; [reflexivity |]. now rewrite IH.
Qed.

Lemma curve_index_inv (oid : secgNamedCurve) (i : Z) (oid' : secgNamedCurve) :
  curve_index oid = Some i -> curve_of_index i = Some oid' ->
  namedCurveFromOID oid' = namedCurveFromOID oid.
Proof.
  unfold curve_index.
  destruct (namedCurveFromOID oid) as [[| | | |] |]; intros H;
    inversion H; subst; simpl; intros H'; inversion H'; reflexivity.
Qed.

Lemma codec_ok : CodecOK Toy.lib codec.
Proof.
  constructor.
  - (* asn1_public_roundtrip *)
    intros subj der H.
    change (marshal_public subj = Ok der) in H. unfold marshal_public in H.
    destruct (oid_eq_dec (subj_Algorithm subj) idEcPublicKeySupplemented)
      as [Ealg |]; [| discriminate].
    destruct (curve_index (ECDomain (Supplements subj))) as [i |];
      [| discriminate].
    destruct (curve_of_index i) as [oid |] eqn:Ei; [| discriminate].
    destruct (oid_eq_dec oid (ECDomain (Supplements subj))) as [Eoid |];
      [| discriminate].
    inversion H; subst der; clear H.
    change (asn1_Unmarshal_public
              (i :: BitString_Bytes (subj_PublicKey subj)))
      with (unmarshal_public (i :: BitString_Bytes (subj_PublicKey subj))).
    unfold unmarshal_public. rewrite Ei.
    eexists. split; [reflexivity |]. cbn. auto.
  - (* asn1_private_roundtrip *)
    intros [v p c [pb bl]] der H.
    change (marshal_private
              {| Version := v; Private := p; asnPrivateKey_Curve := c;
                 asnPrivateKey_Public :=
                   {| BitString_Bytes := pb; BitLength := bl |} |}
            = Ok der) in H.
    unfold marshal_private in H. cbn in H. inversion H; subst der; clear H.
    change (asn1_Unmarshal_private ?x) with (unmarshal_private x).
    unfold unmarshal_private. unfold len. rewrite Nat2Z.id.
    rewrite firstn_app, firstn_all, Nat.sub_diag. simpl firstn.
    rewrite skipn_app, skipn_all, Nat.sub_diag. simpl skipn.
    rewrite app_nil_r. simpl app.
    rewrite read_unary_repeat.
    rewrite firstn_app, firstn_all, Nat.sub_diag. simpl firstn.
    rewrite skipn_app, skipn_all, Nat.sub_diag. simpl skipn.
    rewrite app_nil_r. reflexivity.
  - (* asn1_public_total *)
    intros pub subj H. unfold marshalSubjectPublicKeyInfo in H.
    destruct (oidFromNamedCurve (Curve pub)) as [oid ok] eqn:Eoid.
    destruct ok; cbn [negb] in H; [| discriminate].
    apply bind_Ok in H. destruct H as (pt & _ & H).
    inversion H; subst subj; clear H.
    change (asn1_Marshal_public ?x) with (marshal_public x).
    unfold marshal_public. cbn [subj_Algorithm Supplements ECDomain
                                  subj_PublicKey BitString_Bytes].
    destruct (oid_eq_dec idEcPublicKeySupplemented idEcPublicKeySupplemented)
      as [_ | N]; [| contradiction].
    destruct (Curve pub); simpl in Eoid; inversion Eoid; subst oid;
      cbn; eauto.
  - (* asn1_private_total *)
    intros prv ecprv _. eexists. reflexivity.
  - (* pem_roundtrip *)
    intros ty der [-> | ->]; eexists; split; reflexivity.
Qed.

End ToyCodecFacts.

(** ** Concrete runs on the small instance *)

#[local] Existing Instance Toy.lib.
#[local] Existing Instance ToyCodec.codec.

Ltac by_computation :=
  vm_compute; repeat split; try discriminate; try reflexivity.

Lemma toy_prv_valid : valid_key (L := Toy.lib) Toy.prv.
Proof. split; [by_computation | reflexivity]. Qed.

Lemma toy_ephemeral_valid : valid_key (L := Toy.lib) Toy.ephemeral.
Proof. split; [by_computation | reflexivity]. Qed.

Lemma toy_default_ok : params_ok Toy.default256.
Proof.
  apply (default_params_ok (OK := ToyFacts.lib_ok) P256). reflexivity.
Qed.

Lemma toy_hello_fits : fits_memory Toy.hello.
Proof. unfold fits_memory. vm_compute. reflexivity. Qed.

Lemma toy_Encrypt_hello :
  Encrypt (L := Toy.lib) Toy.rand (Public Toy.prv) Toy.hello [] []
  = Ok Toy.ciphertext.
Proof. vm_compute. reflexivity. Qed.

(** C1, witness: the frame for [hello] decrypts to [hello]. *)
Lemma Decrypt_Encrypt_nonempty_witness :
  Decrypt (L := Toy.lib) (PrivateKey_KeyProvider Toy.prv) Toy.ciphertext [] []
  = Ok Toy.hello.
Proof.
  apply (Decrypt_Encrypt_nonempty (OK := ToyFacts.lib_ok)
           Toy.prv Toy.rand Toy.hello [] [] Toy.ciphertext Toy.default256).
  - exact toy_prv_valid.
  - reflexivity.
  - exact toy_default_ok.
  - exact toy_hello_fits.
  - discriminate.
  - exact toy_Encrypt_hello.
Defined.

(** C1, counterexample: for the empty message [Encrypt] returns no
    frame, and nothing it returns decrypts to the empty message. *)
Lemma Decrypt_Encrypt_empty_counterexample :
  valid_key (L := Toy.lib) Toy.prv
  /\ Encrypt (L := Toy.lib) Toy.rand (Public Toy.prv) [] [1] [2] = Ok []
  /\ ~ (exists ct,
           Encrypt (L := Toy.lib) Toy.rand (Public Toy.prv) [] [1] [2] = Ok ct
           /\ Decrypt (PrivateKey_KeyProvider Toy.prv) ct [1] [2] = Ok []).
Proof.
  split; [exact toy_prv_valid |]. split; [vm_compute; reflexivity |].
  intros (ct & He & Hd). vm_compute in He. inversion He; subst ct.
  vm_compute in Hd. discriminate.
Qed.



(** C3, witness: the empty message on the small instance. *)
Lemma Encrypt_empty_message_witness :
  @nil Z = []
  /\ Decrypt (L := Toy.lib) (PrivateKey_KeyProvider Toy.prv) [] [] []
     = Err ErrInvalidMessage.
Proof.
  apply (Encrypt_empty_message (OK := ToyFacts.lib_ok)
           Toy.rand (Public Toy.prv) (PrivateKey_KeyProvider Toy.prv)
           [] [] [] Toy.default256).
  - reflexivity.
  - vm_compute. reflexivity.
  - vm_compute. reflexivity.
Defined.

(** C3, counterexample: no ciphertext of the empty message decrypts to
    the empty message. *)
Lemma Encrypt_empty_message_counterexample :
  ~ (exists ct,
        Encrypt (L := Toy.lib) Toy.rand (Public Toy.prv) [] [] [] = Ok ct
        /\ Decrypt (PrivateKey_KeyProvider Toy.prv) ct [] [] = Ok []).
Proof.
  intros (ct & He & Hd). vm_compute in He. inversion He; subst ct.
  vm_compute in Hd. discriminate.
Qed.

(** C4, witness: P-256, [hello]: 65 + 16 + 5 + 32 = 118 bytes. *)
Lemma Encrypt_length_witness : len Toy.ciphertext = 118.
Proof.
  apply (Encrypt_length (OK := ToyFacts.lib_ok)
           Toy.rand (Public Toy.prv) Toy.hello [] [] Toy.ciphertext
           Toy.default256 sha256_New);
    first [ exact toy_default_ok | exact toy_hello_fits
          | exact toy_Encrypt_hello | discriminate | reflexivity ].
Defined.

(** C4, counterexample: for the empty message the returned ciphertext
    has length 0, not 65 + 16 + 0 + 32. *)
Lemma Encrypt_length_empty_counterexample :
  exists ct,
    Encrypt (L := Toy.lib) Toy.rand (Public Toy.prv) [] [] [] = Ok ct
    /\ len ct
       <> (1 + 2 * ((BitSize P256 + 7) / 8)) + 16 + len (@nil Z) + 32.
Proof.
  exists []. split; [vm_compute; reflexivity | vm_compute; discriminate].
Qed.

(** C5, witness: 64 bytes from the 48-byte hash of the instance. *)
Lemma concatKDF_falls_short_witness :
  concatKDF (New (sha512_New384 (H := Toy.lib))) [1; 2; 3] [] 64 = Panic.
Proof.
  apply (concatKDF_falls_short (sha512_New384 (H := Toy.lib)) [1; 2; 3] []).
  - exact (sha384_size (CryptoLibOK := ToyFacts.lib_ok)).
  - reflexivity.
  - reflexivity.
Defined.

(** C6, witness: the key pairs of scalars 5 and 10 share the secret 50. *)
Lemma GenerateShared_symmetric_witness :
  exists (x y : Z) (z : list Z),
    ScalarMult (Curve (Public Toy.ephemeral)) (X (Public Toy.ephemeral))
      (Y (Public Toy.ephemeral)) (Bytes (D Toy.prv)) = Some (x, y)
    /\ GenerateShared Toy.prv (Public Toy.ephemeral) = Ok z
    /\ GenerateShared Toy.ephemeral (Public Toy.prv) = Ok z
    /\ len z = (BitSize (Curve (Public Toy.prv)) + 7) / 8
    /\ z = repeat 0 (length z - length (Bytes x)) ++ Bytes x.
Proof.
  apply (GenerateShared_symmetric (OK := ToyFacts.lib_ok)
           Toy.prv Toy.ephemeral).
  - exact toy_prv_valid.
  - exact toy_ephemeral_valid.
  - reflexivity.
Defined.

(** C7, witness: a frame starting with 5 under a P-256 key. *)
Lemma Decrypt_leading_byte_witness :
  Decrypt (L := Toy.lib) (PrivateKey_KeyProvider Toy.prv) [5; 1; 2] [] []
  = Err ErrInvalidPublicKey.
Proof.
  apply (proj2 (Decrypt_leading_byte (L := Toy.lib))
           (PrivateKey_KeyProvider Toy.prv) 5 [1; 2] [] []
           Toy.default256 sha256_New); try reflexivity; discriminate.
Defined.

(** C7, counterexample: under a P-224 key without bound parameters a
    frame starting with 5 is refused for its parameters, not as an
    invalid public key. *)
Lemma Decrypt_leading_byte_P224_counterexample :
  Decrypt (L := Toy.lib) (PrivateKey_KeyProvider Toy.prv224) [5] [] []
  = Err ErrUnsupportedECIESParameters
  /\ Decrypt (L := Toy.lib) (PrivateKey_KeyProvider Toy.prv224) [5] [] []
     <> Err ErrInvalidPublicKey.
Proof. split; [reflexivity | vm_compute; discriminate]. Qed.


(** C10, witness: the one-byte body under a valid tag. *)
Lemma Decrypt_short_body_panics_witness :
  Decrypt (L := Toy.lib) (PrivateKey_KeyProvider Toy.prv) Toy.short_frame [] []
  = Panic.
Proof.
  apply (Decrypt_short_body_panics (OK := ToyFacts.lib_ok)
           (PrivateKey_KeyProvider Toy.prv) Toy.default256 sha256_New
           Toy.short_block 10 (Toy.ordinate 10) Toy.short_point [0]
           Toy.short_secret (fst (fst Toy.short_keys))
           (snd (fst Toy.short_keys)) [] [] (snd Toy.short_keys)).
  - reflexivity.
  - reflexivity.
  - exact (sha256_size (CryptoLibOK := ToyFacts.lib_ok)).
  - vm_compute. split; [discriminate | reflexivity].
  - reflexivity.
  - reflexivity.
  - vm_compute. reflexivity.
  - vm_compute. reflexivity.
  - vm_compute. reflexivity.
  - vm_compute. split; [discriminate | reflexivity].
  - vm_compute. reflexivity.
Defined.

(** * Further properties of the code *)

(** ** Key agreement: width and errors *)

Section SharedSecret.

Context {L : CryptoLib}.

(** X1.  Whatever the curve library returns, a secret [GenerateShared]
    returns has exactly [ceil(BitSize/8)] bytes, is the big-endian
    abscissa of the product point, and the two keys are on one curve. *)
Theorem GenerateShared_fixed_width (prv : PrivateKey) (pub : PublicKey)
    (z : list Z) :
  0 <= BitSize (Curve pub) < 2 ^ 62 ->
  GenerateShared prv pub = Ok z ->
  len z = (BitSize (Curve pub) + 7) / 8
  /\ Curve (Public prv) = Curve pub
  /\ exists x y,
       ScalarMult (Curve pub) (X pub) (Y pub) (Bytes (D prv)) = Some (x, y)
       /\ SetBytes z = Z.abs x.
Proof.
  intros Hbits H. unfold GenerateShared in H.
  destruct (curve_eqb (Curve (PrivateKey_PublicKey prv)) (Curve pub)) eqn:Hc;
    cbn [negb] in H; [| discriminate].
  destruct (ScalarMult (Curve pub) (X pub) (Y pub) (Bytes (D prv)))
    as [[x y] |] eqn:Hmul; [| discriminate].
  apply bind_Ok in H. destruct H as (out & Hout & H).
  rewrite add_small in Hout by (apply in_range_intro; lia).
  rewrite quot_small in Hout by (unfold GoInt.max_int; lia).
  apply make_inv in Hout. destruct Hout as (Hn & -> & Hlen).
  unfold FillBytes in H.
  destruct (Z.leb_spec (256 ^ len (repeat 0 (Z.to_nat ((BitSize (Curve pub) + 7) / 8))))
              (Z.abs x)) as [| Hfit]; [discriminate |].
  inversion H; subst z; clear H.
  split; [| split].
  - unfold len. rewrite be_digits_length. exact Hlen.
  - unfold Public. now apply curve_eqb_eq.
  - exists x, y. split; [reflexivity |].
    apply SetBytes_be_digits. unfold len in Hfit. lia.
Qed.

(** X2.  Keys on different curves never agree: [GenerateShared] returns
    the invalid-curve error without multiplying. *)
Theorem GenerateShared_cross_curve (prv : PrivateKey) (pub : PublicKey) :
  Curve (Public prv) <> Curve pub ->
  GenerateShared prv pub = Err ErrInvalidCurve.
Proof.
  intros Hne. unfold GenerateShared.
  destruct (curve_eqb (Curve (PrivateKey_PublicKey prv)) (Curve pub)) eqn:Hc;
    [| reflexivity].
  apply curve_eqb_eq in Hc. contradiction.
Qed.

End SharedSecret.

(** ** The KDF counter and the blocks of the KDF *)

Lemma SetBytes_range (l : list Z) :
  Forall (fun b => 0 <= b < 256) l ->
  0 <= SetBytes l < 256 ^ Z.of_nat (length l).
Proof.
  induction l as [| x l IH] using rev_ind; intros HF.
  - unfold SetBytes. simpl. lia.
  - apply Forall_app in HF. destruct HF as [Hl Hx].
    inversion Hx; subst. specialize (IH Hl).
    rewrite SetBytes_snoc, length_app. simpl length.
    rewrite Nat2Z.inj_add, Z.pow_add_r by lia. simpl (Z.of_nat 1).
    rewrite Z.pow_1_r. nia.
Qed.

(** Digits in range are recovered from their value. *)
Lemma be_digits_SetBytes (l : list Z) :
  Forall (fun b => 0 <= b < 256) l ->
  be_digits (length l) (SetBytes l) = l.
Proof.
  induction l as [| x l IH] using rev_ind; intros HF; [reflexivity |].
  apply Forall_app in HF. destruct HF as [Hl Hx]. inversion Hx; subst.
  rewrite length_app, Nat.add_comm. simpl length. simpl be_digits.
  rewrite SetBytes_snoc.
  rewrite Z.div_add_l by lia. rewrite Z.div_small by lia.
  rewrite Z.add_0_r, IH by exact Hl.
  rewrite Z.add_comm, Z.mod_add by lia. now rewrite Z.mod_small by lia.
Qed.

Lemma be_digits_range (n : nat) (x : Z) :
  Forall (fun b => 0 <= b < 256) (be_digits n x).
Proof.
  revert x. induction n as [| n IH]; intros x; simpl; [constructor |].
  apply Forall_app. split; [apply IH |].
  constructor; [apply Z.mod_pos_bound; lia | constructor].
Qed.

Lemma be_digits_mod (n : nat) (x : Z) :
  be_digits n (x mod 256 ^ Z.of_nat n) = be_digits n x.
Proof.
  revert x. induction n as [| n IH]; intros x; [reflexivity |].
  cbn [be_digits].
  rewrite Nat2Z.inj_succ, Z.pow_succ_r by lia.
  assert (Hp : 0 < 256 ^ Z.of_nat n) by (apply Z.pow_pos_nonneg; lia).
  f_equal.
  - rewrite <- (IH (x / 256)). f_equal.
    rewrite Z.rem_mul_r by lia.
    rewrite Z.mul_comm, Z.div_add by lia.
    rewrite (Z.div_small (x mod 256) 256) by (apply Z.mod_pos_bound; lia).
    reflexivity.
  - f_equal. rewrite Z.rem_mul_r by lia.
    rewrite Z.mul_comm, Z.mod_add by lia. apply Z.mod_mod. lia.
Qed.

Lemma inc_byte_cases (b : Z) :
  0 <= b < 256 ->
  (b = 255 /\ inc_byte b = 0) \/ (b < 255 /\ inc_byte b = b + 1).
Proof.
  intros Hb. unfold inc_byte. destruct (Z.eq_dec b 255) as [-> | Hne].
  - left. split; reflexivity.
  - right. split; [lia |]. apply Z.mod_small. lia.
Qed.

(** The carries of [incCounter], byte by byte. *)
Lemma incCounter_carry (c0 c1 c2 c3 : Z) :
  0 <= c0 < 256 -> 0 <= c1 < 256 -> 0 <= c2 < 256 -> 0 <= c3 < 256 ->
  exists ctr,
    incCounter [c0; c1; c2; c3] = Ok ctr
    /\ length ctr = 4%nat
    /\ Forall (fun b => 0 <= b < 256) ctr
    /\ SetBytes ctr = (SetBytes [c0; c1; c2; c3] + 1) mod 2 ^ 32.
Proof.
  intros H0 H1 H2 H3. unfold incCounter.
  assert (Hv : SetBytes [c0; c1; c2; c3]
               = ((c0 * 256 + c1) * 256 + c2) * 256 + c3)
    by (unfold SetBytes; simpl; lia).
  rewrite Hv.
  destruct (inc_byte_cases c3 H3) as [[-> ->] | [Hlt ->]].
  2:{ destruct (Z.eqb_spec (c3 + 1) 0); [lia |]. cbn [negb].
      eexists. split; [reflexivity |]. split; [reflexivity |]. split.
      - repeat constructor; lia.
      - unfold SetBytes. simpl. rewrite Z.mod_small; lia. }
  cbn [Z.eqb negb].
  destruct (inc_byte_cases c2 H2) as [[-> ->] | [Hlt ->]].
  2:{ destruct (Z.eqb_spec (c2 + 1) 0); [lia |]. cbn [negb].
      eexists. split; [reflexivity |]. split; [reflexivity |]. split.
      - repeat constructor; lia.
      - unfold SetBytes. simpl. rewrite Z.mod_small; lia. }
  cbn [Z.eqb negb].
  destruct (inc_byte_cases c1 H1) as [[-> ->] | [Hlt ->]].
  2:{ destruct (Z.eqb_spec (c1 + 1) 0); [lia |]. cbn [negb].
      eexists. split; [reflexivity |]. split; [reflexivity |]. split.
      - repeat constructor; lia.
      - unfold SetBytes. simpl. rewrite Z.mod_small; lia. }
  cbn [Z.eqb negb].
  destruct (inc_byte_cases c0 H0) as [[-> ->] | [Hlt ->]].
  - eexists. split; [reflexivity |]. split; [reflexivity |]. split.
    + repeat constructor; lia.
    + reflexivity.
  - eexists. split; [reflexivity |]. split; [reflexivity |]. split.
    + repeat constructor; lia.
    + unfold SetBytes. simpl. rewrite Z.mod_small; lia.
Qed.

(** X3.  [incCounter] adds one to a four-byte big-endian counter and
    wraps at [2^32]; the result is again four bytes in range. *)
Theorem incCounter_increments (c0 c1 c2 c3 : Z) :
  0 <= c0 < 256 -> 0 <= c1 < 256 -> 0 <= c2 < 256 -> 0 <= c3 < 256 ->
  exists ctr,
    incCounter [c0; c1; c2; c3] = Ok ctr
    /\ length ctr = 4%nat
    /\ Forall (fun b => 0 <= b < 256) ctr
    /\ SetBytes ctr = (SetBytes [c0; c1; c2; c3] + 1) mod 2 ^ 32.
Proof. apply incCounter_carry. Qed.

Lemma SetBytes_be_digits_mod (n : nat) (x : Z) :
  SetBytes (be_digits n x) = x mod 256 ^ Z.of_nat n.
Proof.
  rewrite <- be_digits_mod. apply SetBytes_be_digits.
  apply Z.mod_pos_bound. apply Z.pow_pos_nonneg; lia.
Qed.

(** On the four bytes of [c], [incCounter] gives the four bytes of
    [c + 1]. *)
Lemma incCounter_be (c : Z) :
  incCounter (be_digits 4 c) = Ok (be_digits 4 (c + 1)).
Proof.
  pose proof (be_digits_length 4 c) as Hl.
  pose proof (be_digits_range 4 c) as Hr.
  pose proof (SetBytes_be_digits_mod 4 c) as Hv.
  destruct (be_digits 4 c) as [| c0 [| c1 [| c2 [| c3 [| ? ?]]]]];
    try discriminate.
  inversion Hr as [| ? ? H0 Hr1]; subst.
  inversion Hr1 as [| ? ? H1 Hr2]; subst.
  inversion Hr2 as [| ? ? H2 Hr3]; subst.
  inversion Hr3 as [| ? ? H3 _]; subst.
  destruct (incCounter_carry c0 c1 c2 c3 H0 H1 H2 H3)
    as (ctr & -> & Hlen & Hrange & Hval).
  f_equal. rewrite <- (be_digits_SetBytes ctr Hrange), Hlen, Hval, Hv.
  change (2 ^ 32) with (256 ^ Z.of_nat 4).
  rewrite be_digits_mod, <- (be_digits_mod 4 (c + 1)).
  rewrite <- (be_digits_mod 4 (c mod 256 ^ Z.of_nat 4 + 1)).
  now rewrite Zplus_mod_idemp_l.
Qed.

Lemma kdf_blocks_succ (a : HashAlg) (z s1 : list Z) (c : Z) (n : nat) :
  kdf_blocks a z s1 c (S n)
  = digest a (be_digits 4 c ++ z ++ s1) ++ kdf_blocks a z s1 (c + 1) n.
Proof.
  unfold kdf_blocks. rewrite <- cons_seq, <- seq_shift.
  cbn [map concat]. rewrite map_map, Z.add_0_r. f_equal. f_equal.
  apply map_ext. intros i. do 3 f_equal. lia.
Qed.

(** From a fresh hash, the loop appends the digests of the successive
    counters and leaves the hash fresh. *)
Lemma concatKDF_loop_blocks (n : nat) (a : HashAlg) (z s1 : list Z) :
  forall (c : Z) (k : list Z),
    concatKDF_loop n (New a) (be_digits 4 c) k z s1
    = Ok (k ++ kdf_blocks a z s1 c n, New a).
Proof.
  induction n as [| n IH]; intros c k.
  - simpl. unfold kdf_blocks. simpl. now rewrite app_nil_r.
  - cbn [concatKDF_loop]. rewrite incCounter_be. cbn [bind].
    unfold Reset, Write, Sum. cbn [alg written New app].
    rewrite IH, kdf_blocks_succ, <- !app_assoc. reflexivity.
Qed.

(** X4.  Output of the KDF: from a fresh hash, [concatKDF] returns the
    first [kdLen] bytes of
    [H(00000001 || z || s1) || H(00000002 || z || s1) || ...], over
    [(kdLen+7)/BlockSize + 1] counters, whenever these digests hold
    [kdLen] bytes, and leaves the hash fresh. *)
Theorem concatKDF_blocks (a : HashAlg) (z s1 : list Z) (kdLen : Z) :
  0 < hash_BlockSize a < 2 ^ 31 -> 0 <= kdLen < 2 ^ 31 ->
  kdLen
  <= len (kdf_blocks a z s1 1
            (Z.to_nat ((kdLen + 7) / hash_BlockSize a + 1))) ->
  concatKDF (New a) z s1 kdLen
  = Ok (firstn (Z.to_nat kdLen)
          (kdf_blocks a z s1 1
             (Z.to_nat ((kdLen + 7) / hash_BlockSize a + 1))),
        New a).
Proof.
  intros Hbs Hk Hcover. unfold concatKDF. cbn [alg New].
  destruct (reps_small _ _ Hbs Hk) as [-> ->].
  assert (Hreps : 0 <= (kdLen + 7) / hash_BlockSize a < 2 ^ 32).
  { split; [apply Z.div_pos; lia | apply Z.div_lt_upper_bound; lia]. }
  destruct (Z.gtb_spec ((kdLen + 7) / hash_BlockSize a) big2To32M1)
    as [Hgt | _].
  { unfold big2To32M1, big2To32 in Hgt. lia. }
  change [0; 0; 0; 1] with (be_digits 4 1).
  rewrite concatKDF_loop_blocks. cbn [bind app].
  unfold slice_to.
  destruct (Z.ltb_spec kdLen 0); [lia |].
  match goal with
  | |- context [len ?l <? kdLen] => destruct (Z.ltb_spec (len l) kdLen)
  end; [lia |].
  reflexivity.
Qed.


(** ** The symmetric layer and the randomness of [Encrypt] *)

Section SymmetricMore.

Context {L : CryptoLib} {OK : CryptoLibOK L}.

Lemma generateIV_prefix (params : ECIESParams) (rand rand' : Reader)
    (iv : list Z) :
  generateIV params rand = Ok (iv, rand') ->
  iv = firstn (Z.to_nat (BlockSize params)) rand
  /\ len iv = BlockSize params /\ BlockSize params <= len rand.
Proof.
  intros H. pose proof (generateIV_length _ _ _ _ H) as Hlen.
  unfold generateIV in H. apply bind_Ok in H.
  destruct H as (iv0 & Hmake & Hread).
  apply make_inv in Hmake. destruct Hmake as (Hbs & -> & _).
  rewrite repeat_length in Hread. unfold io_ReadFull in Hread.
  destruct (Nat.eqb_spec (Z.to_nat (BlockSize params)) 0) as [E | _].
  - inversion Hread; subst. rewrite E. simpl. unfold len in *.
    simpl in *. repeat split; lia.
  - destruct (Nat.eqb (length rand) 0); [discriminate |].
    destruct (Nat.ltb_spec (length rand) (Z.to_nat (BlockSize params)));
      [discriminate |].
    inversion Hread; subst. unfold len in *. repeat split; lia.
Qed.

(** The output of [symEncrypt], with the IV it read. *)
Lemma symEncrypt_inv_iv (rand : Reader) (params : ECIESParams)
    (key m em : list Z) :
  BlockSize params < 2 ^ 31 -> fits_memory m ->
  symEncrypt rand params key m = Ok em ->
  exists blk,
    call_Cipher (Cipher params) key = Ok blk
    /\ 0 <= BlockSize params <= len rand
    /\ em = firstn (Z.to_nat (BlockSize params)) rand
            ++ xor_bytes m
                 (ctr_keystream blk
                    (firstn (Z.to_nat (BlockSize params)) rand) (length m)).
Proof.
  intros Hbs Hfit H.
  destruct (symEncrypt_inv _ _ _ _ _ Hbs Hfit H)
    as (blk & iv & Hc & Hiv & _ & ->).
  unfold symEncrypt in H. rewrite Hc in H. cbn [bind] in H.
  apply bind_Ok in H. destruct H as ([iv' r'] & Hgen & H).
  destruct (generateIV_prefix _ _ _ _ Hgen) as (-> & Hlen' & Hle).
  apply bind_Ok in H. destruct H as (ctr & Hctr & H).
  apply bind_Ok in H. destruct H as (ct & Hmake & H).
  apply bind_Ok in H. destruct H as (dst & Hdst & H).
  apply bind_Ok in H. destruct H as (dst' & Hxor & H).
  (* the frame starts with the IV that was read *)
  unfold fits_memory in Hfit. pose proof (len_nonneg m).
  set (iv' := firstn (Z.to_nat (BlockSize params)) rand) in *.
  pose proof (len_nonneg iv').
  rewrite add_small in Hmake by (apply in_range_intro; lia).
  apply make_inv in Hmake. destruct Hmake as (_ & -> & _).
  assert (Hcopy : copy_at (repeat 0 (Z.to_nat (len m + BlockSize params)))
                    0 iv'
                  = iv' ++ repeat 0 (length m)).
  { rewrite copy_at_0 by (rewrite repeat_length; unfold len in *; lia).
    rewrite skipn_repeat. do 2 f_equal. unfold len in *. lia. }
  rewrite Hcopy in H.
  replace (Z.to_nat (BlockSize params)) with (length iv') in H
    by (unfold len in *; lia).
  assert (Hd : length dst' = length m).
  { rewrite Hcopy, <- Hlen', slice_from_app in Hdst.
    inversion Hdst; subst dst.
    rewrite XORKeyStream_same_length in Hxor by apply repeat_length.
    inversion Hxor; subst dst'.
    apply xor_bytes_length. now rewrite keystream_length. }
  rewrite copy_at_app in H by (rewrite repeat_length; lia).
  rewrite skipn_all2, app_nil_r in H by (rewrite repeat_length; lia).
  inversion H as [E].
  assert (Hivs : iv = iv').
  { assert (Hll : length iv = length iv') by (unfold len in *; lia).
    apply (f_equal (firstn (length iv))) in E.
    rewrite (firstn_app (length iv) iv), firstn_all, Nat.sub_diag in E.
    rewrite Hll in E at 1.
    rewrite (firstn_app (length iv') iv'), firstn_all, Nat.sub_diag in E.
    simpl in E. rewrite !app_nil_r in E. now symmetry. }
  subst iv. exists blk. repeat split; try assumption; lia.
Qed.

(** X6.  The symmetric layer: what [symEncrypt] returns is the IV read
    from the randomness source followed by as many bytes as the message
    has, and [symDecrypt] under the same key gives the message back. *)
Theorem symDecrypt_inverts_symEncrypt (rand : Reader) (params : ECIESParams)
    (key m em : list Z) :
  BlockSize params < 2 ^ 31 -> fits_memory m ->
  symEncrypt rand params key m = Ok em ->
  symDecrypt params key em = Ok m
  /\ len em = BlockSize params + len m
  /\ firstn (Z.to_nat (BlockSize params)) em
     = firstn (Z.to_nat (BlockSize params)) rand.
Proof.
  intros Hbs Hfit H.
  split; [eapply symDecrypt_symEncrypt; eauto |].
  destruct (symEncrypt_inv_iv _ _ _ _ _ Hbs Hfit H) as (blk & _ & Hr & ->).
  set (iv := firstn (Z.to_nat (BlockSize params)) rand).
  assert (Hiv : length iv = Z.to_nat (BlockSize params)).
  { subst iv. rewrite length_firstn. unfold len in Hr. lia. }
  split.
  - rewrite len_app. unfold len.
    rewrite xor_bytes_length by (now rewrite keystream_length). lia.
  - rewrite <- Hiv, firstn_app, firstn_all, Nat.sub_diag. simpl.
    apply app_nil_r.
Qed.

(** X7.  No IV, no ciphertext: when the randomness left after the
    ephemeral key holds fewer bytes than the block size, [Encrypt]
    returns no ciphertext, for any message. *)
Theorem Encrypt_needs_iv (rand rand' : Reader) (pub : PublicKey)
    (R : PrivateKey) (m s1 s2 : list Z) (params : ECIESParams) :
  resolve_params pub = Ok params ->
  GenerateKey rand (Curve pub) (Some params) = Ok (R, rand') ->
  len rand' < BlockSize params ->
  forall ct, Encrypt rand pub m s1 s2 <> Ok ct.
Proof.
  intros Hres Hgen Hshort ct H. unfold Encrypt in H.
  rewrite Hres in H. cbn [bind] in H. rewrite Hgen in H. cbn [bind] in H.
  apply bind_Ok in H. destruct H as (hash & _ & H).
  apply bind_Ok in H. destruct H as (z & _ & H).
  apply bind_Ok in H. destruct H as ([[Ke Km] h] & _ & H).
  apply bind_Ok in H. destruct H as (em & Hem & _).
  unfold symEncrypt in Hem.
  apply bind_Ok in Hem. destruct Hem as (blk & _ & Hem).
  apply bind_Ok in Hem. destruct Hem as ([iv r] & Hiv & _).
  destruct (generateIV_prefix _ _ _ _ Hiv) as (_ & _ & Hle). lia.
Qed.

End SymmetricMore.

(** ** Parsing in [Decrypt] *)

Lemma slice_to_inv (s t : list Z) (n : Z) :
  slice_to s n = Ok t -> 0 <= n <= len s /\ t = firstn (Z.to_nat n) s.
Proof.
  unfold slice_to. destruct (Z.ltb_spec n 0) as [? | ?]; [discriminate |].
  destruct (Z.ltb_spec (len s) n); [discriminate |]. simpl.
  intros Heq. inversion Heq. split; [lia | reflexivity].
Qed.

Lemma slice_from_inv (s t : list Z) (n : Z) :
  slice_from s n = Ok t -> 0 <= n <= len s /\ t = skipn (Z.to_nat n) s.
Proof.
  unfold slice_from. destruct (Z.ltb_spec n 0) as [? | ?]; [discriminate |].
  destruct (Z.ltb_spec (len s) n); [discriminate |]. simpl.
  intros Heq. inversion Heq. split; [lia | reflexivity].
Qed.

Lemma slice_inv (s t : list Z) (lo hi : Z) :
  slice s lo hi = Ok t ->
  0 <= lo <= hi /\ hi <= len s
  /\ t = firstn (Z.to_nat (hi - lo)) (skipn (Z.to_nat lo) s).
Proof.
  unfold slice. destruct (Z.ltb_spec lo 0); [discriminate |].
  destruct (Z.ltb_spec hi lo); [discriminate |].
  destruct (Z.ltb_spec (len s) hi); [discriminate |]. simpl.
  intros Heq. inversion Heq. repeat split; lia.
Qed.

Lemma slice_Ok (s : list Z) (lo hi : Z) :
  0 <= lo <= hi -> hi <= len s ->
  slice s lo hi = Ok (firstn (Z.to_nat (hi - lo)) (skipn (Z.to_nat lo) s)).
Proof.
  intros H1 H2. unfold slice. destruct (Z.ltb_spec lo 0); [lia |].
  destruct (Z.ltb_spec hi lo); [lia |].
  destruct (Z.ltb_spec (len s) hi); [lia |]. reflexivity.
Qed.

(** A slice cut at two indices is the concatenation of its three parts. *)
Lemma three_parts (s : list Z) (lo hi : nat) :
  (lo <= hi)%nat ->
  s = firstn lo s ++ firstn (hi - lo) (skipn lo s) ++ skipn hi s.
Proof.
  intros Hle.
  rewrite <- (firstn_skipn lo s) at 1. f_equal.
  rewrite <- (firstn_skipn (hi - lo) (skipn lo s)) at 1. f_equal.
  rewrite skipn_skipn. f_equal. lia.
Qed.

Section Parsing.

Context {L : CryptoLib}.

(** [Decrypt] on a ciphertext starting with 2, 3 or 4, for sizes far
    below the range of [int]: the length check, the point, then the
    steps behind the parse on the body and the tag. *)
Lemma Decrypt_parse (kp : KeyProvider) (params : ECIESParams) (a : HashAlg)
    (c0 : Z) (rest s1 s2 : list Z) :
  resolve_params (KeyProvider_Public kp) = Ok params ->
  Hash params = Some a -> 0 <= Size a < 2 ^ 31 ->
  0 <= BitSize (Curve (KeyProvider_Public kp)) < 2 ^ 31 ->
  c0 = 2 \/ c0 = 3 \/ c0 = 4 ->
  len (c0 :: rest) < 2 ^ 62 ->
  let c := c0 :: rest in
  let curve := Curve (KeyProvider_Public kp) in
  let mStart := body_start c0 curve in
  Decrypt kp c s1 s2
  = if len c <? mStart + Size a + 1 then Err ErrInvalidMessage
    else
      match elliptic_Unmarshal curve (firstn (Z.to_nat mStart) c) with
      | None => Err ErrInvalidPublicKey
      | Some (Rx, Ry) =>
          if negb (IsOnCurve curve Rx Ry) then Err ErrInvalidCurve
          else
            after_parse kp params a Rx Ry
              (firstn (Z.to_nat (len c - Size a - mStart))
                 (skipn (Z.to_nat mStart) c))
              (skipn (Z.to_nat (len c - Size a)) c) s1 s2
      end.
Proof.
  intros Hres Ha Hsz Hbits Hc0 Hlen. cbv zeta.
  set (curve := Curve (KeyProvider_Public kp)) in *.
  set (mStart := body_start c0 curve) in *.
  assert (Hk : 0 <= (BitSize curve + 7) / 8 < 2 ^ 29).
  { split; [apply Z.div_pos; lia | apply Z.div_lt_upper_bound; lia]. }
  assert (HmS : 1 <= mStart < 2 ^ 31).
  { subst mStart. unfold body_start.
    destruct ((c0 =? 2) || (c0 =? 3)); fold curve; lia. }
  unfold Decrypt. fold curve. rewrite Hres. cbn [bind]. rewrite Ha.
  cbn [bind call_Hash alg New].
  set (c := c0 :: rest) in *.
  rewrite (add_small (BitSize curve) 7) by (apply in_range_intro; lia).
  rewrite quot_small by (unfold GoInt.max_int; lia).
  assert (Hsw : (if (c0 =? 2) || (c0 =? 3)
                 then Ok (1 +i (BitSize curve + 7) / 8)
                 else if c0 =? 4
                      then Ok (1 +i 2 *i ((BitSize curve + 7) / 8))
                      else Err ErrInvalidPublicKey)
                = Ok mStart).
  { subst mStart. unfold body_start.
    rewrite (mul_small 2) by (apply in_range_intro; lia).
    rewrite !add_small by (apply in_range_intro; lia).
    destruct Hc0 as [-> | [-> | ->]]; reflexivity. }
  rewrite Hsw. cbn [bind].
  pose proof (len_nonneg c) as Hc.
  rewrite (add_small mStart (Size a)) by (apply in_range_intro; lia).
  rewrite (add_small (mStart + Size a) 1) by (apply in_range_intro; lia).
  destruct (Z.ltb_spec (len c) (mStart + Size a + 1)) as [| Hlong];
    [reflexivity |].
  rewrite sub_small by (apply in_range_intro; lia).
  unfold slice_to. destruct (Z.ltb_spec mStart 0); [lia |].
  destruct (Z.ltb_spec (len c) mStart); [lia |]. cbn [orb bind].
  destruct (elliptic_Unmarshal curve (firstn (Z.to_nat mStart) c))
    as [[Rx Ry] |]; [| reflexivity].
  cbn [X Y Curve].
  destruct (IsOnCurve curve Rx Ry); cbn [negb]; [| reflexivity].
  unfold after_parse. fold curve.
  destruct (KeyProvider_GenerateShared kp _) as [z | e |]; cbn [bind];
    try reflexivity.
  destruct (derive_keys (New a) params z s1) as [[[Ke Km] h] | e |];
    cbn [bind]; try reflexivity.
  rewrite slice_Ok by lia. cbn [bind].
  unfold messageTag. cbn [bind].
  unfold slice_from. destruct (Z.ltb_spec (len c - Size a) 0); [lia |].
  destruct (Z.ltb_spec (len c) (len c - Size a)); [lia |]. cbn [orb bind].
  replace (len c - Size a - mStart) with (len c - Size a - mStart) by lia.
  reflexivity.
Qed.

(** X8.  Truncation: a ciphertext that starts with 2, 3 or 4 and is
    shorter than the point, the tag and one byte of body is rejected as
    an invalid message, before the point is decoded. *)
Theorem Decrypt_truncated (kp : KeyProvider) (params : ECIESParams)
    (a : HashAlg) (c0 : Z) (rest s1 s2 : list Z) :
  resolve_params (KeyProvider_Public kp) = Ok params ->
  Hash params = Some a -> 0 <= Size a < 2 ^ 31 ->
  0 <= BitSize (Curve (KeyProvider_Public kp)) < 2 ^ 31 ->
  c0 = 2 \/ c0 = 3 \/ c0 = 4 ->
  len (c0 :: rest)
  < body_start c0 (Curve (KeyProvider_Public kp)) + Size a + 1 ->
  Decrypt kp (c0 :: rest) s1 s2 = Err ErrInvalidMessage.
Proof.
  intros Hres Ha Hsz Hbits Hc0 Hshort.
  assert (Hk : 0 <= (BitSize (Curve (KeyProvider_Public kp)) + 7) / 8 < 2 ^ 29).
  { split; [apply Z.div_pos; lia | apply Z.div_lt_upper_bound; lia]. }
  assert (HmS : body_start c0 (Curve (KeyProvider_Public kp)) < 2 ^ 31).
  { unfold body_start. destruct ((c0 =? 2) || (c0 =? 3)); lia. }
  rewrite (Decrypt_parse kp params a c0 rest s1 s2) by (auto; lia).
  destruct (Z.ltb_spec (len (c0 :: rest))
              (body_start c0 (Curve (KeyProvider_Public kp)) + Size a + 1));
    [reflexivity | lia].
Qed.

(** X9.  The point of a frame: in a ciphertext long enough, a leading
    point that [elliptic.Unmarshal] refuses gives the invalid-public-key
    error, and one it returns off the curve gives the invalid-curve
    error; neither reaches the key provider. *)
Theorem Decrypt_bad_point (kp : KeyProvider) (params : ECIESParams)
    (a : HashAlg) (c0 : Z) (rest s1 s2 : list Z) :
  resolve_params (KeyProvider_Public kp) = Ok params ->
  Hash params = Some a -> 0 <= Size a < 2 ^ 31 ->
  0 <= BitSize (Curve (KeyProvider_Public kp)) < 2 ^ 31 ->
  c0 = 2 \/ c0 = 3 \/ c0 = 4 ->
  body_start c0 (Curve (KeyProvider_Public kp)) + Size a + 1
  <= len (c0 :: rest) < 2 ^ 62 ->
  (elliptic_Unmarshal (Curve (KeyProvider_Public kp))
     (firstn (Z.to_nat (body_start c0 (Curve (KeyProvider_Public kp))))
        (c0 :: rest)) = None ->
   Decrypt kp (c0 :: rest) s1 s2 = Err ErrInvalidPublicKey)
  /\ (forall x y,
         elliptic_Unmarshal (Curve (KeyProvider_Public kp))
           (firstn (Z.to_nat (body_start c0 (Curve (KeyProvider_Public kp))))
              (c0 :: rest)) = Some (x, y) ->
         IsOnCurve (Curve (KeyProvider_Public kp)) x y = false ->
         Decrypt kp (c0 :: rest) s1 s2 = Err ErrInvalidCurve).
Proof.
  intros Hres Ha Hsz Hbits Hc0 Hlen.
  rewrite (Decrypt_parse kp params a c0 rest s1 s2) by (auto; lia).
  destruct (Z.ltb_spec (len (c0 :: rest))
              (body_start c0 (Curve (KeyProvider_Public kp)) + Size a + 1));
    [lia |].
  split.
  - intros ->. reflexivity.
  - intros x y -> ->. reflexivity.
Qed.

(** X10.  The key provider's failure: on a frame long enough whose
    point decodes to a point of the curve, an error of the provider's
    key agreement is the error [Decrypt] returns. *)
Theorem Decrypt_provider_error (kp : KeyProvider) (params : ECIESParams)
    (a : HashAlg) (c0 : Z) (rest s1 s2 : list Z) (x y : Z) (e : Error) :
  resolve_params (KeyProvider_Public kp) = Ok params ->
  Hash params = Some a -> 0 <= Size a < 2 ^ 31 ->
  0 <= BitSize (Curve (KeyProvider_Public kp)) < 2 ^ 31 ->
  c0 = 2 \/ c0 = 3 \/ c0 = 4 ->
  body_start c0 (Curve (KeyProvider_Public kp)) + Size a + 1
  <= len (c0 :: rest) < 2 ^ 62 ->
  elliptic_Unmarshal (Curve (KeyProvider_Public kp))
    (firstn (Z.to_nat (body_start c0 (Curve (KeyProvider_Public kp))))
       (c0 :: rest)) = Some (x, y) ->
  IsOnCurve (Curve (KeyProvider_Public kp)) x y = true ->
  KeyProvider_GenerateShared kp
    {| X := x; Y := y; Curve := Curve (KeyProvider_Public kp);
       Params := None |} = Err e ->
  Decrypt kp (c0 :: rest) s1 s2 = Err e.
Proof.
  intros Hres Ha Hsz Hbits Hc0 Hlen Hun Hon Herr.
  rewrite (Decrypt_parse kp params a c0 rest s1 s2) by (auto; lia).
  destruct (Z.ltb_spec (len (c0 :: rest))
              (body_start c0 (Curve (KeyProvider_Public kp)) + Size a + 1));
    [lia |].
  rewrite Hun, Hon. cbn [negb]. unfold after_parse. rewrite Herr.
  reflexivity.
Qed.

(** X11.  Authenticity: [Decrypt] returns a plaintext only for a
    ciphertext made of a point that decodes onto the curve, a body and a
    tag, where the tag is the HMAC of the body and [s2] under the MAC
    key derived from the provider's shared secret, and the plaintext is
    the symmetric decryption of that body. *)
Theorem Decrypt_authentic (kp : KeyProvider) (c s1 s2 m : list Z) :
  Decrypt kp c s1 s2 = Ok m ->
  exists (params : ECIESParams) (a : HashAlg) (point body tag : list Z)
         (Rx Ry : Z) (z Ke Km : list Z) (h : hash_Hash),
    resolve_params (KeyProvider_Public kp) = Ok params
    /\ Hash params = Some a
    /\ c = point ++ body ++ tag
    /\ elliptic_Unmarshal (Curve (KeyProvider_Public kp)) point
       = Some (Rx, Ry)
    /\ IsOnCurve (Curve (KeyProvider_Public kp)) Rx Ry = true
    /\ KeyProvider_GenerateShared kp
         {| X := Rx; Y := Ry; Curve := Curve (KeyProvider_Public kp);
            Params := None |} = Ok z
    /\ derive_keys (New a) params z s1 = Ok (Ke, Km, h)
    /\ tag = hmac_Sum a Km (body ++ s2)
    /\ symDecrypt params Ke body = Ok m.
Proof.
  intros H. unfold Decrypt in H.
  destruct c as [| c0 rest]; [discriminate |].
  set (c := c0 :: rest) in *.
  apply bind_Ok in H. destruct H as (params & Hres & H).
  apply bind_Ok in H. destruct H as (hash & Hhash & H).
  destruct (Hash params) as [a |] eqn:Ha; [| discriminate].
  cbn [call_Hash] in Hhash. inversion Hhash; subst hash; clear Hhash.
  apply bind_Ok in H. destruct H as (mStart & _ & H).
  destruct (len c <? mStart +i Size (alg (New a)) +i 1); [discriminate |].
  apply bind_Ok in H. destruct H as (point & Hpoint & H).
  destruct (elliptic_Unmarshal (Curve (KeyProvider_Public kp)) point)
    as [[Rx Ry] |] eqn:Hun; [| discriminate].
  cbn [X Y Curve] in H.
  destruct (IsOnCurve (Curve (KeyProvider_Public kp)) Rx Ry) eqn:Hon;
    cbn [negb] in H; [| discriminate].
  apply bind_Ok in H. destruct H as (z & Hz & H).
  apply bind_Ok in H. destruct H as ([[Ke Km] h] & Hkeys & H).
  apply bind_Ok in H. destruct H as (body & Hbody & H).
  unfold messageTag in H at 1. cbn [bind] in H.
  apply bind_Ok in H. destruct H as (tag & Htag & H).
  destruct (ConstantTimeCompare tag (hmac_Sum a Km (body ++ s2)) =? 1)
    eqn:Hcmp; cbn [negb] in H; [| discriminate].
  apply Z.eqb_eq, ConstantTimeCompare_1 in Hcmp.
  apply slice_to_inv in Hpoint. destruct Hpoint as (Hp & ->).
  apply slice_inv in Hbody. destruct Hbody as (Hlo & Hhi & ->).
  apply slice_from_inv in Htag. destruct Htag as (Ht & ->).
  exists params, a, (firstn (Z.to_nat mStart) c),
    (firstn (Z.to_nat (len c -i Size (alg (New a)) - mStart))
       (skipn (Z.to_nat mStart) c)),
    (skipn (Z.to_nat (len c -i Size (alg (New a)))) c),
    Rx, Ry, z, Ke, Km, h.
  repeat split; try assumption.
  rewrite Z2Nat.inj_sub by lia. apply three_parts. lia.
Qed.

End Parsing.

(** ** The frame and its shared infos *)

Section FrameMore.

Context {L : CryptoLib} {OK : CryptoLibOK L}.

(** X12.  Layout of a frame: the ciphertext [Encrypt] returns for a
    non-empty message is the uncompressed encoding of the ephemeral
    public key, starting with the byte 4 and decoding back to that
    point, then the IV, which is the next [BlockSize] bytes of the
    randomness source, then as many bytes as the message has, then
    [hash.Size()] bytes of tag. *)
Theorem Encrypt_frame_layout (rand rand' : Reader) (pub : PublicKey)
    (R : PrivateKey) (m s1 s2 ct : list Z) (params : ECIESParams)
    (a : HashAlg) :
  resolve_params pub = Ok params -> params_ok params ->
  Hash params = Some a ->
  fits_memory m -> m <> [] ->
  GenerateKey rand (Curve pub) (Some params) = Ok (R, rand') ->
  Encrypt rand pub m s1 s2 = Ok ct ->
  exists Rb body tag,
    ct = Rb ++ firstn (Z.to_nat (BlockSize params)) rand' ++ body ++ tag
    /\ elliptic_Marshal (Curve pub) (X (Public R)) (Y (Public R)) = Ok Rb
    /\ elliptic_Unmarshal (Curve pub) Rb = Some (X (Public R), Y (Public R))
    /\ hd 0 ct = 4
    /\ len Rb = 1 + 2 * ((BitSize (Curve pub) + 7) / 8)
    /\ len (firstn (Z.to_nat (BlockSize params)) rand') = BlockSize params
    /\ len body = len m
    /\ len tag = Size a.
Proof.
  intros Hres Hpok Ha Hfit Hne Hgen Henc.
  destruct (Encrypt_inv _ _ _ _ _ _ _ Hres Hpok Hfit Hne Henc)
    as (R0 & rand0 & a' & z & Ke & Km & h & em & Rb
        & Hgen0 & Ha' & Hz & Hkeys & Hem & Hlen & Hbs0 & HRb & ->).
  rewrite Hgen in Hgen0. inversion Hgen0; subst R0 rand0; clear Hgen0.
  rewrite Ha in Ha'. inversion Ha'; subst a'; clear Ha'.
  destruct Hpok as [(a' & Ha' & Hok & Hsz) Hbs].
  rewrite Ha in Ha'. inversion Ha'; subst a'; clear Ha'.
  destruct (GenerateKey_valid _ _ _ _ _ Hgen) as (HR & HcR & Hon).
  destruct (marshal_ok _ _ _ Hon) as (Rb' & HRb' & HlenR & Hhd & Hun).
  rewrite HRb in HRb'. inversion HRb'; subst Rb'; clear HRb'.
  destruct (symEncrypt_inv_iv _ _ _ _ _ Hbs Hfit Hem)
    as (blk & _ & Hr & Eem).
  set (iv := firstn (Z.to_nat (BlockSize params)) rand') in *.
  exists Rb, (xor_bytes m (ctr_keystream blk iv (length m))),
    (hmac_Sum a Km (em ++ s2)).
  assert (Hivl : len iv = BlockSize params).
  { subst iv. unfold len in *. rewrite length_firstn. lia. }
  repeat split; try assumption.
  - rewrite Eem, <- app_assoc. reflexivity.
  - destruct Rb as [| r0 Rb0].
    + change (len (@nil Z)) with 0 in HlenR.
      destruct (on_curve_range _ _ _ Hon) as (_ & _ & Hbits).
      destruct (kLen_small _ Hbits) as [_ Hk]. lia.
    + exact Hhd.
  - unfold len. rewrite xor_bytes_length; [reflexivity |].
    now rewrite keystream_length.
  - now apply hmac_size.
Qed.

(** X13.  The second shared info is bound through the tag only: a
    ciphertext of [m] decrypted under the same key and [s1] but any
    [s2'] gives the invalid-message error or, when the tag verifies,
    the same [m]; never another plaintext, error or panic. *)
Theorem Decrypt_other_S2 (prv : PrivateKey) (rand : Reader)
    (m s1 s2 s2' ct : list Z) (params : ECIESParams) :
  valid_key prv ->
  resolve_params (Public prv) = Ok params -> params_ok params ->
  fits_memory m -> m <> [] ->
  Encrypt rand (Public prv) m s1 s2 = Ok ct ->
  Decrypt (PrivateKey_KeyProvider prv) ct s1 s2' = Err ErrInvalidMessage
  \/ Decrypt (PrivateKey_KeyProvider prv) ct s1 s2' = Ok m.
Proof.
  intros Hprv Hres Hpok Hfit Hne Henc.
  destruct (Encrypt_inv _ _ _ _ _ _ _ Hres Hpok Hfit Hne Henc)
    as (R & rand' & a & z & Ke & Km & h & em & Rb
        & Hgen & Ha & Hz & Hkeys & Hem & Hlen & Hbs0 & HRb & ->).
  destruct Hpok as [(a' & Ha' & Hok & Hsz) Hbs].
  rewrite Ha in Ha'. inversion Ha'; subst a'; clear Ha'.
  destruct (GenerateKey_valid _ _ _ _ _ Hgen) as (HR & HcR & Hon).
  assert (Hmpos : 0 < len m).
  { pose proof (len_nonneg m). destruct (Z.eq_dec (len m) 0) as [E | E];
      [apply len_nil_iff in E; contradiction | lia]. }
  unfold fits_memory in Hfit.
  rewrite (Decrypt_frame (PrivateKey_KeyProvider prv) params a
             (X (Public R)) (Y (Public R)) Rb em _ s1 s2');
    auto; [| lia | now apply hmac_size].
  rewrite (after_parse_sender prv R params a z Ke Km em _ s1 s2' h); auto.
  destruct (ConstantTimeCompare (hmac_Sum a Km (em ++ s2))
              (hmac_Sum a Km (em ++ s2')) =? 1); cbn [negb].
  - right. eapply symDecrypt_symEncrypt; eauto.
  - left. reflexivity.
Qed.

End FrameMore.

(** ** Parameter resolution, key generation and the ECDSA converters *)

Section KeysMore.

Context {L : CryptoLib} {OK : CryptoLibOK L}.

(** X14.  No parameters: for a key that binds none on a curve without
    defaults, [Encrypt] returns the unsupported-parameters error before
    it reads any randomness, and [Decrypt] does for every non-empty
    ciphertext. *)
Theorem unsupported_parameters (kp : KeyProvider) (rand : Reader)
    (m s1 s2 : list Z) (c0 : Z) (rest : list Z) :
  Params (KeyProvider_Public kp) = None ->
  ParamsFromCurve (Curve (KeyProvider_Public kp)) = None ->
  Encrypt rand (KeyProvider_Public kp) m s1 s2
  = Err ErrUnsupportedECIESParameters
  /\ Decrypt kp (c0 :: rest) s1 s2 = Err ErrUnsupportedECIESParameters.
Proof.
  intros Hp Hd. unfold Encrypt, Decrypt, resolve_params.
  rewrite Hp, Hd. split; reflexivity.
Qed.

(** X15.  [GenerateKey] fails exactly as [elliptic.GenerateKey] does,
    also on a curve without defaults; otherwise it returns a valid key
    pair on the curve, whose scalar is the big-endian value of the
    bytes drawn, bound to the given parameters or, without any, to what
    [ParamsFromCurve] gives. *)
Theorem GenerateKey_result (rand : Reader) (curve : EllipticCurve)
    (ps : option ECIESParams) :
  match elliptic_GenerateKey curve rand with
  | Ok (pb, x, y, rand') =>
      exists prv,
        GenerateKey rand curve ps = Ok (prv, rand')
        /\ valid_key prv
        /\ Curve (Public prv) = curve
        /\ X (Public prv) = x /\ Y (Public prv) = y
        /\ D prv = SetBytes pb
        /\ Params (Public prv)
           = match ps with
             | Some p => Some p
             | None => ParamsFromCurve curve
             end
  | Err e => GenerateKey rand curve ps = Err e
  | Panic => GenerateKey rand curve ps = Panic
  end.
Proof.
  destruct (elliptic_GenerateKey curve rand) as [[[[pb x] y] rand'] | e |]
    eqn:Hlib.
  - assert (Hgen : GenerateKey rand curve ps
                   = Ok ({| PrivateKey_PublicKey :=
                              {| X := x; Y := y; Curve := curve;
                                 Params := match ps with
                                           | Some p => Some p
                                           | None => ParamsFromCurve curve
                                           end |};
                            D := SetBytes pb |}, rand')).
    { unfold GenerateKey. rewrite Hlib. cbn [bind].
      destruct ps; reflexivity. }
    eexists. split; [exact Hgen |].
    destruct (GenerateKey_valid _ _ _ _ _ Hgen) as (Hv & _ & _).
    split; [exact Hv |]. repeat split.
  - unfold GenerateKey. rewrite Hlib. reflexivity.
  - unfold GenerateKey. rewrite Hlib. reflexivity.
Qed.

(** X16.  ECDSA converters: exporting an imported ECDSA key gives the
    key back; importing an exported ECIES key keeps the curve, the
    point and the scalar, and replaces the bound parameters by what
    [ParamsFromCurve] gives for the curve. *)
Theorem ECDSA_roundtrip (k : ecdsa_PrivateKey) (prv : PrivateKey) :
  PrivateKey_ExportECDSA (ImportECDSA k) = k
  /\ PublicKey_ExportECDSA (ImportECDSAPublic (ecdsa_PrivateKey_PublicKey k))
     = ecdsa_PrivateKey_PublicKey k
  /\ ImportECDSA (PrivateKey_ExportECDSA prv)
     = {| PrivateKey_PublicKey :=
            {| X := X (Public prv); Y := Y (Public prv);
               Curve := Curve (Public prv);
               Params := ParamsFromCurve (Curve (Public prv)) |};
          D := D prv |}.
Proof.
  destruct k as [[c x y] d], prv as [[px py pc pp] pd].
  repeat split.
Qed.

End KeysMore.

Section Interop.

Context {L : CryptoLib} {OK : CryptoLibOK L}.

(** X17.  Interoperation with ECDSA keys: for a valid ECDSA key pair on
    a curve with default parameters, what [Encrypt] returns for the
    imported public key and a non-empty message is decrypted by
    [Decrypt] under the imported private key to that message. *)
Theorem ImportECDSA_roundtrip (k : ecdsa_PrivateKey) (rand : Reader)
    (m s1 s2 ct : list Z) (params : ECIESParams) :
  valid_key (ImportECDSA k) ->
  ParamsFromCurve (ecdsa_Curve (ecdsa_PrivateKey_PublicKey k)) = Some params ->
  fits_memory m -> m <> [] ->
  Encrypt rand (ImportECDSAPublic (ecdsa_PrivateKey_PublicKey k)) m s1 s2
  = Ok ct ->
  Decrypt (PrivateKey_KeyProvider (ImportECDSA k)) ct s1 s2 = Ok m.
Proof.
  intros Hprv Hp Hfit Hne Henc.
  set (prv := ImportECDSA k) in *.
  change (ImportECDSAPublic (ecdsa_PrivateKey_PublicKey k))
    with (Public prv) in Henc.
  assert (Hres : resolve_params (Public prv) = Ok params).
  { unfold resolve_params. cbn. now rewrite Hp. }
  pose proof (default_params_ok _ _ Hp) as Hpok.
  destruct (Encrypt_inv _ _ _ _ _ _ _ Hres Hpok Hfit Hne Henc)
    as (R & rand' & a & z & Ke & Km & h & em & Rb
        & Hgen & Ha & Hz & Hkeys & Hem & Hlen & Hbs0 & HRb & ->).
  destruct Hpok as [(a' & Ha' & Hok & Hsz) Hbs].
  rewrite Ha in Ha'. inversion Ha'; subst a'; clear Ha'.
  destruct (GenerateKey_valid _ _ _ _ _ Hgen) as (HR & HcR & Hon).
  assert (Hmpos : 0 < len m).
  { pose proof (len_nonneg m). destruct (Z.eq_dec (len m) 0) as [E | E];
      [apply len_nil_iff in E; contradiction | lia]. }
  unfold fits_memory in Hfit.
  rewrite (Decrypt_frame (PrivateKey_KeyProvider prv) params a
             (X (Public R)) (Y (Public R)) Rb em _ s1 s2);
    auto; [| lia | now apply hmac_size].
  rewrite (after_parse_sender prv R params a z Ke Km em _ s1 s2 h); auto.
  rewrite ConstantTimeCompare_refl. cbn [negb].
  eapply symDecrypt_symEncrypt; eauto.
Qed.

End Interop.

(** ** Object identifiers and named curves *)

Lemma all_equal_eq (a b : list Z) :
  length a = length b -> (all_equal a b = true <-> a = b).
Proof.
  revert b. induction a as [| x a IH]; intros [| y b] Hl; simpl in *;
    try discriminate; [tauto |].
  injection Hl as Hl. destruct (Z.eqb_spec x y) as [-> | Hne]; cbn [negb].
  - rewrite (IH b Hl). split; [intros -> | intros E; inversion E];
      reflexivity.
  - split; [discriminate | intros E; inversion E; contradiction].
Qed.

Lemma Equal_eq (a b : list Z) : secgNamedCurve_Equal a b = true <-> a = b.
Proof.
  unfold secgNamedCurve_Equal.
  destruct (Z.eqb_spec (len a) (len b)) as [Hl | Hl]; cbn [negb].
  - apply all_equal_eq. unfold len in Hl. lia.
  - split; [discriminate | intros ->; contradiction].
Qed.

(** X18.  Comparison of identifiers: [Equal] on curve OIDs holds
    exactly on equal component lists, and [Cmp] on algorithm identifiers
    exactly on equal algorithm OIDs, whatever the parameters. *)
Theorem identifier_comparison (a b : secgNamedCurve)
    (x y : asnAlgorithmIdentifier) :
  (secgNamedCurve_Equal a b = true <-> a = b)
  /\ (asnAlgorithmIdentifier_Cmp x y = true <-> Algorithm x = Algorithm y).
Proof.
  split; [apply Equal_eq |].
  unfold asnAlgorithmIdentifier_Cmp.
  destruct (Z.eqb_spec (len (Algorithm x)) (len (Algorithm y))) as [Hl | Hl];
    cbn [negb].
  - apply all_equal_eq. unfold len in Hl. lia.
  - split; [discriminate | intros E; rewrite E in Hl; contradiction].
Qed.

Lemma namedCurveFromOID_inv (oid : secgNamedCurve) (c : EllipticCurve) :
  namedCurveFromOID oid = Some c -> oidFromNamedCurve c = (oid, true).
Proof.
  unfold namedCurveFromOID.
  destruct (secgNamedCurve_Equal oid secgNamedCurveP224) eqn:E1.
  { apply Equal_eq in E1. intros H. inversion H. now subst. }
  destruct (secgNamedCurve_Equal oid secgNamedCurveP256) eqn:E2.
  { apply Equal_eq in E2. intros H. inversion H. now subst. }
  destruct (secgNamedCurve_Equal oid secgNamedCurveP384) eqn:E3.
  { apply Equal_eq in E3. intros H. inversion H. now subst. }
  destruct (secgNamedCurve_Equal oid secgNamedCurveP521) eqn:E4.
  { apply Equal_eq in E4. intros H. inversion H. now subst. }
  discriminate.
Qed.

(** X19.  Named curves: [namedCurveFromOID] and [oidFromNamedCurve] are
    inverse of each other; an OID names a curve exactly when it is the
    registered OID of P-224, P-256, P-384 or P-521. *)
Theorem named_curve_registry (oid : secgNamedCurve) (c : EllipticCurve) :
  namedCurveFromOID oid = Some c <-> oidFromNamedCurve c = (oid, true).
Proof.
  split; [apply namedCurveFromOID_inv | apply namedCurve_roundtrip].
Qed.

(** ** Serialization: refusals and private keys *)

Section SerializationMore.

Context {L : CryptoLib} {C : Codec}.

(** X20.  Unnamed curves: a key on a curve without a registered OID is
    not encoded; the public encoders return the invalid-public-key
    error and the private ones the invalid-private-key error, without
    encoding the point. *)
Theorem Marshal_unnamed_curve (prv : PrivateKey) (oid : secgNamedCurve) :
  oidFromNamedCurve (Curve (Public prv)) = (oid, false) ->
  MarshalPublic (Public prv) = Err ErrInvalidPublicKey
  /\ ExportPublicPEM (Public prv) = Err ErrInvalidPublicKey
  /\ MarshalPrivate prv = Err ErrInvalidPrivateKey
  /\ ExportPrivatePEM prv = Err ErrInvalidPrivateKey.
Proof.
  intros Hoid.
  assert (Hpub : MarshalPublic (Public prv) = Err ErrInvalidPublicKey).
  { unfold MarshalPublic, marshalSubjectPublicKeyInfo. now rewrite Hoid. }
  assert (Hprv : MarshalPrivate prv = Err ErrInvalidPrivateKey).
  { unfold MarshalPrivate, marshalPrivateKey. unfold Public in Hoid.
    now rewrite Hoid. }
  unfold ExportPublicPEM, ExportPrivatePEM. rewrite Hpub, Hprv.
  repeat split.
Qed.

(** X21.  What [UnmarshalPublic] returns: every key it returns is on
    one of the four named curves, carries the point [elliptic.Unmarshal]
    decoded on that curve, and has bound parameters: those the two
    conversions derive from the zero [ECIESParams], never the nil that
    would select the curve default. *)
Theorem UnmarshalPublic_result (der : list Z) (pub : PublicKey) :
  UnmarshalPublic der = Ok pub ->
  exists subj,
    asn1_Unmarshal_public der = Ok subj
    /\ subj_Algorithm subj = idEcPublicKeySupplemented
    /\ oidFromNamedCurve (Curve pub) = (ECDomain (Supplements subj), true)
    /\ elliptic_Unmarshal (Curve pub) (BitString_Bytes (subj_PublicKey subj))
       = Some (X pub, Y pub)
    /\ Params pub
       = Some (asnECDHtoParams (ECDH (ECCAlgorithms (Supplements subj)))
                 (asnECIEStoParams (ECIES (ECCAlgorithms (Supplements subj)))
                    new_ECIESParams)).
Proof.
  intros H. unfold UnmarshalPublic in H.
  apply bind_Ok in H. destruct H as (subj & Hun & H).
  destruct (ObjectIdentifier_Equal (subj_Algorithm subj)
              idEcPublicKeySupplemented) eqn:Halg; cbn [negb] in H;
    [| discriminate].
  destruct (namedCurveFromOID (ECDomain (Supplements subj))) as [curve |]
    eqn:Hc; [| discriminate].
  destruct (elliptic_Unmarshal curve (BitString_Bytes (subj_PublicKey subj)))
    as [[x y] |] eqn:Hpt; [| discriminate].
  inversion H; subst pub; clear H. cbn [Curve X Y Params].
  exists subj. split; [exact Hun |].
  split; [now apply Equal_eq |].
  split; [now apply namedCurveFromOID_inv |].
  split; [exact Hpt | reflexivity].
Qed.

(** X22.  Foreign algorithm: a DER structure whose algorithm identifier
    is not [idEcPublicKeySupplemented] is refused with the
    invalid-public-key error, whatever its curve and point. *)
Theorem UnmarshalPublic_foreign_algorithm (der : list Z)
    (subj : asnSubjectPublicKeyInfo) :
  asn1_Unmarshal_public der = Ok subj ->
  subj_Algorithm subj <> idEcPublicKeySupplemented ->
  UnmarshalPublic der = Err ErrInvalidPublicKey.
Proof.
  intros Hun Hne. unfold UnmarshalPublic. rewrite Hun. cbn [bind].
  destruct (ObjectIdentifier_Equal (subj_Algorithm subj)
              idEcPublicKeySupplemented) eqn:E; [| reflexivity].
  apply Equal_eq in E. contradiction.
Qed.

(** X23.  What [UnmarshalPrivate] checks: a structure of another version
    than 1, or one whose curve OID names no curve, is refused with the
    invalid-private-key error; a key it returns has the scalar of the
    private bytes and the public key [UnmarshalPublic] reads from the
    embedded bit string, curve included: the curve OID of the private
    structure is checked and not used. *)
Theorem UnmarshalPrivate_checks (der : list Z) (ecprv : asnPrivateKey) :
  asn1_Unmarshal_private der = Ok ecprv ->
  (Version ecprv <> asnECPrivKeyVer1 ->
   UnmarshalPrivate der = Err ErrInvalidPrivateKey)
  /\ (namedCurveFromOID (asnPrivateKey_Curve ecprv) = None ->
      UnmarshalPrivate der = Err ErrInvalidPrivateKey)
  /\ (forall prv,
         UnmarshalPrivate der = Ok prv ->
         Version ecprv = asnECPrivKeyVer1
         /\ D prv = SetBytes (Private ecprv)
         /\ UnmarshalPublic (BitString_Bytes (asnPrivateKey_Public ecprv))
            = Ok (Public prv)).
Proof.
  intros Hun. unfold UnmarshalPrivate. rewrite Hun. cbn [bind].
  split; [| split].
  - intros Hv. apply Z.eqb_neq in Hv. now rewrite Hv.
  - intros Hc. rewrite Hc.
    destruct (negb (Version ecprv =? asnECPrivKeyVer1)); reflexivity.
  - intros prv H.
    destruct (Z.eqb_spec (Version ecprv) asnECPrivKeyVer1) as [Hv | Hv];
      cbn [negb] in H; [| discriminate].
    destruct (namedCurveFromOID (asnPrivateKey_Curve ecprv));
      [| discriminate].
    apply bind_Ok in H. destruct H as (pub & Hpub & H).
    inversion H; subst prv. cbn [D Public PrivateKey_PublicKey]. auto.
Qed.

End SerializationMore.

Section PEMMore.

Context {L : CryptoLib} {OK : CryptoLibOK L}.
Context {C : Codec} {COK : CodecOK L C}.



(** X25.  Block types are not interchangeable: the PEM export of a
    private key is refused by [ImportPublicPEM] with the
    invalid-public-key error, and the PEM export of a public key by
    [ImportPrivatePEM] with the invalid-private-key error. *)
Theorem PEM_block_type_checked (prv : PrivateKey) (pub : PublicKey)
    (out_prv out_pub : list Z) :
  ExportPrivatePEM prv = Ok out_prv ->
  ExportPublicPEM pub = Ok out_pub ->
  ImportPublicPEM out_prv = Err ErrInvalidPublicKey
  /\ ImportPrivatePEM out_pub = Err ErrInvalidPrivateKey.
Proof.
  intros Hprv Hpub.
  unfold ExportPrivatePEM in Hprv. apply bind_Ok in Hprv.
  destruct Hprv as (der1 & _ & Henc1).
  unfold ExportPublicPEM in Hpub. apply bind_Ok in Hpub.
  destruct Hpub as (der2 & _ & Henc2).
  destruct (pem_roundtrip "ELLIPTIC CURVE PRIVATE KEY" der1
              (or_intror eq_refl)) as (o1 & Ho1 & Hdec1).
  destruct (pem_roundtrip "ELLIPTIC CURVE PUBLIC KEY" der2
              (or_introl eq_refl)) as (o2 & Ho2 & Hdec2).
  rewrite Henc1 in Ho1. inversion Ho1; subst o1.
  rewrite Henc2 in Ho2. inversion Ho2; subst o2.
  unfold ImportPublicPEM, ImportPrivatePEM. rewrite Hdec1, Hdec2.
  split; reflexivity.
Qed.

End PEMMore.

(** ** Concrete runs for the further properties *)

(** X1, witness: scalar 5 and the point of scalar 10 on P-256. *)
Lemma GenerateShared_fixed_width_witness :
  len (repeat 0 31 ++ [50]) = (BitSize (Curve (Public Toy.ephemeral)) + 7) / 8
  /\ Curve (Public Toy.prv) = Curve (Public Toy.ephemeral)
  /\ exists x y,
       ScalarMult (Curve (Public Toy.ephemeral)) (X (Public Toy.ephemeral))
         (Y (Public Toy.ephemeral)) (Bytes (D Toy.prv)) = Some (x, y)
       /\ SetBytes (repeat 0 31 ++ [50]) = Z.abs x.
Proof.
  apply (GenerateShared_fixed_width Toy.prv (Public Toy.ephemeral)
           (repeat 0 31 ++ [50])); by_computation.
Defined.

(** X2, witness: a P-256 scalar and a P-384 point. *)
Lemma GenerateShared_cross_curve_witness :
  GenerateShared Toy.prv ToyData.pub384 = Err ErrInvalidCurve.
Proof.
  apply (GenerateShared_cross_curve Toy.prv ToyData.pub384). discriminate.
Defined.

(** X3, witness: the counter 0x0000ffff. *)
Lemma incCounter_increments_witness :
  exists ctr,
    incCounter [0; 0; 255; 255] = Ok ctr
    /\ length ctr = 4%nat
    /\ Forall (fun b => 0 <= b < 256) ctr
    /\ SetBytes ctr = (SetBytes [0; 0; 255; 255] + 1) mod 2 ^ 32.
Proof. apply (incCounter_increments 0 0 255 255); lia. Defined.

(** X4, witness: 32 bytes from the 32-byte hash of the instance. *)
Lemma concatKDF_blocks_witness :
  concatKDF (New sha256_New) [1; 2; 3] [] 32
  = Ok (firstn (Z.to_nat 32)
          (kdf_blocks sha256_New [1; 2; 3] [] 1
             (Z.to_nat ((32 + 7) / hash_BlockSize sha256_New + 1))),
        New sha256_New).
Proof.
  apply (concatKDF_blocks sha256_New [1; 2; 3] [] 32); by_computation.
Defined.


(** X6, witness: [hello] under a sixteen-byte key. *)
Lemma symDecrypt_inverts_symEncrypt_witness :
  symDecrypt Toy.default256 ToyData.sym_key ToyData.sym_frame = Ok Toy.hello
  /\ len ToyData.sym_frame = BlockSize Toy.default256 + len Toy.hello
  /\ firstn (Z.to_nat (BlockSize Toy.default256)) ToyData.sym_frame
     = firstn (Z.to_nat (BlockSize Toy.default256)) ToyData.sym_rand.
Proof.
  apply (symDecrypt_inverts_symEncrypt (OK := ToyFacts.lib_ok)
           ToyData.sym_rand Toy.default256 ToyData.sym_key Toy.hello
           ToyData.sym_frame); by_computation.
Defined.

(** X7, witness: a source that holds the ephemeral scalar only. *)
Lemma Encrypt_needs_iv_witness :
  Encrypt [9] (Public Toy.prv) Toy.hello [] [] <> Ok Toy.ciphertext.
Proof.
  apply (Encrypt_needs_iv [9] [] (Public Toy.prv) ToyData.generated
           Toy.hello [] [] Toy.default256); by_computation.
Defined.

(** X8, witness: four bytes under a P-256 key. *)
Lemma Decrypt_truncated_witness :
  Decrypt (PrivateKey_KeyProvider Toy.prv) [4; 1; 2; 3] [] []
  = Err ErrInvalidMessage.
Proof.
  apply (Decrypt_truncated (PrivateKey_KeyProvider Toy.prv) Toy.default256
           sha256_New 4 [1; 2; 3] [] []); try by_computation.
  right. right. reflexivity.
Defined.

(** X9, witness: the frame for [hello] with a byte of the abscissa
    altered. *)
Lemma Decrypt_bad_point_witness :
  Decrypt (PrivateKey_KeyProvider Toy.prv) (4 :: ToyData.bad_point_rest) [] []
  = Err ErrInvalidPublicKey.
Proof.
  apply (Decrypt_bad_point (PrivateKey_KeyProvider Toy.prv) Toy.default256
           sha256_New 4 ToyData.bad_point_rest [] []); try by_computation.
  right. right. reflexivity.
Defined.

(** X10, witness: the frame for [hello] under the failing provider. *)
Lemma Decrypt_provider_error_witness :
  Decrypt ToyData.failing_provider (4 :: ToyData.frame_rest) [] []
  = Err ErrSharedKeyTooBig.
Proof.
  apply (Decrypt_provider_error ToyData.failing_provider Toy.default256
           sha256_New 4 ToyData.frame_rest [] [] 10 (Toy.ordinate 10)
           ErrSharedKeyTooBig); try by_computation.
  right. right. reflexivity.
Defined.

(** X11, witness: the frame for [hello]. *)
Lemma Decrypt_authentic_witness :
  exists (params : ECIESParams) (a : HashAlg) (point body tag : list Z)
         (Rx Ry : Z) (z Ke Km : list Z) (h : hash_Hash),
    resolve_params (KeyProvider_Public (PrivateKey_KeyProvider Toy.prv))
    = Ok params
    /\ Hash params = Some a
    /\ Toy.ciphertext = point ++ body ++ tag
    /\ elliptic_Unmarshal
         (Curve (KeyProvider_Public (PrivateKey_KeyProvider Toy.prv))) point
       = Some (Rx, Ry)
    /\ IsOnCurve
         (Curve (KeyProvider_Public (PrivateKey_KeyProvider Toy.prv))) Rx Ry
       = true
    /\ KeyProvider_GenerateShared (PrivateKey_KeyProvider Toy.prv)
         {| X := Rx; Y := Ry;
            Curve := Curve (KeyProvider_Public
                              (PrivateKey_KeyProvider Toy.prv));
            Params := None |} = Ok z
    /\ derive_keys (New a) params z [] = Ok (Ke, Km, h)
    /\ tag = hmac_Sum a Km (body ++ [])
    /\ symDecrypt params Ke body = Ok Toy.hello.
Proof.
  apply (Decrypt_authentic (PrivateKey_KeyProvider Toy.prv) Toy.ciphertext
           [] [] Toy.hello).
  vm_compute. reflexivity.
Defined.

(** X12, witness: the frame for [hello] and the sixteen bytes left in
    the source. *)
Lemma Encrypt_frame_layout_witness :
  exists Rb body tag,
    Toy.ciphertext
    = Rb ++ firstn (Z.to_nat (BlockSize Toy.default256)) ToyData.sym_rand
         ++ body ++ tag
    /\ elliptic_Marshal (Curve (Public Toy.prv))
         (X (Public ToyData.generated)) (Y (Public ToyData.generated))
       = Ok Rb
    /\ elliptic_Unmarshal (Curve (Public Toy.prv)) Rb
       = Some (X (Public ToyData.generated), Y (Public ToyData.generated))
    /\ hd 0 Toy.ciphertext = 4
    /\ len Rb = 1 + 2 * ((BitSize (Curve (Public Toy.prv)) + 7) / 8)
    /\ len (firstn (Z.to_nat (BlockSize Toy.default256)) ToyData.sym_rand)
       = BlockSize Toy.default256
    /\ len body = len Toy.hello
    /\ len tag = Size sha256_New.
Proof.
  apply (Encrypt_frame_layout (OK := ToyFacts.lib_ok) Toy.rand
           ToyData.sym_rand (Public Toy.prv) ToyData.generated Toy.hello
           [] [] Toy.ciphertext Toy.default256 sha256_New);
    first [ exact toy_default_ok | exact toy_hello_fits
          | exact toy_Encrypt_hello | discriminate | reflexivity ].
Defined.

(** X13, witness: the frame for [hello] under another [s2]. *)
Lemma Decrypt_other_S2_witness :
  Decrypt (PrivateKey_KeyProvider Toy.prv) Toy.ciphertext [] [7]
  = Err ErrInvalidMessage
  \/ Decrypt (PrivateKey_KeyProvider Toy.prv) Toy.ciphertext [] [7]
     = Ok Toy.hello.
Proof.
  apply (Decrypt_other_S2 (OK := ToyFacts.lib_ok) Toy.prv Toy.rand
           Toy.hello [] [] [7] Toy.ciphertext Toy.default256);
    first [ exact toy_prv_valid | exact toy_default_ok
          | exact toy_hello_fits | exact toy_Encrypt_hello
          | discriminate | reflexivity ].
Defined.

(** X14, witness: the P-224 key pair. *)
Lemma unsupported_parameters_witness :
  Encrypt Toy.rand (KeyProvider_Public (PrivateKey_KeyProvider Toy.prv224))
    Toy.hello [] []
  = Err ErrUnsupportedECIESParameters
  /\ Decrypt (PrivateKey_KeyProvider Toy.prv224) (4 :: ToyData.frame_rest)
       [] []
     = Err ErrUnsupportedECIESParameters.
Proof.
  apply (unsupported_parameters (PrivateKey_KeyProvider Toy.prv224) Toy.rand
           Toy.hello [] [] 4 ToyData.frame_rest); reflexivity.
Defined.

(** X15, witness: a key pair on P-256 from the sample randomness, without
    parameters given. *)
Lemma GenerateKey_result_witness :
  exists prv,
    GenerateKey Toy.rand P256 None = Ok (prv, ToyData.sym_rand)
    /\ valid_key prv
    /\ Curve (Public prv) = P256
    /\ X (Public prv) = 10 /\ Y (Public prv) = Toy.ordinate 10
    /\ D prv = SetBytes [10]
    /\ Params (Public prv) = ParamsFromCurve P256.
Proof.
  exact (GenerateKey_result (OK := ToyFacts.lib_ok) Toy.rand P256 None).
Defined.

(** X17, witness: the ECDSA form of the P-256 key pair. *)
Lemma ImportECDSA_roundtrip_witness :
  Decrypt (PrivateKey_KeyProvider (ImportECDSA ToyData.ecdsa_prv))
    Toy.ciphertext [] []
  = Ok Toy.hello.
Proof.
  apply (ImportECDSA_roundtrip (OK := ToyFacts.lib_ok) ToyData.ecdsa_prv
           Toy.rand Toy.hello [] [] Toy.ciphertext Toy.default256);
    first [ exact toy_hello_fits | discriminate
          | reflexivity | by_computation ].
Defined.

(** X20, witness: the key pair on the unnamed curve. *)
Lemma Marshal_unnamed_curve_witness :
  MarshalPublic (Public ToyData.unnamed) = Err ErrInvalidPublicKey
  /\ ExportPublicPEM (Public ToyData.unnamed) = Err ErrInvalidPublicKey
  /\ MarshalPrivate ToyData.unnamed = Err ErrInvalidPrivateKey
  /\ ExportPrivatePEM ToyData.unnamed = Err ErrInvalidPrivateKey.
Proof.
  apply (Marshal_unnamed_curve ToyData.unnamed []). reflexivity.
Defined.

(** X21, witness: the DER form of the P-256 public key. *)
Lemma UnmarshalPublic_result_witness :
  exists subj,
    asn1_Unmarshal_public ToyData.der_pub = Ok subj
    /\ subj_Algorithm subj = idEcPublicKeySupplemented
    /\ oidFromNamedCurve (Curve ToyData.pub_back)
       = (ECDomain (Supplements subj), true)
    /\ elliptic_Unmarshal (Curve ToyData.pub_back)
         (BitString_Bytes (subj_PublicKey subj))
       = Some (X ToyData.pub_back, Y ToyData.pub_back)
    /\ Params ToyData.pub_back
       = Some (asnECDHtoParams (ECDH (ECCAlgorithms (Supplements subj)))
                 (asnECIEStoParams (ECIES (ECCAlgorithms (Supplements subj)))
                    new_ECIESParams)).
Proof.
  apply (UnmarshalPublic_result ToyData.der_pub ToyData.pub_back).
  vm_compute. reflexivity.
Defined.

(** X22, witness: the decoder that returns another algorithm. *)
Lemma UnmarshalPublic_foreign_algorithm_witness :
  UnmarshalPublic (C := ToyData.foreign_codec) [] = Err ErrInvalidPublicKey.
Proof.
  apply (UnmarshalPublic_foreign_algorithm (C := ToyData.foreign_codec)
           [] ToyData.foreign_subj); [reflexivity | discriminate].
Defined.

(** X23, witness: a structure of version 2. *)
Lemma UnmarshalPrivate_checks_witness :
  UnmarshalPrivate [2; 0; 0; 0] = Err ErrInvalidPrivateKey.
Proof.
  destruct (UnmarshalPrivate_checks [2; 0; 0; 0] ToyData.version2)
    as (Hversion & _); [reflexivity |].
  apply Hversion. discriminate.
Defined.


(** X25, witness: the two PEM forms of the P-256 key pair. *)
Lemma PEM_block_type_checked_witness :
  ImportPublicPEM ToyData.pem_prv = Err ErrInvalidPublicKey
  /\ ImportPrivatePEM ToyData.pem_pub = Err ErrInvalidPrivateKey.
Proof.
  apply (PEM_block_type_checked (COK := ToyCodecFacts.codec_ok)
           Toy.prv (Public Toy.prv) ToyData.pem_prv ToyData.pem_pub);
    by_computation.
Defined.
